(** * Hopper: task registry, folder locks, scheduler pass and execution engine

    A shallow embedding of [src/server/queue.ts] and [src/server/executor.ts]
    (with the scheduler loop of [src/main.ts]) and the properties of the
    specification that are about them; then the notifications of
    [src/server/websocket.ts] and [src/main.ts] and the task list of the
    page in [src/frontend/app.js], with further properties of the code.

    The three module-level containers of [queue.ts] ([tasks], [taskOrder],
    [folderLocks]) and the one of [executor.ts] ([runningProcesses]) are the
    fields of one explicit [State]; every exported function becomes a
    function on that state.  JavaScript maps are [gmap]s keyed by strings,
    the order array is a [list string]. *)

From Stdlib Require Import Ascii.
From stdpp Require Import gmap strings list fin_maps.

Local Open Scope string_scope.
Local Open Scope list_scope.
Local Open Scope Z_scope.

(** ** Data model ([src/types.ts]) *)

Inductive TaskStatus := queued | running | completed | error.

Global Instance TaskStatus_eq_dec : EqDecision TaskStatus.
Proof. solve_decision. Defined.

(** [AgentType] is the union ["claude" | "codex"] in the type declarations,
    but it is a plain string at run time: client messages are cast from
    parsed JSON without validation, and [buildCommand] has a [default]
    branch for every other value.  It is kept as a string so that this
    branch stays in the model. *)
Definition AgentType := string.

Record Task := mkTask {
  id : string;
  folderPath : string;
  agent : AgentType;
  prompt : string;
  originalPrompt : option string;
  status : TaskStatus;
  terminalOutput : list string;
  exitCode : option Z;
  createdAt : Z;
  startedAt : option Z;
  completedAt : option Z
}.

Inductive Direction := up | down.

(** What [Bun.spawn] was asked to run: the command line and the working
    directory.  [process.cwd()] of the server is not a value of the model,
    so the working directory is either a folder or "the server's own". *)
Inductive Cwd := InFolder (path : string) | ServerCwd.

Record Process := mkProcess { cmd : list string; cwd : Cwd }.

(** The shared mutable state.  [awaiting] holds the suspended
    continuations of [executeTask]: one entry per call that got past
    [Bun.spawn] and is waiting for the streams and for [proc.exited].  An
    entry is the [task] object the call captured; the continuation reads
    only its [id] and [folderPath], which nothing ever reassigns. *)
Record State := mkState {
  tasks : gmap string Task;
  taskOrder : list string;
  folderLocks : gmap string string;
  runningProcesses : gmap string Process;
  awaiting : list Task
}.

Definition init : State := mkState ∅ [] ∅ ∅ [].

Definition set_tasks (m : gmap string Task) (s : State) : State :=
  mkState m (taskOrder s) (folderLocks s) (runningProcesses s) (awaiting s).
Definition set_taskOrder (o : list string) (s : State) : State :=
  mkState (tasks s) o (folderLocks s) (runningProcesses s) (awaiting s).
Definition set_folderLocks (l : gmap string string) (s : State) : State :=
  mkState (tasks s) (taskOrder s) l (runningProcesses s) (awaiting s).
Definition set_runningProcesses (p : gmap string Process) (s : State) : State :=
  mkState (tasks s) (taskOrder s) (folderLocks s) p (awaiting s).
Definition set_awaiting (a : list Task) (s : State) : State :=
  mkState (tasks s) (taskOrder s) (folderLocks s) (runningProcesses s) a.

(** ** The task registry ([src/server/queue.ts]) *)

(** [p.replace(/\/+$/, "")]: the maximal run of slashes at the end of the
    string is removed. *)
Fixpoint normalizePath (p : string) : string :=
  match p with
  | EmptyString => EmptyString
  | String c rest =>
      match normalizePath rest with
      | EmptyString => if Ascii.eqb c "/"%char then EmptyString else String c EmptyString
      | r => String c r
      end
  end.

(** [crypto.randomUUID()] and [Date.now()] are results of the environment;
    they are arguments here ([newId], [now]). *)
Definition createTask (newId : string) (now : Z)
    (folder : string) (ag : AgentType) (pr : string)
    (orig : option string) (s : State) : Task * State :=
  let task := mkTask newId (normalizePath folder) ag pr orig
                     queued [] None now None None in
  (task, set_taskOrder (taskOrder s ++ [newId])
           (set_tasks (<[newId := task]> (tasks s)) s)).

Definition getTask (taskId : string) (s : State) : option Task :=
  tasks s !! taskId.

Definition getAllTasks (s : State) : list Task :=
  omap (λ i, tasks s !! i) (taskOrder s).

(** [Partial<Task>] as the executor uses it: the fields that may be
    present in an update object. *)
Record TaskUpdates := mkUpdates {
  u_status : option TaskStatus;
  u_startedAt : option Z;
  u_exitCode : option Z;
  u_completedAt : option Z
}.

(** [Object.assign(task, updates)]: a present field overwrites. *)
Definition assign (t : Task) (u : TaskUpdates) : Task :=
  mkTask (id t) (folderPath t) (agent t) (prompt t) (originalPrompt t)
    (default (status t) (u_status u))
    (terminalOutput t)
    (match u_exitCode u with Some c => Some c | None => exitCode t end)
    (createdAt t)
    (match u_startedAt u with Some c => Some c | None => startedAt t end)
    (match u_completedAt u with Some c => Some c | None => completedAt t end).

Definition updateTask (taskId : string) (u : TaskUpdates) (s : State)
    : option Task * State :=
  match tasks s !! taskId with
  | None => (None, s)
  | Some task =>
      let task' := assign task u in
      (Some task', set_tasks (<[taskId := task']> (tasks s)) s)
  end.

(** [Array.prototype.indexOf]: position of the first occurrence, [-1] when
    there is none. *)
Fixpoint indexOf (x : string) (l : list string) : Z :=
  match l with
  | [] => -1
  | y :: l' =>
      if bool_decide (y = x) then 0
      else let r := indexOf x l' in if r =? -1 then -1 else r + 1
  end.

Definition removeTask (taskId : string) (s : State) : bool * State :=
  match tasks s !! taskId with
  | None => (false, s)
  | Some task =>
      let locks :=
        if bool_decide (folderLocks s !! folderPath task = Some taskId)
        then delete (folderPath task) (folderLocks s)
        else folderLocks s in
      let index := indexOf taskId (taskOrder s) in
      let order :=
        if index >? -1 then delete (Z.to_nat index) (taskOrder s)
        else taskOrder s in
      (true, set_taskOrder order
               (set_tasks (delete taskId (tasks s))
                  (set_folderLocks locks s)))
  end.

(** The destructuring swap [[a[i], a[j]] = [a[j], a[i]]]: both cells are
    read, then both are written.  [reorderTask] only swaps after its bounds
    check, so both reads succeed there; outside the bounds (where JavaScript
    would grow the array) the list is returned as it is. *)
Definition swap (i j : Z) (l : list string) : list string :=
  match l !! Z.to_nat i, l !! Z.to_nat j with
  | Some xi, Some xj => <[Z.to_nat j := xi]> (<[Z.to_nat i := xj]> l)
  | _, _ => l
  end.

Definition reorderTask (taskId : string) (direction : Direction) (s : State)
    : bool * State :=
  let index := indexOf taskId (taskOrder s) in
  if index =? -1 then (false, s)
  else
    let newIndex := match direction with up => index - 1 | down => index + 1 end in
    if (newIndex <? 0) || (newIndex >=? Z.of_nat (length (taskOrder s)))
    then (false, s)
    else (true, set_taskOrder (swap index newIndex (taskOrder s)) s).

Definition getTaskOrder (s : State) : list string := taskOrder s.

(** ** The folder lock table *)

(** [!lockHolder || lockHolder === task.id]: an absent entry and the empty
    string are both falsy. *)
Definition canStartTask (task : Task) (s : State) : bool :=
  match folderLocks s !! folderPath task with
  | None => true
  | Some lockHolder =>
      bool_decide (lockHolder = "") || bool_decide (lockHolder = id task)
  end.

Definition acquireFolderLock (task : Task) (s : State) : bool * State :=
  if negb (canStartTask task s) then (false, s)
  else (true, set_folderLocks (<[folderPath task := id task]> (folderLocks s)) s).

Definition releaseFolderLock (task : Task) (s : State) : State :=
  if bool_decide (folderLocks s !! folderPath task = Some (id task))
  then set_folderLocks (delete (folderPath task) (folderLocks s)) s
  else s.

(** ** The scheduler's selection *)

Fixpoint getNextRunnableTask_from (order : list string) (s : State) : option Task :=
  match order with
  | [] => None
  | taskId :: rest =>
      match tasks s !! taskId with
      | Some task =>
          if bool_decide (status task = queued) && canStartTask task s
          then Some task
          else getNextRunnableTask_from rest s
      | None => getNextRunnableTask_from rest s
      end
  end.

Definition getNextRunnableTask (s : State) : option Task :=
  getNextRunnableTask_from (taskOrder s) s.

(** The [for] loop of [getNextRunnableTasks], with its two accumulators. *)
Fixpoint getNextRunnableTasks_loop (s : State) (order : list string)
    (runnable : list Task) (foldersToStart : gset string) : list Task :=
  match order with
  | [] => runnable
  | taskId :: rest =>
      match tasks s !! taskId with
      | None => getNextRunnableTasks_loop s rest runnable foldersToStart
      | Some task =>
          if negb (bool_decide (status task = queued))
          then getNextRunnableTasks_loop s rest runnable foldersToStart
          else if negb (canStartTask task s)
                  || bool_decide (folderPath task ∈ foldersToStart)
          then getNextRunnableTasks_loop s rest runnable foldersToStart
          else getNextRunnableTasks_loop s rest (runnable ++ [task])
                 ({[folderPath task]} ∪ foldersToStart)
      end
  end.

Definition getNextRunnableTasks (s : State) : list Task :=
  getNextRunnableTasks_loop s (taskOrder s) [] ∅.

(** ** The execution engine ([src/server/executor.ts]) *)

(** [buildCommand] either resolves the command or throws
    [Error("Unknown agent: ...")]; the thrown message is the left case. *)
Definition buildCommand (task : Task) : string + Process :=
  if bool_decide (agent task = "claude") then
    inr (mkProcess ["claude"; "-p"; prompt task] (InFolder (folderPath task)))
  else if bool_decide (agent task = "codex") then
    inr (mkProcess ["codex"; "exec"; "-C"; folderPath task; prompt task] ServerCwd)
  else inl ("Unknown agent: " +:+ agent task).

(** What [Bun.spawn] does is decided by the environment: it returns a
    process, or throws (missing binary, bad working directory).  In the
    second case [caughtAt] is the reading of [Date.now()] in the handler. *)
Inductive SpawnResult :=
  | SpawnOk
  | SpawnError (message : string) (caughtAt : Z).

(** [task.terminalOutput.push(line)].  The executor pushes onto the object
    it captured, which is the object stored in [tasks] for as long as the
    task is registered; once the task has been removed the object is
    reachable from the continuation only, and the registry sees nothing. *)
Definition with_output (lines : list string) (task : Task) : Task :=
  mkTask (id task) (folderPath task) (agent task) (prompt task)
    (originalPrompt task) (status task) (terminalOutput task ++ lines)
    (exitCode task) (createdAt task) (startedAt task) (completedAt task).

Definition pushOutput (taskId : string) (lines : list string) (s : State) : State :=
  match tasks s !! taskId with
  | None => s
  | Some task => set_tasks (<[taskId := with_output lines task]> (tasks s)) s
  end.

(** The [catch] block of [executeTask]. *)
Definition executeTask_catch (task : Task) (errorMessage : string) (now : Z)
    (s : State) : State :=
  let s1 := set_runningProcesses (delete (id task) (runningProcesses s)) s in
  let s2 := releaseFolderLock task s1 in
  let s3 := pushOutput (id task) ["[error] " +:+ errorMessage] s2 in
  (updateTask (id task) (mkUpdates (Some error) None (Some (-1)) (Some now)) s3).2.

(** How the synchronous part of one [executeTask] call ends: the promise
    is rejected by a [throw] outside the [try], or the [catch] block has
    run and reported completion, or the call is suspended on its first
    [await] with the process running. *)
Inductive Outcome :=
  | Rejected (message : string)
  | Settled
  | Suspended.

Definition executeTask (task : Task) (spawn : SpawnResult) (now : Z) (s : State)
    : Outcome * State :=
  let '(acquired, s1) := acquireFolderLock task s in
  if negb acquired then
    (Rejected ("Folder " +:+ folderPath task +:+ " is locked by another task"), s1)
  else
    let s2 := (updateTask (id task) (mkUpdates (Some running) (Some now) None None) s1).2 in
    match buildCommand task with
    | inl message => (Rejected message, s2)
    | inr proc =>
        match spawn with
        | SpawnError message caughtAt =>
            (Settled, executeTask_catch task message caughtAt s2)
        | SpawnOk =>
            (Suspended,
             set_awaiting (awaiting s2 ++ [task])
               (set_runningProcesses (<[id task := proc]> (runningProcesses s2)) s2))
        end
    end.

(** The rest of the [try] block, run when both streams are drained and
    [proc.exited] has resolved to [code]. *)
Definition executeTask_resume (task : Task) (code : Z) (now : Z) (s : State) : State :=
  let s1 := set_runningProcesses (delete (id task) (runningProcesses s)) s in
  let s2 := releaseFolderLock task s1 in
  let st := if code =? 0 then completed else error in
  (updateTask (id task) (mkUpdates (Some st) None (Some code) (Some now)) s2).2.

Definition stopTask (taskId : string) (now : Z) (s : State) : bool * State :=
  match runningProcesses s !! taskId with
  | None => (false, s)
  | Some _ =>
      let s1 := set_runningProcesses (delete taskId (runningProcesses s)) s in
      match getTask taskId s1 with
      | Some task =>
          let s2 := releaseFolderLock task s1 in
          let s3 := (updateTask taskId
                       (mkUpdates (Some error) None (Some (-9)) (Some now)) s2).2 in
          (true, pushOutput taskId ["[system] Task stopped by user"] s3)
      | None => (true, s1)
      end
  end.

Definition isTaskRunning (taskId : string) (s : State) : bool :=
  bool_decide (is_Some (runningProcesses s !! taskId)).

(** *** Decoding the bytes of a stream

    A chunk is the [Uint8Array] a reader delivers: a string of bytes.
    [executeTask] creates one [TextDecoder] (UTF-8, errors replaced, byte
    order mark removed) and both [readStream] calls decode with it, always
    with [{ stream: true }].  The decoder is the platform's; what follows
    is the UTF-8 decoder of the Encoding Standard, with its state. *)

Definition byte_value (c : ascii) : Z := Z.of_N (N_of_ascii c).
Definition byte_of (z : Z) : ascii := ascii_of_N (Z.to_N z).

(** A chunk given by the values of its bytes. *)
Definition bytes (values : list Z) : string :=
  String.string_of_list_ascii (byte_of <$> values).

(** A JavaScript string that holds no lone surrogate is a sequence of
    scalar values; it is written here as the bytes of its UTF-8 form (the
    UTF-8 encoder of the Encoding Standard).  The decoder only ever
    returns such strings, and so are the prefix and the two marker lines
    of the executor. *)
Definition utf8_encode (cp : Z) : string :=
  if cp <=? 0x7F then String (byte_of cp) ""
  else if cp <=? 0x7FF then
    String (byte_of (Z.shiftr cp 6 + 0xC0))
      (String (byte_of (Z.lor 0x80 (Z.land cp 0x3F))) "")
  else if cp <=? 0xFFFF then
    String (byte_of (Z.shiftr cp 12 + 0xE0))
      (String (byte_of (Z.lor 0x80 (Z.land (Z.shiftr cp 6) 0x3F)))
         (String (byte_of (Z.lor 0x80 (Z.land cp 0x3F))) ""))
  else
    String (byte_of (Z.shiftr cp 18 + 0xF0))
      (String (byte_of (Z.lor 0x80 (Z.land (Z.shiftr cp 12) 0x3F)))
         (String (byte_of (Z.lor 0x80 (Z.land (Z.shiftr cp 6) 0x3F)))
            (String (byte_of (Z.lor 0x80 (Z.land cp 0x3F))) ""))).

Fixpoint utf8_text (scalars : list Z) : string :=
  match scalars with
  | [] => ""
  | cp :: rest => utf8_encode cp +:+ utf8_text rest
  end.

(** The state of the UTF-8 decoder. *)
Record Utf8Decoder := mkUtf8 {
  code_point : Z;
  bytes_seen : Z;
  bytes_needed : Z;
  lower_boundary : Z;
  upper_boundary : Z
}.

Definition utf8_idle : Utf8Decoder := mkUtf8 0 0 0 0x80 0xBF.

(** The handler on a byte when no bytes are needed: the scalar values it
    emits ([0xFFFD] for an error) and the next state. *)
Definition utf8_lead (b : Z) : list Z * Utf8Decoder :=
  if b <=? 0x7F then ([b], utf8_idle)
  else if (0xC2 <=? b) && (b <=? 0xDF) then
    ([], mkUtf8 (Z.land b 0x1F) 0 1 0x80 0xBF)
  else if (0xE0 <=? b) && (b <=? 0xEF) then
    ([], mkUtf8 (Z.land b 0xF) 0 2
           (if b =? 0xE0 then 0xA0 else 0x80) (if b =? 0xED then 0x9F else 0xBF))
  else if (0xF0 <=? b) && (b <=? 0xF4) then
    ([], mkUtf8 (Z.land b 0x7) 0 3
           (if b =? 0xF0 then 0x90 else 0x80) (if b =? 0xF4 then 0x8F else 0xBF))
  else ([0xFFFD], utf8_idle).

(** The handler on any byte.  A byte outside the boundaries ends the
    sequence with an error and is read again with no bytes needed. *)
Definition utf8_handler (d : Utf8Decoder) (b : Z) : list Z * Utf8Decoder :=
  if bytes_needed d =? 0 then utf8_lead b
  else if (b <? lower_boundary d) || (upper_boundary d <? b) then
    let '(items, d') := utf8_lead b in (0xFFFD :: items, d')
  else
    let cp := Z.lor (Z.shiftl (code_point d) 6) (Z.land b 0x3F) in
    if bytes_seen d + 1 =? bytes_needed d then ([cp], utf8_idle)
    else ([], mkUtf8 cp (bytes_seen d + 1) (bytes_needed d) 0x80 0xBF).

(** [new TextDecoder()]: the decoder and its "BOM seen" flag. *)
Record TextDecoder := mkDecoder {
  utf8 : Utf8Decoder;
  BOM_seen : bool
}.

Definition new_TextDecoder : TextDecoder := mkDecoder utf8_idle false.

(** The first scalar value the decoder ever returns is dropped when it is
    the byte order mark. *)
Fixpoint serialize (items : list Z) (seen : bool) : string * bool :=
  match items with
  | [] => ("", seen)
  | item :: rest =>
      if negb seen && (item =? 0xFEFF) then serialize rest true
      else let '(out, seen') := serialize rest true in
           (utf8_encode item +:+ out, seen')
  end.

Definition decode_byte (b : Z) (decoder : TextDecoder) : string * TextDecoder :=
  let '(items, d) := utf8_handler (utf8 decoder) b in
  let '(out, seen) := serialize items (BOM_seen decoder) in
  (out, mkDecoder d seen).

(** [decoder.decode(value, { stream: true })]: the text for the bytes of
    [value], the bytes of an unfinished character being kept in the
    decoder for the next call, whichever stream that call is for. *)
Fixpoint decode (value : string) (decoder : TextDecoder) : string * TextDecoder :=
  match value with
  | EmptyString => ("", decoder)
  | String c rest =>
      let '(out, decoder1) := decode_byte (byte_value c) decoder in
      let '(out', decoder2) := decode rest decoder1 in
      (out +:+ out', decoder2)
  end.

(** *** Draining one stream *)

(** [String.prototype.split("\n")]: never empty, the empty string gives
    one empty segment.  In the UTF-8 form of a string the newline byte
    stands for the newline character only, so splitting the bytes is
    splitting the string. *)
Fixpoint split_newline (text : string) : list string :=
  match text with
  | EmptyString => [EmptyString]
  | String c rest =>
      if Ascii.eqb c "010"%char then EmptyString :: split_newline rest
      else match split_newline rest with
           | seg :: segs => String c seg :: segs
           | [] => [String c EmptyString]
           end
  end.

(** [Array.prototype.pop]: the last element ([undefined] on an empty
    array) and the array without it. *)
Definition pop (lines : list string) : option string * list string :=
  (last lines, removelast lines).

(** [prefix ? `${prefix}${line}` : line]. *)
Definition tagged (pre line : string) : string :=
  if bool_decide (pre = "") then line else pre +:+ line.

(** One turn of the [while] loop of [readStream], for a chunk the reader
    delivered: the lines pushed, the buffer kept and the decoder after
    the turn. *)
Definition readStream_read (pre value buffer : string) (decoder : TextDecoder)
    : list string * string * TextDecoder :=
  let '(text, decoder') := decode value decoder in
  let buffer1 := buffer +:+ text in
  let '(popped, lines) := pop (split_newline buffer1) in
  let buffer2 := match popped with
                 | Some (String c r) => String c r
                 | _ => ""
                 end in
  (tagged pre <$> lines, buffer2, decoder').

(** The loop over the chunks of one stream, while the other stream
    delivers nothing in between. *)
Fixpoint readStream_loop (pre buffer : string) (chunks : list string)
    (decoder : TextDecoder) : list string * string * TextDecoder :=
  match chunks with
  | [] => ([], buffer, decoder)
  | value :: rest =>
      let '(lines, buffer', decoder') := readStream_read pre value buffer decoder in
      let '(out, final, decoder'') := readStream_loop pre buffer' rest decoder' in
      (lines ++ out, final, decoder'')
  end.

(** How the reading of a stream ends: [reader.read()] reports [done], or
    it throws and the [catch] block swallows the error. *)
Inductive Ending := Closed | ReadError.

(** After the loop: the flush of what is left in the buffer.  It is
    inside the [try] block, so it is skipped when the reader threw. *)
Definition readStream_flush (pre buffer : string) (ending : Ending) : list string :=
  match ending with
  | Closed => if bool_decide (buffer = "") then [] else [tagged pre buffer]
  | ReadError => []
  end.

(** One [readStream] call that is not interleaved with the other. *)
Definition readStream (pre : string) (chunks : list string) (ending : Ending)
    (decoder : TextDecoder) : list string * TextDecoder :=
  let '(out, buffer, decoder') := readStream_loop pre "" chunks decoder in
  (out ++ readStream_flush pre buffer ending, decoder').

(** *** Draining both streams

    [Promise.all] runs the two [readStream] calls concurrently: their
    turns interleave in the order in which the readers deliver, each with
    its own buffer and both with the one decoder. *)
Inductive Stream := stdout | stderr.

Global Instance Stream_eq_dec : EqDecision Stream.
Proof. solve_decision. Defined.

Definition stream_prefix (from : Stream) : string :=
  match from with stdout => "" | stderr => "[stderr] " end.

Inductive Read :=
  | Chunk (from : Stream) (value : string)
  | Finish (from : Stream) (ending : Ending).

(** The decoder, and for each stream the buffer of its [readStream] call
    while that call is in its loop. *)
Record Readers := mkReaders {
  decoder : TextDecoder;
  stdout_buffer : option string;
  stderr_buffer : option string
}.

Definition start_reading : Readers := mkReaders new_TextDecoder (Some "") (Some "").

Definition buffer_of (from : Stream) (r : Readers) : option string :=
  match from with stdout => stdout_buffer r | stderr => stderr_buffer r end.

Definition set_reader (from : Stream) (buffer : option string) (d : TextDecoder)
    (r : Readers) : Readers :=
  match from with
  | stdout => mkReaders d buffer (stderr_buffer r)
  | stderr => mkReaders d (stdout_buffer r) buffer
  end.

(** One turn of one of the two calls; the lines it pushes onto
    [task.terminalOutput], each with the stream it is from.  A call that
    has returned takes no more turns. *)
Definition read_turn (e : Read) (r : Readers) : list (Stream * string) * Readers :=
  match e with
  | Chunk from value =>
      match buffer_of from r with
      | Some buffer =>
          let '(lines, buffer', decoder') :=
            readStream_read (stream_prefix from) value buffer (decoder r) in
          (pair from <$> lines, set_reader from (Some buffer') decoder' r)
      | None => ([], r)
      end
  | Finish from ending =>
      match buffer_of from r with
      | Some buffer =>
          (pair from <$> readStream_flush (stream_prefix from) buffer ending,
           set_reader from None (decoder r) r)
      | None => ([], r)
      end
  end.

Fixpoint readStreams (reads : list Read) (r : Readers)
    : list (Stream * string) * Readers :=
  match reads with
  | [] => ([], r)
  | e :: rest =>
      let '(pushed, r') := read_turn e r in
      let '(pushed', r'') := readStreams rest r' in
      (pushed ++ pushed', r'')
  end.

(** ** The scheduler pass ([runScheduler] in [src/main.ts]) *)

(** One pass takes the runnable tasks once and starts each without
    waiting; a rejected start is only logged.  The whole pass is one
    synchronous run, so its [schedulerRunning] flag is never seen set and
    is not part of the state. *)
Fixpoint dispatch (spawn : string -> SpawnResult) (now : Z)
    (selected : list Task) (s : State) : State :=
  match selected with
  | [] => s
  | task :: rest => dispatch spawn now rest (executeTask task (spawn (id task)) now s).2
  end.

Definition runScheduler (spawn : string -> SpawnResult) (now : Z) (s : State) : State :=
  dispatch spawn now (getNextRunnableTasks s) s.

(** ** The system as a transition system

    Everything that can happen between two turns of the event loop: a
    client request handled by [handleClientMessage], a scheduler pass, a
    stream of a running process delivering lines, a process exiting.  The
    continuation concerned is named by its position in [awaiting].  The
    callbacks [onOutput] and [onComplete] only notify the observers (and
    arm a timer for the next pass); they do not touch the state. *)
Inductive Event :=
  | ECreate (newId : string) (now : Z) (folder : string) (ag : AgentType) (pr : string)
  | EReorder (taskId : string) (direction : Direction)
  | ERemove (taskId : string)
  | EStop (taskId : string) (now : Z)
  | ESchedule (spawn : string -> SpawnResult) (now : Z)
  | EOutput (k : nat) (lines : list string)
  | EExit (k : nat) (code : Z) (now : Z).

Definition apply_event (e : Event) (s : State) : State :=
  match e with
  | ECreate newId now folder ag pr => (createTask newId now folder ag pr None s).2
  | EReorder taskId direction => (reorderTask taskId direction s).2
  | ERemove taskId => (removeTask taskId s).2
  | EStop taskId now => (stopTask taskId now s).2
  | ESchedule spawn now => runScheduler spawn now s
  | EOutput k lines =>
      match awaiting s !! k with
      | Some task => pushOutput (id task) lines s
      | None => s
      end
  | EExit k code now =>
      match awaiting s !! k with
      | Some task =>
          executeTask_resume task code now (set_awaiting (delete k (awaiting s)) s)
      | None => s
      end
  end.

(** [crypto.randomUUID()] returns a non-empty identifier that is not in
    use: not registered, not the key of a process, not captured by a
    suspended continuation. *)
Definition fresh (newId : string) (s : State) : Prop :=
  newId ≠ "" ∧ tasks s !! newId = None ∧ runningProcesses s !! newId = None
  ∧ ∀ task, task ∈ awaiting s → id task ≠ newId.

Definition enabled (s : State) (e : Event) : Prop :=
  match e with
  | ECreate newId _ _ _ _ => fresh newId s
  | _ => True
  end.

Inductive reachable : State -> Prop :=
  | reachable_init : reachable init
  | reachable_step s e : reachable s -> enabled s e -> reachable (apply_event e s).

(** ** Properties under study *)

Definition is_terminal (st : TaskStatus) : bool :=
  match st with completed | error => true | _ => false end.




(** What the process map and the suspended calls say about the registry:
    a registered task with a process is [running]; a registered task with
    a suspended call has left [queued]; no two suspended calls are for the
    same task. *)
Record execution_inv (s : State) : Prop := {
  ex_process_running : ∀ taskId proc task,
    runningProcesses s !! taskId = Some proc → tasks s !! taskId = Some task →
    status task = running;
  ex_awaiting_started : ∀ captured task,
    captured ∈ awaiting s → tasks s !! id captured = Some task →
    status task ≠ queued;
  ex_awaiting_distinct : NoDup (id <$> awaiting s)
}.

(** Folder exclusivity, as the data model states it. *)
Record folder_exclusive (s : State) : Prop := {
  lock_iff_running : ∀ folder,
    is_Some (folderLocks s !! folder) ↔
    ∃ taskId task, tasks s !! taskId = Some task
                   ∧ folderPath task = folder ∧ status task = running;
  lock_unique : ∀ folder h1 h2,
    folderLocks s !! folder = Some h1 → folderLocks s !! folder = Some h2 → h1 = h2;
  holder_running : ∀ folder holder,
    folderLocks s !! folder = Some holder →
    ∃ task, tasks s !! holder = Some task ∧ id task = holder
            ∧ folderPath task = folder ∧ status task = running;
  one_running_per_folder : ∀ id1 id2 t1 t2,
    tasks s !! id1 = Some t1 → tasks s !! id2 = Some t2 →
    status t1 = running → status t2 = running →
    folderPath t1 = folderPath t2 → id1 = id2
}.

(** The invariant that carries the induction over reachable states. *)
Record registry_inv (s : State) : Prop := {
  inv_keys : ∀ taskId task, tasks s !! taskId = Some task →
               id task = taskId ∧ taskId ≠ "";
  inv_holder : ∀ folder holder, folderLocks s !! folder = Some holder →
               ∃ task, tasks s !! holder = Some task
                       ∧ folderPath task = folder ∧ status task = running;
  inv_running : ∀ taskId task, tasks s !! taskId = Some task →
               status task = running →
               folderLocks s !! folderPath task = Some taskId;
  inv_awaiting : ∀ captured task, captured ∈ awaiting s →
               tasks s !! id captured = Some task →
               folderPath task = folderPath captured
}.

(** Every registered folder path is in normal form: [normalizePath] has
    nothing left to strip. *)
Definition paths_normalized (s : State) : Prop :=
  ∀ taskId task, tasks s !! taskId = Some task →
    normalizePath (folderPath task) = folderPath task.

(** The order list names every registered task once and nothing else. *)
Definition order_inv (s : State) : Prop :=
  NoDup (taskOrder s) ∧ ∀ taskId, taskId ∈ taskOrder s ↔ is_Some (tasks s !! taskId).

(** The lines that the specification expects in the log for the text of
    one stream: its newline-separated segments, without the last one when
    that one is empty. *)
Definition log_lines (text : string) : list string :=
  let segments := split_newline text in
  if bool_decide (last segments = Some "") then removelast segments else segments.

Definition newline : string := String "010"%char "".

Definition has_newline (line : string) : Prop :=
  "010"%char ∈ String.list_ascii_of_string line.

(** The text a stream carries: its chunks, one after the other. *)
Definition stream_text (chunks : list string) : string :=
  foldr String.append "" chunks.

(** What the loop of [getNextRunnableTasks] asks of a task before it looks
    at [foldersToStart]. *)
Definition eligible (s : State) (task : Task) : bool :=
  bool_decide (status task = queued) && canStartTask task s.

(** [task] is registered at position [i] of [order], may be selected, and
    no task before it that may be selected has its folder. *)
Definition first_eligible_at (s : State) (order : list string) (i : nat)
    (task : Task) : Prop :=
  (∃ taskId, order !! i = Some taskId ∧ tasks s !! taskId = Some task)
  ∧ eligible s task = true
  ∧ ∀ j taskId' other, (j < i)%nat → order !! j = Some taskId' →
      tasks s !! taskId' = Some other → eligible s other = true →
      folderPath other ≠ folderPath task.

(** A position of the order list that holds a registered task. *)
Definition at_position (s : State) (i : nat) (task : Task) : Prop :=
  ∃ taskId, taskOrder s !! i = Some taskId ∧ tasks s !! taskId = Some task.

(** The selection rule in the words of the specification: the queued
    tasks in order, each skipped when it cannot start or when a task for
    the same folder was selected before it in this pass. *)
Definition queued_in_order (s : State) : list Task :=
  filter (λ task, status task = queued) (omap (λ i, tasks s !! i) (taskOrder s)).

Fixpoint select_skipping (s : State) (candidates selected : list Task) : list Task :=
  match candidates with
  | [] => selected
  | task :: rest =>
      if negb (canStartTask task s)
         || bool_decide (Exists (λ earlier, folderPath earlier = folderPath task) selected)
      then select_skipping s rest selected
      else select_skipping s rest (selected ++ [task])
  end.

Definition runnable_by_rule (s : State) : list Task :=
  select_skipping s (queued_in_order s) [].

(** "For each folder the selected task is the earliest-ordered queued task
    for that folder." *)
Definition selects_earliest_queued (s : State) : Prop :=
  ∀ task, task ∈ getNextRunnableTasks s →
    ∃ i, at_position s i task ∧
      ∀ j other, (j < i)%nat → at_position s j other →
        status other = queued → folderPath other ≠ folderPath task.

(** The same among the tasks that may start. *)
Definition selects_earliest_startable (s : State) : Prop :=
  ∀ task, task ∈ getNextRunnableTasks s →
    status task = queued ∧ canStartTask task s = true ∧
    ∃ i, at_position s i task ∧
      ∀ j other, (j < i)%nat → at_position s j other →
        status other = queued → folderPath other = folderPath task →
        canStartTask other s = false.

Definition no_queued_holder (s : State) : Prop :=
  ∀ taskId task, tasks s !! taskId = Some task → status task = queued →
    folderLocks s !! folderPath task ≠ Some (id task).

(** The three update objects the executor writes when a task ends: in the
    [catch] block, in [stopTask], and after [proc.exited]. *)
Definition failed_update (now : Z) : TaskUpdates :=
  mkUpdates (Some error) None (Some (-1)) (Some now).
Definition stopped_update (now : Z) : TaskUpdates :=
  mkUpdates (Some error) None (Some (-9)) (Some now).
Definition exited_update (code now : Z) : TaskUpdates :=
  mkUpdates (Some (if code =? 0 then completed else error)) None (Some code) (Some now).

(** The state in which [executeTask] calls [buildCommand]: lock taken,
    task moved to [running]. *)
Definition running_update (now : Z) : TaskUpdates :=
  mkUpdates (Some running) (Some now) None None.

Definition started (task : Task) (now : Z) (s : State) : State :=
  (updateTask (id task) (running_update now)
     (set_folderLocks (<[folderPath task := id task]> (folderLocks s)) s)).2.

(** ** Concrete scenarios *)

Definition always_spawns : string -> SpawnResult := λ _, SpawnOk.

(** Two tasks for the folder [/p], both queued. *)
Definition two_queued : State :=
  apply_event (ECreate "b" 2 "/p" "codex" "y")
    (apply_event (ECreate "a" 1 "/p/" "claude" "x") init).

(** A scheduler pass has started the first of them. *)
Definition first_running : State :=
  apply_event (ESchedule always_spawns 3) two_queued.

(** The user stops it ... *)
Definition first_stopped : State :=
  apply_event (EStop "a" 4) first_running.

(** ... and then the suspended [executeTask] call sees the process exit
    with code 0. *)
Definition stopped_then_exited : State :=
  apply_event (EExit 0 0 5) first_stopped.

(** A task whose agent is neither of the two known ones. *)
Definition unknown_agent_task : Task :=
  mkTask "g" "/p" "gemini" "x" None queued [] None 1 None None.

Definition unknown_agent_queued : State :=
  apply_event (ECreate "g" 1 "/p" "gemini" "x") init.

(** A state in which the lock of [/p] names a task that is still queued,
    behind another queued task of the same folder. *)
Definition queued_a : Task := mkTask "a" "/p" "claude" "x" None queued [] None 1 None None.
Definition queued_b : Task := mkTask "b" "/p" "claude" "y" None queued [] None 2 None None.

Definition lock_names_queued : State :=
  mkState {[ "a" := queued_a; "b" := queued_b ]} ["a"; "b"] {[ "/p" := "b" ]} ∅ [].

(** ** The errors a pass logs

    [runScheduler] attaches [.catch(err => console.error(...))] to every
    [executeTask] call: the message of each rejected call is logged, in
    the order of the calls. *)
Definition rejection (outcome : Outcome) : list string :=
  match outcome with
  | Rejected message => [message]
  | _ => []
  end.

Fixpoint dispatch_errors (spawn : string -> SpawnResult) (now : Z)
    (selected : list Task) (s : State) : list string :=
  match selected with
  | [] => []
  | task :: rest =>
      let '(outcome, s') := executeTask task (spawn (id task)) now s in
      rejection outcome ++ dispatch_errors spawn now rest s'
  end.

Definition runScheduler_errors (spawn : string -> SpawnResult) (now : Z)
    (s : State) : list string :=
  dispatch_errors spawn now (getNextRunnableTasks s) s.

(** ** Further properties under study *)

(** [k] slashes. *)
Fixpoint slashes (k : nat) : string :=
  match k with
  | O => ""
  | S k' => String "/"%char (slashes k')
  end.

(** A later version of the same task: what is fixed at creation is the
    same, and the log has only grown at its end. *)
Definition evolves (task task' : Task) : Prop :=
  id task' = id task ∧ folderPath task' = folderPath task
  ∧ agent task' = agent task ∧ prompt task' = prompt task
  ∧ originalPrompt task' = originalPrompt task
  ∧ createdAt task' = createdAt task
  ∧ terminalOutput task `prefix_of` terminalOutput task'.

(** How the optional fields of a task go with its status. *)
Definition lifecycle_ok (task : Task) : Prop :=
  match status task with
  | queued =>
      startedAt task = None ∧ exitCode task = None ∧ completedAt task = None
      ∧ terminalOutput task = []
  | running =>
      is_Some (startedAt task) ∧ exitCode task = None ∧ completedAt task = None
  | completed =>
      is_Some (startedAt task) ∧ exitCode task = Some 0
      ∧ is_Some (completedAt task)
  | error =>
      is_Some (startedAt task) ∧ is_Some (completedAt task)
      ∧ ∃ code, exitCode task = Some code ∧ code ≠ 0
  end.

Definition lifecycle_inv (s : State) : Prop :=
  ∀ taskId task, tasks s !! taskId = Some task → lifecycle_ok task.

(** Every entry of [runningProcesses] belongs to a suspended call and is
    the process that [buildCommand] resolves for the captured task. *)
Definition process_inv (s : State) : Prop :=
  ∀ taskId proc, runningProcesses s !! taskId = Some proc →
    ∃ captured, captured ∈ awaiting s ∧ id captured = taskId
                ∧ buildCommand captured = inr proc.

(** How one step may change a registered task: not at all; a start
    ([executeTask] up to [buildCommand]); a start whose spawn failed (the
    [catch] block ran in the same turn); a cancellation; lines pushed by a
    stream; the exit of the process. *)
Inductive task_change (t : Task) : Task -> Prop :=
  | change_none : task_change t t
  | change_start now :
      status t = queued → task_change t (assign t (running_update now))
  | change_start_failed now message caughtAt :
      status t = queued →
      task_change t (assign (with_output ["[error] " +:+ message]
                               (assign t (running_update now)))
                       (failed_update caughtAt))
  | change_stop now :
      status t = running →
      task_change t (with_output ["[system] Task stopped by user"]
                       (assign t (stopped_update now)))
  | change_output lines :
      status t ≠ queued → task_change t (with_output lines t)
  | change_exit code now :
      status t ≠ queued → task_change t (assign t (exited_update code now)).

(** The task object a suspended call captured and the registered task of
    that identifier are versions of one task. *)
Definition awaiting_inv (s : State) : Prop :=
  ∀ captured task, captured ∈ awaiting s → tasks s !! id captured = Some task →
    evolves captured task.

(** The statuses a task may go through: it starts [queued], is started
    once, and ends; an ended task can only be given another ending. *)
Definition status_step (st st' : TaskStatus) : Prop :=
  match st, st' with
  | queued, completed => False
  | running, queued | completed, queued | error, queued => False
  | completed, running | error, running => False
  | _, _ => True
  end.

(** The message [buildCommand] throws for a task, if it throws. *)
Definition buildCommand_error (task : Task) : option string :=
  match buildCommand task with
  | inl message => Some message
  | inr _ => None
  end.

(** ** Notifying the clients ([src/server/websocket.ts], [src/main.ts])

    The messages of [WSMessage] in [src/types.ts].  The payload of
    [detection_result] plays no part in what follows and is left out. *)
Inductive WSMessage :=
  | detection_result
  | task_added (task : Task)
  | task_updated (task : Task)
  | task_output (taskId output : string)
  | task_completed (taskId : string) (code : Z)
  | task_removed (taskId : string)
  | queue_reordered (taskIds : list string)
  | prompt_enhanced (original enhanced : string)
  | error_message (message : string).

(** The [clients] set of [websocket.ts].  A JavaScript [Set] iterates in
    insertion order and holds an element once; it is the list of the
    connections in that order.  A connection is named by the identifier
    in its [data]. *)
Definition addClient (ws : string) (clients : list string) : list string :=
  if bool_decide (ws ∈ clients) then clients else clients ++ [ws].

Definition removeClient (ws : string) (clients : list string) : list string :=
  filter (λ client, client ≠ ws) clients.

(** [broadcast]: one [send] per client, in the order of the set.  A
    delivery is the connection and the message; [JSON.stringify] on the
    server and [JSON.parse] in the browser give the message back. *)
Definition broadcast (message : WSMessage) (clients : list string)
    : list (string * WSMessage) :=
  (λ client, (client, message)) <$> clients.

Definition sendTo (ws : string) (message : WSMessage) : list (string * WSMessage) :=
  [(ws, message)].

(** Everything sent while the server broadcasts [messages] one after the
    other, and what of it arrives at one connection. *)
Definition broadcast_all (messages : list WSMessage) (clients : list string)
    : list (string * WSMessage) :=
  mjoin ((λ message, broadcast message clients) <$> messages).

Definition inbox (ws : string) (sent : list (string * WSMessage)) : list WSMessage :=
  snd <$> filter (λ delivery, delivery.1 = ws) sent.

(** [broadcastTaskUpdated] guarded by [if (task)], as [main.ts] calls it
    after [queue.getTask]. *)
Definition updated_message (taskId : string) (s : State) : list WSMessage :=
  match getTask taskId s with
  | Some task => [task_updated task]
  | None => []
  end.

(** What the callbacks that [runScheduler] passes to [executeTask]
    broadcast before the call returns: nothing, unless the [catch] block
    ran, which reports the error line and completion with [-1], and then
    the task as it is registered. *)
Definition executeTask_broadcasts (task : Task) (spawn : SpawnResult) (now : Z)
    (s : State) : list WSMessage :=
  match executeTask task spawn now s, spawn with
  | (Settled, s'), SpawnError message _ =>
      [task_output (id task) ("[error] " +:+ message); task_completed (id task) (-1)]
      ++ updated_message (id task) s'
  | _, _ => []
  end.

(** The loop of [runScheduler]: after each [executeTask] call the task is
    read back and broadcast. *)
Fixpoint dispatch_broadcasts (spawn : string -> SpawnResult) (now : Z)
    (selected : list Task) (s : State) : list WSMessage :=
  match selected with
  | [] => []
  | task :: rest =>
      let s' := (executeTask task (spawn (id task)) now s).2 in
      executeTask_broadcasts task (spawn (id task)) now s
      ++ updated_message (id task) s'
      ++ dispatch_broadcasts spawn now rest s'
  end.

(** What the server broadcasts in one step.  The handler of
    [create_task] also calls [runScheduler]; that pass is the step
    [ESchedule] that follows. *)
Definition broadcasts (e : Event) (s : State) : list WSMessage :=
  match e with
  | ECreate newId now folder ag pr =>
      [task_added (createTask newId now folder ag pr None s).1]
  | EReorder taskId direction =>
      let '(moved, s') := reorderTask taskId direction s in
      if moved then [queue_reordered (getTaskOrder s')] else []
  | ERemove taskId =>
      if (removeTask taskId s).1 then [task_removed taskId] else []
  | EStop taskId now =>
      let '(stopped, s') := stopTask taskId now s in
      if stopped then updated_message taskId s' else []
  | ESchedule spawn now =>
      dispatch_broadcasts spawn now (getNextRunnableTasks s) s
  | EOutput k lines =>
      match awaiting s !! k with
      | Some captured => task_output (id captured) <$> lines
      | None => []
      end
  | EExit k code now =>
      match awaiting s !! k with
      | Some captured =>
          task_completed (id captured) code
          :: updated_message (id captured) (apply_event (EExit k code now) s)
      | None => []
      end
  end.

(** ** The browser's copy ([src/frontend/app.js]) *)

Module Frontend.

(** The two variables of the page that [handleMessage] keeps for the
    task list. *)
Record Page := mkPage {
  tasks : gmap string Task;
  taskOrder : list string
}.

Definition initial : Page := mkPage ∅ [].

Definition handleMessage (msg : WSMessage) (page : Page) : Page :=
  match msg with
  | task_added task =>
      mkPage (<[id task := task]> (tasks page)) (taskOrder page ++ [id task])
  | task_updated task =>
      mkPage (<[id task := task]> (tasks page)) (taskOrder page)
  | task_output taskId output =>
      match tasks page !! taskId with
      | Some task =>
          mkPage (<[taskId := with_output [output] task]> (tasks page)) (taskOrder page)
      | None => page
      end
  | task_removed taskId =>
      mkPage (delete taskId (tasks page))
              (filter (λ i, i ≠ taskId) (taskOrder page))
  | queue_reordered taskIds => mkPage (tasks page) taskIds
  | _ => page
  end.

(** The messages of an inbox handled in the order of arrival. *)
Definition receive (messages : list WSMessage) (page : Page) : Page :=
  foldl (λ page msg, handleMessage msg page) page messages.

End Frontend.

(** The page shows what the server holds. *)
Definition mirrors (page : Frontend.Page) (s : State) : Prop :=
  Frontend.tasks page = tasks s ∧ Frontend.taskOrder page = taskOrder s.

(** Registered under their own identifier. *)
Definition keys_ok (s : State) : Prop :=
  ∀ taskId task, tasks s !! taskId = Some task → id task = taskId.

(** The page differs from the server at one task at most, which both
    have or both lack. *)
Definition mirrors_except (taskId : string) (page : Frontend.Page) (s : State) : Prop :=
  Frontend.taskOrder page = taskOrder s
  ∧ (∀ other, other ≠ taskId → Frontend.tasks page !! other = tasks s !! other)
  ∧ (is_Some (Frontend.tasks page !! taskId) ↔ is_Some (tasks s !! taskId)).

(** A run of the server from a state, with a page that receives every
    broadcast. *)
Fixpoint session (events : list Event) (s : State) (page : Frontend.Page)
    : State * Frontend.Page :=
  match events with
  | [] => (s, page)
  | e :: rest =>
      session rest (apply_event e s) (Frontend.receive (broadcasts e s) page)
  end.

Fixpoint session_enabled (events : list Event) (s : State) : Prop :=
  match events with
  | [] => True
  | e :: rest => enabled s e ∧ session_enabled rest (apply_event e s)
  end.

(** A registered running task whose command resolves has its process. *)
Definition running_has_process (s : State) : Prop :=
  ∀ taskId task proc, tasks s !! taskId = Some task → status task = running →
    buildCommand task = inr proc → is_Some (runningProcesses s !! taskId).

(** ** The controls of a task card ([renderTasks] in [src/frontend/app.js])

    The card of the task at position [index] of the page's order list:
    the arrows carry [disabled] at the two ends of the list, and the last
    button is [Stop] for a running task and the remove cross otherwise. *)
Definition up_disabled (index : nat) : bool := bool_decide (index = 0%nat).

Definition down_disabled (index : nat) (page : Frontend.Page) : bool :=
  bool_decide (Z.of_nat index = Z.of_nat (length (Frontend.taskOrder page)) - 1).

Definition offers_stop (task : Task) : bool := bool_decide (status task = running).

(** The card is drawn: the position holds an identifier the page has a
    task for. *)
Definition card_at (page : Frontend.Page) (index : nat) (task : Task) : Prop :=
  ∃ taskId, Frontend.taskOrder page !! index = Some taskId
            ∧ Frontend.tasks page !! taskId = Some task.

(** ** The two streams of a process, further definitions *)

(** The scalar values: the code points that are not surrogates. *)
Definition is_scalar (cp : Z) : Prop :=
  0 ≤ cp ≤ 0x10FFFF ∧ ¬ (0xD800 ≤ cp ≤ 0xDFFF).

(** Bytes that are whole characters: the UTF-8 form of scalar values,
    none of them the byte order mark. *)
Definition whole_characters (value : string) : Prop :=
  ∃ scalars, value = utf8_text scalars ∧ Forall is_scalar scalars
             ∧ 0xFEFF ∉ scalars.

(** The chunks one stream delivers in a run of reads, and the lines one
    stream pushed. *)
Definition chunks_from (from : Stream) (reads : list Read) : list string :=
  omap (λ e, match e with
             | Chunk origin value => if decide (origin = from) then Some value else None
             | Finish _ _ => None
             end) reads.

Definition pushed_by (from : Stream) (pushed : list (Stream * string)) : list string :=
  snd <$> filter (λ entry, entry.1 = from) pushed.

Definition still_reading (from : Stream) (reads : list Read) : Prop :=
  ∀ ending, Finish from ending ∉ reads.

(** The standard output of a process writes "é" and a newline, and the
    reader delivers the two bytes of the "é" in two chunks; the standard
    error writes "x" and a newline.  In the first run the chunk of the
    standard error arrives between the two, in the second before them. *)
Definition split_and_interleaved : list Read :=
  [Chunk stdout (bytes [0xC3]); Chunk stderr (bytes [0x78; 0x0A]);
   Chunk stdout (bytes [0xA9; 0x0A]); Finish stdout Closed; Finish stderr Closed].

Definition split_not_interleaved : list Read :=
  [Chunk stderr (bytes [0x78; 0x0A]); Chunk stdout (bytes [0xC3]);
   Chunk stdout (bytes [0xA9; 0x0A]); Finish stdout Closed; Finish stderr Closed].

(** * Proofs *)

(** ** Reading the state after the elementary operations *)

Section state_projections.
Implicit Types (s : State) (task : Task).

Lemma releaseFolderLock_tasks task s :
  tasks (releaseFolderLock task s) = tasks s.
Proof. unfold releaseFolderLock. by case_bool_decide. Qed.

Lemma releaseFolderLock_processes task s :
  runningProcesses (releaseFolderLock task s) = runningProcesses s.
Proof. unfold releaseFolderLock. by case_bool_decide. Qed.

Lemma releaseFolderLock_awaiting task s :
  awaiting (releaseFolderLock task s) = awaiting s.
Proof. unfold releaseFolderLock. by case_bool_decide. Qed.

Lemma releaseFolderLock_order task s :
  taskOrder (releaseFolderLock task s) = taskOrder s.
Proof. unfold releaseFolderLock. by case_bool_decide. Qed.

Lemma releaseFolderLock_held task s :
  folderLocks s !! folderPath task = Some (id task) →
  folderLocks (releaseFolderLock task s) = delete (folderPath task) (folderLocks s).
Proof. intros H. unfold releaseFolderLock. by rewrite bool_decide_eq_true_2. Qed.

Lemma releaseFolderLock_stale task s :
  folderLocks s !! folderPath task ≠ Some (id task) →
  releaseFolderLock task s = s.
Proof. intros H. unfold releaseFolderLock. by rewrite bool_decide_eq_false_2. Qed.

(** After a release no entry for the folder names the task. *)
Lemma releaseFolderLock_lookup task s folder :
  folderLocks (releaseFolderLock task s) !! folder =
    if bool_decide (folder = folderPath task
                    ∧ folderLocks s !! folder = Some (id task))
    then None else folderLocks s !! folder.
Proof.
  unfold releaseFolderLock. case_bool_decide as Hheld; simpl.
  - case_bool_decide as Hc.
    + destruct Hc as [-> _]. apply lookup_delete_eq.
    + rewrite lookup_delete_ne; [done|]. intros <-. by apply Hc.
  - case_bool_decide as Hc; [|done]. destruct Hc as [-> Hc]. by destruct Hheld.
Qed.

Lemma updateTask_locks taskId u s :
  folderLocks (updateTask taskId u s).2 = folderLocks s.
Proof. unfold updateTask. by destruct (tasks s !! taskId). Qed.

Lemma updateTask_processes taskId u s :
  runningProcesses (updateTask taskId u s).2 = runningProcesses s.
Proof. unfold updateTask. by destruct (tasks s !! taskId). Qed.

Lemma updateTask_awaiting taskId u s :
  awaiting (updateTask taskId u s).2 = awaiting s.
Proof. unfold updateTask. by destruct (tasks s !! taskId). Qed.

Lemma updateTask_order taskId u s :
  taskOrder (updateTask taskId u s).2 = taskOrder s.
Proof. unfold updateTask. by destruct (tasks s !! taskId). Qed.

Lemma updateTask_lookup taskId u s other :
  tasks (updateTask taskId u s).2 !! other =
    if bool_decide (other = taskId)
    then (λ task, assign task u) <$> tasks s !! taskId
    else tasks s !! other.
Proof.
  unfold updateTask. case_bool_decide as Hc.
  - subst other. destruct (tasks s !! taskId) eqn:E; simpl.
    + by rewrite lookup_insert_eq.
    + by rewrite E.
  - destruct (tasks s !! taskId); simpl; [|done].
    by rewrite lookup_insert_ne.
Qed.

Lemma pushOutput_locks taskId lines s :
  folderLocks (pushOutput taskId lines s) = folderLocks s.
Proof. unfold pushOutput. by destruct (tasks s !! taskId). Qed.

Lemma pushOutput_processes taskId lines s :
  runningProcesses (pushOutput taskId lines s) = runningProcesses s.
Proof. unfold pushOutput. by destruct (tasks s !! taskId). Qed.

Lemma pushOutput_awaiting taskId lines s :
  awaiting (pushOutput taskId lines s) = awaiting s.
Proof. unfold pushOutput. by destruct (tasks s !! taskId). Qed.

Lemma pushOutput_order taskId lines s :
  taskOrder (pushOutput taskId lines s) = taskOrder s.
Proof. unfold pushOutput. by destruct (tasks s !! taskId). Qed.

Lemma pushOutput_lookup taskId lines s other :
  tasks (pushOutput taskId lines s) !! other =
    if bool_decide (other = taskId)
    then with_output lines <$> tasks s !! taskId
    else tasks s !! other.
Proof.
  unfold pushOutput. case_bool_decide as Hc.
  - subst other. destruct (tasks s !! taskId) eqn:E; simpl.
    + by rewrite lookup_insert_eq.
    + by rewrite E.
  - destruct (tasks s !! taskId); simpl; [|done].
    by rewrite lookup_insert_ne.
Qed.
End state_projections.

(** ** The lock table *)

(** C8.  Releasing a lock that the task does not hold (no entry for its
    folder, or an entry naming another task) changes nothing at all; the
    entry is removed exactly when the task is the current holder, and then
    only that entry goes. *)
Theorem releaseFolderLock_only_by_holder (task : Task) (s : State) :
  (folderLocks s !! folderPath task = None
   ∨ (∃ holder, folderLocks s !! folderPath task = Some holder ∧ holder ≠ id task)
   → releaseFolderLock task s = s)
  ∧ (folderLocks s !! folderPath task = Some (id task) →
     releaseFolderLock task s
     = set_folderLocks (delete (folderPath task) (folderLocks s)) s)
  ∧ (folderLocks (releaseFolderLock task s) ≠ folderLocks s →
     folderLocks s !! folderPath task = Some (id task))
  ∧ (∀ folder, folder ≠ folderPath task →
     folderLocks (releaseFolderLock task s) !! folder = folderLocks s !! folder)
  ∧ tasks (releaseFolderLock task s) = tasks s
  ∧ taskOrder (releaseFolderLock task s) = taskOrder s
  ∧ runningProcesses (releaseFolderLock task s) = runningProcesses s.
Proof.
  split_and!.
  - intros [Hnone | (holder & Hsome & Hne)]; apply releaseFolderLock_stale; congruence.
  - intros Hheld. unfold releaseFolderLock. by rewrite bool_decide_eq_true_2.
  - intros Hchg. destruct (decide (folderLocks s !! folderPath task = Some (id task)))
      as [|Hstale]; [done|].
    by rewrite releaseFolderLock_stale in Hchg.
  - intros folder Hne. rewrite releaseFolderLock_lookup.
    rewrite bool_decide_eq_false_2; [done|]. by intros [? _].
  - apply releaseFolderLock_tasks.
  - apply releaseFolderLock_order.
  - apply releaseFolderLock_processes.
Qed.

Lemma releaseFolderLock_only_by_holder_witness :
  releaseFolderLock queued_a lock_names_queued = lock_names_queued
  ∧ folderLocks (releaseFolderLock queued_b lock_names_queued) !! "/p" = None.
Proof.
  destruct (releaseFolderLock_only_by_holder queued_a lock_names_queued)
    as (Hstale & _).
  destruct (releaseFolderLock_only_by_holder queued_b lock_names_queued)
    as (_ & Hheld & _).
  split.
  - apply Hstale. right. exists "b". split; [reflexivity | discriminate].
  - rewrite Hheld by reflexivity. reflexivity.
Defined.

(** ** Cancellation *)

Lemma stopTask_idle (taskId : string) (now : Z) (s : State) :
  runningProcesses s !! taskId = None → stopTask taskId now s = (false, s).
Proof. intros Hnone. unfold stopTask. by rewrite Hnone. Qed.

(** C7.  [stopTask] on an identifier without an entry in
    [runningProcesses] answers [false] and returns the state it was given:
    the registry with every field of every task, the order, the locks and
    the process map are as before. *)
Theorem stopTask_without_process (taskId : string) (now : Z) (s : State) :
  runningProcesses s !! taskId = None →
  isTaskRunning taskId s = false
  ∧ stopTask taskId now s = (false, s)
  ∧ (∀ other, tasks (stopTask taskId now s).2 !! other = tasks s !! other)
  ∧ taskOrder (stopTask taskId now s).2 = taskOrder s
  ∧ folderLocks (stopTask taskId now s).2 = folderLocks s
  ∧ runningProcesses (stopTask taskId now s).2 = runningProcesses s
  ∧ awaiting (stopTask taskId now s).2 = awaiting s.
Proof.
  intros Hnone. split.
  - unfold isTaskRunning. rewrite Hnone. apply bool_decide_eq_false_2.
    by intros [? ?].
  - unfold stopTask. rewrite Hnone. done.
Qed.

Lemma stopTask_without_process_witness :
  runningProcesses two_queued !! "a" = None
  ∧ stopTask "a" 9 two_queued = (false, two_queued).
Proof.
  split; [reflexivity|].
  destruct (stopTask_without_process "a" 9 two_queued) as (_ & Hstop & _);
    [reflexivity | exact Hstop].
Defined.

(** ** The order list *)

(** Decide the integer comparisons of the index arithmetic. *)
Ltac Zcompare :=
  repeat match goal with
    | |- context [(?a =? ?b)%Z] => destruct (Z.eqb_spec a b); try lia
    | |- context [(?a <? ?b)%Z] => destruct (Z.ltb_spec a b); try lia
    | |- context [(?a >? ?b)%Z] => rewrite (Z.gtb_ltb a b)
    | |- context [(?a >=? ?b)%Z] => rewrite (Z.geb_leb a b)
    | |- context [(?a <=? ?b)%Z] => destruct (Z.leb_spec a b); try lia
    end; simpl.

Lemma indexOf_spec (x : string) (l : list string) :
  (indexOf x l = -1 ∧ x ∉ l)
  ∨ ∃ i : nat, indexOf x l = Z.of_nat i ∧ l !! i = Some x
               ∧ ∀ j : nat, (j < i)%nat → l !! j ≠ Some x.
Proof.
  induction l as [|y l IH]; simpl.
  - left. split; [done|]. apply not_elem_of_nil.
  - case_bool_decide as Hy.
    + right. exists 0%nat. subst y. split_and!; [done|done|]. lia.
    + destruct IH as [[-> Hnot] | (i & -> & Hi & Hfirst)].
      * left. simpl. split; [done|].
        intros [?|?]%elem_of_cons; [congruence | done].
      * right. exists (S i). Zcompare.
        split_and!; [lia|done|].
        intros [|j] Hj; simpl; [congruence|]. apply Hfirst. lia.
Qed.

Lemma indexOf_absent (x : string) (l : list string) :
  indexOf x l = -1 ↔ x ∉ l.
Proof.
  destruct (indexOf_spec x l) as [[? ?] | (i & Hi & Hl & _)]; [done|].
  split; [lia|]. intros Hnot. destruct Hnot. by eapply list_elem_of_lookup_2.
Qed.

(** With distinct identifiers the position found by [indexOf] is the
    position of the identifier. *)
Lemma indexOf_NoDup (x : string) (l : list string) (i : nat) :
  NoDup l → l !! i = Some x → indexOf x l = Z.of_nat i.
Proof.
  intros Hnd Hi.
  destruct (indexOf_spec x l) as [[_ Hnot] | (k & -> & Hk & _)].
  - destruct Hnot. by eapply list_elem_of_lookup_2.
  - f_equal. eapply NoDup_lookup; eauto.
Qed.

Lemma swap_spec (i j : nat) (l : list string) (xi xj : string) :
  l !! i = Some xi → l !! j = Some xj →
  let l' := swap (Z.of_nat i) (Z.of_nat j) l in
  length l' = length l ∧ l' !! i = Some xj ∧ l' !! j = Some xi
  ∧ ∀ k, k ≠ i → k ≠ j → l' !! k = l !! k.
Proof.
  intros Hi Hj. unfold swap. rewrite !Nat2Z.id, Hi, Hj. simpl.
  pose proof (lookup_lt_Some _ _ _ Hi) as Hli.
  pose proof (lookup_lt_Some _ _ _ Hj) as Hlj.
  split_and!.
  - by rewrite !length_insert.
  - destruct (decide (i = j)) as [->|Hne].
    + rewrite list_lookup_insert_eq; [congruence | by rewrite length_insert].
    + rewrite list_lookup_insert_ne by done. by rewrite list_lookup_insert_eq.
  - rewrite list_lookup_insert_eq; [done | by rewrite length_insert].
  - intros k Hki Hkj. by rewrite !list_lookup_insert_ne.
Qed.

(** C6.  The position of a task is the one [indexOf] finds for its
    identifier: that of the head when the task is the first of the list,
    the last one when it is the last of a list of distinct identifiers.
    An absent identifier, the first position with [up] and the last
    position with [down] answer [false] and return the state unchanged.
    Every other request answers [true], exchanges the task with its
    neighbour in the direction asked, and leaves the length, every other
    position, and the rest of the state as they were. *)
Theorem reorderTask_boundary_and_swap
    (taskId : string) (direction : Direction) (s : State) :
  let index := indexOf taskId (taskOrder s) in
  let n := Z.of_nat (length (taskOrder s)) in
  (taskId ∈ taskOrder s ↔
     0 ≤ index < n ∧ taskOrder s !! Z.to_nat index = Some taskId)
  ∧ (NoDup (taskOrder s) →
     ∀ i : nat, taskOrder s !! i = Some taskId → index = Z.of_nat i)
  ∧ (taskId ∉ taskOrder s → reorderTask taskId direction s = (false, s))
  ∧ (index = 0 → reorderTask taskId up s = (false, s))
  ∧ (index = n - 1 → reorderTask taskId down s = (false, s))
  ∧ (head (taskOrder s) = Some taskId → reorderTask taskId up s = (false, s))
  ∧ (NoDup (taskOrder s) → last (taskOrder s) = Some taskId →
     reorderTask taskId down s = (false, s))
  ∧ (∀ i j : nat,
       index = Z.of_nat i →
       (direction = up ∧ i = S j)
       ∨ (direction = down ∧ j = S i ∧ (j < length (taskOrder s))%nat) →
       ∃ order',
         reorderTask taskId direction s = (true, set_taskOrder order' s)
         ∧ length order' = length (taskOrder s)
         ∧ order' !! j = Some taskId
         ∧ order' !! i = taskOrder s !! j
         ∧ ∀ k, k ≠ i → k ≠ j → order' !! k = taskOrder s !! k).
Proof.
  intros index n. subst index n.
  destruct (indexOf_spec taskId (taskOrder s))
    as [[Habs Hnot] | (p & Hp & Hlook & Hfirst)].
  - (* absent *)
    split_and!.
    + split; [done | lia].
    + intros Hnd i Hi. destruct Hnot. by eapply list_elem_of_lookup_2.
    + intros _. unfold reorderTask. by rewrite Habs.
    + lia.
    + intros _. unfold reorderTask. by rewrite Habs.
    + intros _. unfold reorderTask. by rewrite Habs.
    + intros _ _. unfold reorderTask. by rewrite Habs.
    + intros i j Hi. lia.
  - pose proof (lookup_lt_Some _ _ _ Hlook) as Hlt.
    split_and!.
    + split.
      * intros _. rewrite Hp, Nat2Z.id. split; [lia | done].
      * intros _. by eapply list_elem_of_lookup_2.
    + intros Hnd i Hi. by apply indexOf_NoDup.
    + intros Hnot. destruct Hnot. by eapply list_elem_of_lookup_2.
    + intros H0. unfold reorderTask. rewrite H0. reflexivity.
    + intros Hlast. unfold reorderTask. rewrite Hp in *. by Zcompare.
    + intros Hhead. rewrite head_lookup in Hhead.
      destruct p as [|p]; [|by destruct (Hfirst 0%nat ltac:(lia))].
      unfold reorderTask. rewrite Hp. reflexivity.
    + intros Hnd Hlast. rewrite last_lookup in Hlast.
      pose proof (NoDup_lookup _ _ _ _ Hnd Hlast Hlook) as Hpos.
      unfold reorderTask. rewrite Hp. by Zcompare.
    + intros i j Hi Hdir. assert (i = p) as -> by lia.
      assert (∃ xj, taskOrder s !! j = Some xj) as [xj Hj].
      { apply lookup_lt_is_Some. destruct Hdir as [[_ ->] | (_ & -> & ?)]; lia. }
      destruct (swap_spec p j (taskOrder s) taskId xj Hlook Hj)
        as (Hlen & Hsi & Hsj & Hother).
      exists (swap (Z.of_nat p) (Z.of_nat j) (taskOrder s)).
      split_and!; [|done|done|congruence|done].
      unfold reorderTask. rewrite Hp.
      destruct Hdir as [[-> ->] | (-> & -> & Hjlt)].
      * replace (Z.of_nat (S j) - 1) with (Z.of_nat j) by lia. by Zcompare.
      * replace (Z.of_nat p + 1) with (Z.of_nat (S p)) by lia. by Zcompare.
Qed.

Lemma reorderTask_boundary_and_swap_witness :
  reorderTask "a" up two_queued = (false, two_queued)
  ∧ reorderTask "b" down two_queued = (false, two_queued)
  ∧ reorderTask "z" up two_queued = (false, two_queued)
  ∧ ∃ order', reorderTask "b" up two_queued = (true, set_taskOrder order' two_queued)
              ∧ order' !! 0%nat = Some "b" ∧ order' !! 1%nat = Some "a".
Proof.
  destruct (reorderTask_boundary_and_swap "a" up two_queued)
    as (_ & _ & _ & Hfirst & _).
  destruct (reorderTask_boundary_and_swap "b" down two_queued)
    as (_ & _ & _ & _ & Hlast & _).
  destruct (reorderTask_boundary_and_swap "z" up two_queued)
    as (_ & _ & Habsent & _).
  destruct (reorderTask_boundary_and_swap "b" up two_queued)
    as (_ & _ & _ & _ & _ & _ & _ & Hswap).
  split_and!.
  - apply Hfirst. reflexivity.
  - apply Hlast. reflexivity.
  - apply Habsent. compute_done.
  - destruct (Hswap 1%nat 0%nat) as (order' & Hr & _ & Hj & Hi & _);
      [reflexivity | by left |].
    exists order'. split_and!; [exact Hr | exact Hj | exact Hi].
Defined.

Lemma NoDup_delete_indexOf (x : string) (l : list string) :
  NoDup l → x ∈ l → x ∉ delete (Z.to_nat (indexOf x l)) l.
Proof.
  intros Hnd Hin.
  destruct (indexOf_spec x l) as [[_ Hnot] | (i & -> & Hi & _)]; [done|].
  rewrite Nat2Z.id. intros (k & Hk)%list_elem_of_lookup_1.
  destruct (decide (k < i)%nat) as [Hlt|Hge].
  - rewrite list_lookup_delete_lt in Hk by done.
    pose proof (NoDup_lookup _ _ _ _ Hnd Hk Hi). lia.
  - rewrite list_lookup_delete_ge in Hk by lia.
    pose proof (NoDup_lookup _ _ _ _ Hnd Hk Hi). lia.
Qed.

Lemma elem_of_delete_indexOf (x y : string) (l : list string) :
  y ≠ x → 0 ≤ indexOf x l → (y ∈ delete (Z.to_nat (indexOf x l)) l ↔ y ∈ l).
Proof.
  intros Hne Hidx.
  destruct (indexOf_spec x l) as [[? _] | (i & -> & Hi & _)]; [lia|].
  rewrite Nat2Z.id.
  rewrite <- (take_drop_middle l i x Hi) at 2.
  rewrite delete_take_drop. rewrite !elem_of_app, elem_of_cons.
  split; [tauto | intros [?|[?|?]]; [tauto | done | tauto]].
Qed.

(** ** What the three ways of finishing a task write into the registry *)

Lemma executeTask_catch_lookup task message now s other :
  tasks (executeTask_catch task message now s) !! other =
    if bool_decide (other = id task)
    then (λ t, assign (with_output ["[error] " +:+ message] t) (failed_update now))
           <$> tasks s !! id task
    else tasks s !! other.
Proof.
  unfold executeTask_catch. rewrite updateTask_lookup, !pushOutput_lookup.
  rewrite releaseFolderLock_tasks. simpl.
  case_bool_decide; [|done]. rewrite bool_decide_eq_true_2 by done.
  by destruct (tasks s !! id task).
Qed.

Lemma executeTask_resume_lookup task code now s other :
  tasks (executeTask_resume task code now s) !! other =
    if bool_decide (other = id task)
    then (λ t, assign t (exited_update code now)) <$> tasks s !! id task
    else tasks s !! other.
Proof.
  unfold executeTask_resume. rewrite updateTask_lookup.
  by rewrite releaseFolderLock_tasks.
Qed.

Lemma stopTask_lookup taskId now s proc other :
  runningProcesses s !! taskId = Some proc →
  tasks (stopTask taskId now s).2 !! other =
    if bool_decide (other = taskId)
    then (λ t, with_output ["[system] Task stopped by user"]
                 (assign t (stopped_update now))) <$> tasks s !! taskId
    else tasks s !! other.
Proof.
  intros Hproc. unfold stopTask, getTask. rewrite Hproc. simpl.
  destruct (tasks s !! taskId) as [task|] eqn:Htask; simpl.
  - rewrite pushOutput_lookup, !updateTask_lookup, releaseFolderLock_tasks. simpl.
    case_bool_decide; [|done]. rewrite bool_decide_eq_true_2 by done.
    by rewrite Htask.
  - case_bool_decide; [|done]. by subst.
Qed.

(** C10.  The handler of a failed spawn records exit code [-1], the
    cancellation records [-9]; both are negative and they differ, and an
    exit code reported by a process (never negative) is recorded as it is,
    so it differs from both. *)
Theorem sentinel_exit_codes :
  (∀ task message caughtAt now s registered proc,
     tasks s !! id task = Some registered →
     canStartTask task s = true →
     buildCommand task = inr proc →
     ∃ s' finished,
       executeTask task (SpawnError message caughtAt) now s = (Settled, s')
       ∧ tasks s' !! id task = Some finished
       ∧ status finished = error ∧ exitCode finished = Some (-1))
  ∧ (∀ taskId now s proc registered,
     runningProcesses s !! taskId = Some proc →
     tasks s !! taskId = Some registered →
     ∃ s' finished,
       stopTask taskId now s = (true, s')
       ∧ tasks s' !! taskId = Some finished
       ∧ status finished = error ∧ exitCode finished = Some (-9))
  ∧ (∀ task code now s registered,
     0 ≤ code →
     tasks s !! id task = Some registered →
     ∃ finished,
       tasks (executeTask_resume task code now s) !! id task = Some finished
       ∧ exitCode finished = Some code
       ∧ exitCode finished ≠ Some (-1) ∧ exitCode finished ≠ Some (-9))
  ∧ -1 < 0 ∧ -9 < 0 ∧ -1 ≠ -9.
Proof.
  split_and!; try lia.
  - intros task message caughtAt now s registered proc Hreg Hcan Hcmd.
    unfold executeTask, acquireFolderLock. rewrite Hcan. simpl. rewrite Hcmd.
    eexists _, _. split; [reflexivity|].
    rewrite executeTask_catch_lookup, bool_decide_eq_true_2 by done.
    rewrite updateTask_lookup, bool_decide_eq_true_2 by done. simpl.
    rewrite Hreg. simpl. done.
  - intros taskId now s proc registered Hproc Hreg.
    exists (stopTask taskId now s).2. eexists. split_and!.
    + unfold stopTask, getTask. rewrite Hproc. simpl. by rewrite Hreg.
    + rewrite (stopTask_lookup _ _ _ proc) by done.
      rewrite bool_decide_eq_true_2 by done. by rewrite Hreg.
    + done.
    + done.
  - intros task code now s registered Hcode Hreg. eexists. split_and!.
    + rewrite executeTask_resume_lookup, bool_decide_eq_true_2 by done.
      by rewrite Hreg.
    + done.
    + simpl. intros [=]. lia.
    + simpl. intros [=]. lia.
Qed.

Lemma sentinel_exit_codes_witness :
  (∃ s' finished,
     executeTask queued_a (SpawnError "ENOENT" 4) 3 two_queued = (Settled, s')
     ∧ tasks s' !! "a" = Some finished
     ∧ status finished = error ∧ exitCode finished = Some (-1))
  ∧ (∃ s' finished,
     stopTask "a" 4 first_running = (true, s')
     ∧ tasks s' !! "a" = Some finished
     ∧ status finished = error ∧ exitCode finished = Some (-9)).
Proof.
  destruct sentinel_exit_codes as (Hfail & Hstop & _).
  split.
  - exact (Hfail queued_a "ENOENT" 4 3 two_queued queued_a
             (mkProcess ["claude"; "-p"; "x"] (InFolder "/p"))
             eq_refl eq_refl eq_refl).
  - exact (Hstop "a" 4 first_running
             (mkProcess ["claude"; "-p"; "x"] (InFolder "/p"))
             (mkTask "a" "/p" "claude" "x" None running [] None 1 (Some 3) None)
             eq_refl eq_refl).
Defined.

(** ** Draining a stream *)

Lemma string_app_cons (c : ascii) (a b : string) :
  String c a +:+ b = String c (a +:+ b).
Proof. reflexivity. Qed.

Lemma string_app_assoc (a b c : string) : (a +:+ b) +:+ c = a +:+ (b +:+ c).
Proof.
  induction a as [|x a IH]; [done|]. rewrite !string_app_cons. by f_equal.
Qed.

Lemma string_app_nil_r (a : string) : a +:+ "" = a.
Proof.
  induction a as [|x a IH]; [done|]. rewrite string_app_cons. by f_equal.
Qed.

Lemma split_newline_nonempty (text : string) : split_newline text ≠ [].
Proof.
  destruct text as [|c rest]; simpl; [done|].
  destruct (Ascii.eqb c "010"); [done|]. by destruct (split_newline rest).
Qed.

Lemma split_newline_snoc (text : string) :
  ∃ complete partial, split_newline text = complete ++ [partial].
Proof.
  destruct (split_newline text) as [|seg segs] eqn:E using rev_ind.
  - by destruct (split_newline_nonempty text).
  - by eexists _, _.
Qed.

(** Appending text only continues the last segment. *)
Lemma split_newline_app (a b : string) (complete : list string) (partial : string) :
  split_newline a = complete ++ [partial] →
  split_newline (a +:+ b) = complete ++ split_newline (partial +:+ b).
Proof.
  revert complete partial. induction a as [|c a IH]; intros complete partial.
  - destruct complete as [|? [|? ?]]; simpl; intros [=]; by subst.
  - rewrite string_app_cons. simpl. destruct (Ascii.eqb c "010") eqn:Ec.
    + destruct complete as [|seg complete]; simpl.
      * intros [= Hp Hs]. by destruct (split_newline_nonempty a).
      * intros [= <- Hs]. by rewrite (IH _ _ Hs).
    + destruct (split_newline a) as [|seg segs] eqn:Ea;
        [by destruct (split_newline_nonempty a)|].
      destruct complete as [|seg' complete]; simpl.
      * intros [= <- ->]. rewrite (IH [] seg eq_refl). simpl.
        by rewrite Ec.
      * intros [= <- ->]. rewrite (IH (seg :: complete) partial eq_refl). done.
Qed.

Lemma has_newline_cons (c : ascii) (line : string) :
  has_newline (String c line) ↔ c = "010"%char ∨ has_newline line.
Proof.
  unfold has_newline. simpl. rewrite elem_of_cons. split; intros [?|?]; auto.
Qed.

Lemma split_newline_segments (text : string) :
  Forall (λ segment, ¬ has_newline segment) (split_newline text).
Proof.
  induction text as [|c rest IH]; simpl.
  - constructor; [|constructor]. unfold has_newline. simpl. apply not_elem_of_nil.
  - destruct (Ascii.eqb_spec c "010").
    + constructor; [|done]. unfold has_newline. simpl. apply not_elem_of_nil.
    + destruct (split_newline rest) as [|seg segs] eqn:E;
        [by destruct (split_newline_nonempty rest)|].
      inversion IH as [|? ? Hseg Hsegs]; subst. constructor; [|done].
      rewrite has_newline_cons. tauto.
Qed.

Lemma split_newline_single (line : string) :
  ¬ has_newline line → split_newline line = [line].
Proof.
  induction line as [|c line IH]; [done|].
  rewrite has_newline_cons. intros Hno. simpl.
  destruct (Ascii.eqb_spec c "010"); [tauto|].
  rewrite IH by tauto. done.
Qed.

(** Joining the segments with newlines gives the text back. *)
Lemma split_newline_join (text : string) :
  String.concat newline (split_newline text) = text.
Proof.
  induction text as [|c rest IH]; [done|]. simpl.
  destruct (Ascii.eqb_spec c "010") as [->|Hc].
  - destruct (split_newline rest) as [|seg segs] eqn:E;
      [by destruct (split_newline_nonempty rest)|].
    change (String.concat newline ("" :: seg :: segs))
      with (String "010" (String.concat newline (seg :: segs))).
    by rewrite IH.
  - destruct (split_newline rest) as [|seg segs] eqn:E;
      [by destruct (split_newline_nonempty rest)|].
    destruct segs as [|seg' segs]; simpl in *; by rewrite <- IH.
Qed.

Lemma tagged_empty (lines : list string) : (tagged "" <$> lines) = lines.
Proof.
  induction lines as [|x l IHl]; [done|]. rewrite fmap_cons, IHl. f_equal.
Qed.

(** *** The decoder *)

Lemma byte_value_of (z : Z) : 0 ≤ z < 256 → byte_value (byte_of z) = z.
Proof.
  intros Hz. unfold byte_value, byte_of. rewrite N_ascii_embedding; lia.
Qed.

Lemma byte_value_range (c : ascii) : 0 ≤ byte_value c < 256.
Proof.
  unfold byte_value. pose proof (N_ascii_bounded c). lia.
Qed.

Lemma land_shiftl_low (a r n : Z) :
  0 ≤ n → 0 ≤ r < 2 ^ n → Z.land (Z.shiftl a n) r = 0.
Proof.
  intros Hn Hr. apply Z.bits_inj'. intros i Hi.
  rewrite Z.land_spec, Z.bits_0.
  destruct (decide (i < n)) as [Hlt|Hge].
  - by rewrite Z.shiftl_spec_low.
  - destruct (decide (r = 0)) as [->|Hr0]; [by rewrite Z.bits_0, andb_false_r|].
    rewrite (Z.bits_above_log2 r i), andb_false_r; [done|lia|].
    apply Z.lt_le_trans with n; [|lia].
    apply Z.log2_lt_pow2; lia.
Qed.

Lemma lor_add (a r n : Z) :
  0 ≤ n → 0 ≤ r < 2 ^ n → Z.lor (a * 2 ^ n) r = a * 2 ^ n + r.
Proof.
  intros Hn Hr. rewrite <- Z.shiftl_mul_pow2 by done.
  pose proof (land_shiftl_low a r n Hn Hr) as Hland.
  rewrite <- Z.lxor_lor by done. symmetry. by apply Z.add_nocarry_lxor.
Qed.

Lemma land_ones_63 x : Z.land x 0x3F = x mod 64.
Proof. change 0x3F with (Z.ones 6). by rewrite Z.land_ones. Qed.

Lemma land_ones_31 x : Z.land x 0x1F = x mod 32.
Proof. change 0x1F with (Z.ones 5). by rewrite Z.land_ones. Qed.

Lemma land_ones_15 x : Z.land x 0xF = x mod 16.
Proof. change 0xF with (Z.ones 4). by rewrite Z.land_ones. Qed.

Lemma land_ones_7 x : Z.land x 0x7 = x mod 8.
Proof. change 0x7 with (Z.ones 3). by rewrite Z.land_ones. Qed.

(** A continuation byte of the encoder, and what the decoder makes of
    the six bits it carries. *)
Lemma continuation_byte (x : Z) : Z.lor 0x80 (Z.land x 0x3F) = 128 + x mod 64.
Proof.
  rewrite land_ones_63.
  pose proof (Z.mod_pos_bound x 64 ltac:(lia)).
  change 0x80 with (1 * 2 ^ 7). rewrite lor_add; [done|lia|].
  change (2 ^ 7) with 128. lia.
Qed.

Lemma shift_in (a b : Z) :
  Z.lor (Z.shiftl a 6) (Z.land b 0x3F) = a * 64 + b mod 64.
Proof.
  rewrite land_ones_63, Z.shiftl_mul_pow2 by lia.
  pose proof (Z.mod_pos_bound b 64 ltac:(lia)).
  by rewrite lor_add by (change (2 ^ 6) with 64; lia).
Qed.

Lemma utf8_lead_ascii (b : Z) : b ≤ 0x7F → utf8_lead b = ([b], utf8_idle).
Proof. intros Hb. unfold utf8_lead. by Zcompare. Qed.

Lemma utf8_handler_idle (b : Z) : utf8_handler utf8_idle b = utf8_lead b.
Proof. reflexivity. Qed.

Lemma utf8_handler_continue (d : Utf8Decoder) (b : Z) :
  bytes_needed d ≠ 0 → lower_boundary d ≤ b ≤ upper_boundary d →
  utf8_handler d b =
    if bytes_seen d + 1 =? bytes_needed d
    then ([code_point d * 64 + b mod 64], utf8_idle)
    else ([], mkUtf8 (code_point d * 64 + b mod 64) (bytes_seen d + 1)
                (bytes_needed d) 0x80 0xBF).
Proof.
  intros Hneeded Hb. unfold utf8_handler. rewrite shift_in.
  destruct (Z.eqb_spec (bytes_needed d) 0); [done|].
  destruct (Z.ltb_spec b (lower_boundary d)); [lia|].
  destruct (Z.ltb_spec (upper_boundary d) b); [lia|]. done.
Qed.

Lemma decode_cons (c : ascii) (rest : string) (decoder : TextDecoder) :
  decode (String c rest) decoder =
    let '(out, decoder1) := decode_byte (byte_value c) decoder in
    let '(out', decoder2) := decode rest decoder1 in
    (out +:+ out', decoder2).
Proof. reflexivity. Qed.

Lemma decode_app (a b : string) (decoder : TextDecoder) :
  decode (a +:+ b) decoder =
    let '(out, decoder1) := decode a decoder in
    let '(out', decoder2) := decode b decoder1 in
    (out +:+ out', decoder2).
Proof.
  revert decoder. induction a as [|c a IH]; intros decoder.
  - change ("" +:+ b) with b. change (decode "" decoder) with ("", decoder).
    cbv beta iota.
    destruct (decode b decoder) as [out decoder1]. reflexivity.
  - rewrite string_app_cons, !decode_cons.
    destruct (decode_byte (byte_value c) decoder) as [out1 decoder1].
    rewrite IH. destruct (decode a decoder1) as [out2 decoder2].
    destruct (decode b decoder2) as [out3 decoder3].
    by rewrite string_app_assoc.
Qed.

Lemma decode_text_app (a b : string) (decoder : TextDecoder) :
  (decode (a +:+ b) decoder).1
  = (decode a decoder).1 +:+ (decode b (decode a decoder).2).1
  ∧ (decode (a +:+ b) decoder).2 = (decode b (decode a decoder).2).2.
Proof.
  rewrite decode_app. destruct (decode a decoder) as [out1 decoder1]. simpl.
  by destruct (decode b decoder1).
Qed.

Lemma decode_step_silent (c : ascii) (rest : string) (d d' : Utf8Decoder) (seen : bool) :
  utf8_handler d (byte_value c) = ([], d') →
  decode (String c rest) (mkDecoder d seen) = decode rest (mkDecoder d' seen).
Proof.
  intros Hh. rewrite decode_cons. unfold decode_byte. simpl. rewrite Hh. simpl.
  by destruct (decode rest _).
Qed.

Lemma decode_step_emit (c : ascii) (rest : string) (cp : Z) (d d' : Utf8Decoder)
    (seen : bool) :
  utf8_handler d (byte_value c) = ([cp], d') → cp ≠ 0xFEFF →
  decode (String c rest) (mkDecoder d seen)
  = (utf8_encode cp +:+ (decode rest (mkDecoder d' true)).1,
     (decode rest (mkDecoder d' true)).2).
Proof.
  intros Hh Hcp. rewrite decode_cons. unfold decode_byte. simpl. rewrite Hh. simpl.
  destruct (Z.eqb_spec cp 65279); [done|]. rewrite andb_false_r.
  rewrite string_app_nil_r. by destruct (decode rest _).
Qed.

Ltac divmod := Z.to_euclidean_division_equations; lia.

(** Decoding the UTF-8 form of a scalar value gives the scalar value
    back and leaves the decoder with no bytes needed. *)
Lemma decode_scalar (cp : Z) (seen : bool) (rest : string) :
  is_scalar cp → cp ≠ 0xFEFF →
  decode (utf8_encode cp +:+ rest) (mkDecoder utf8_idle seen)
  = (utf8_encode cp +:+ (decode rest (mkDecoder utf8_idle true)).1,
     (decode rest (mkDecoder utf8_idle true)).2).
Proof.
  intros [Hrange Hsurrogate] Hbom.
  destruct (Z.leb_spec cp 0x7F) as [H1|H1].
  { assert (utf8_encode cp = String (byte_of cp) "") as Henc.
    { unfold utf8_encode. destruct (Z.leb_spec cp 127); [done|lia]. }
    rewrite Henc at 1. rewrite !string_app_cons.
    rewrite (decode_step_emit _ _ cp utf8_idle utf8_idle); [done| |done].
    rewrite byte_value_of by lia. by apply utf8_lead_ascii. }
  destruct (Z.leb_spec cp 0x7FF) as [H2|H2].
  { assert (utf8_encode cp
            = String (byte_of (cp / 64 + 192)) (String (byte_of (128 + cp mod 64)) ""))
      as Henc.
    { unfold utf8_encode. destruct (Z.leb_spec cp 127); [lia|].
      destruct (Z.leb_spec cp 2047); [|lia].
      by rewrite continuation_byte, Z.shiftr_div_pow2. }
    rewrite Henc at 1. rewrite !string_app_cons.
    rewrite (decode_step_silent _ _ _ (mkUtf8 (cp / 64) 0 1 0x80 0xBF)).
    2: { rewrite byte_value_of by divmod. rewrite utf8_handler_idle. unfold utf8_lead.
         destruct (Z.leb_spec (cp / 64 + 192) 127); [divmod|].
         destruct (Z.leb_spec 194 (cp / 64 + 192)); [|divmod].
         destruct (Z.leb_spec (cp / 64 + 192) 223); [|divmod].
         simpl. rewrite land_ones_31. do 2 f_equal. divmod. }
    rewrite (decode_step_emit _ _ cp _ utf8_idle); [done| |done].
    rewrite byte_value_of by divmod.
    rewrite utf8_handler_continue by (simpl; divmod). simpl.
    do 2 f_equal. divmod. }
  destruct (Z.leb_spec cp 0xFFFF) as [H3|H3].
  { assert (utf8_encode cp
            = String (byte_of (cp / 4096 + 224))
                (String (byte_of (128 + (cp / 64) mod 64))
                   (String (byte_of (128 + cp mod 64)) ""))) as Henc.
    { unfold utf8_encode. destruct (Z.leb_spec cp 127); [lia|].
      destruct (Z.leb_spec cp 2047); [lia|].
      destruct (Z.leb_spec cp 65535); [|lia].
      by rewrite !continuation_byte, !Z.shiftr_div_pow2. }
    rewrite Henc at 1. rewrite !string_app_cons.
    rewrite (decode_step_silent _ _ _
               (mkUtf8 (cp / 4096) 0 2
                  (if cp / 4096 + 224 =? 0xE0 then 0xA0 else 0x80)
                  (if cp / 4096 + 224 =? 0xED then 0x9F else 0xBF))).
    2: { rewrite byte_value_of by divmod. rewrite utf8_handler_idle. unfold utf8_lead.
         destruct (Z.leb_spec (cp / 4096 + 224) 127); [divmod|].
         destruct (Z.leb_spec 194 (cp / 4096 + 224)); [|divmod].
         destruct (Z.leb_spec (cp / 4096 + 224) 223); [divmod|].
         destruct (Z.leb_spec 224 (cp / 4096 + 224)); [|divmod].
         destruct (Z.leb_spec (cp / 4096 + 224) 239); [|divmod].
         simpl. rewrite land_ones_15. do 2 f_equal. f_equal. divmod. }
    rewrite (decode_step_silent _ _ _
               (mkUtf8 (cp / 4096 * 64 + (cp / 64) mod 64) 1 2 0x80 0xBF)).
    2: { rewrite byte_value_of by divmod. rewrite utf8_handler_continue.
         - simpl. do 2 f_equal. f_equal. divmod.
         - simpl. lia.
         - simpl. destruct (Z.eqb_spec (cp / 4096 + 224) 224);
             destruct (Z.eqb_spec (cp / 4096 + 224) 237); divmod. }
    rewrite (decode_step_emit _ _ cp _ utf8_idle); [done| |done].
    rewrite byte_value_of by divmod.
    rewrite utf8_handler_continue by (simpl; divmod). simpl.
    do 2 f_equal. divmod. }
  assert (utf8_encode cp
          = String (byte_of (cp / 262144 + 240))
              (String (byte_of (128 + (cp / 4096) mod 64))
                 (String (byte_of (128 + (cp / 64) mod 64))
                    (String (byte_of (128 + cp mod 64)) "")))) as Henc.
  { unfold utf8_encode. destruct (Z.leb_spec cp 127); [lia|].
    destruct (Z.leb_spec cp 2047); [lia|].
    destruct (Z.leb_spec cp 65535); [lia|].
    by rewrite !continuation_byte, !Z.shiftr_div_pow2. }
  rewrite Henc at 1. rewrite !string_app_cons.
  rewrite (decode_step_silent _ _ _
             (mkUtf8 (cp / 262144) 0 3
                (if cp / 262144 + 240 =? 0xF0 then 0x90 else 0x80)
                (if cp / 262144 + 240 =? 0xF4 then 0x8F else 0xBF))).
  2: { rewrite byte_value_of by divmod. rewrite utf8_handler_idle. unfold utf8_lead.
       destruct (Z.leb_spec (cp / 262144 + 240) 127); [divmod|].
       destruct (Z.leb_spec 194 (cp / 262144 + 240)); [|divmod].
       destruct (Z.leb_spec (cp / 262144 + 240) 223); [divmod|].
       destruct (Z.leb_spec 224 (cp / 262144 + 240)); [|divmod].
       destruct (Z.leb_spec (cp / 262144 + 240) 239); [divmod|].
       destruct (Z.leb_spec 240 (cp / 262144 + 240)); [|divmod].
       destruct (Z.leb_spec (cp / 262144 + 240) 244); [|divmod].
       simpl. rewrite land_ones_7. do 2 f_equal. f_equal. divmod. }
  rewrite (decode_step_silent _ _ _
             (mkUtf8 (cp / 262144 * 64 + (cp / 4096) mod 64) 1 3 0x80 0xBF)).
  2: { rewrite byte_value_of by divmod. rewrite utf8_handler_continue.
       - simpl. do 2 f_equal. f_equal. divmod.
       - simpl. lia.
       - simpl. destruct (Z.eqb_spec (cp / 262144 + 240) 240);
           destruct (Z.eqb_spec (cp / 262144 + 240) 244); divmod. }
  rewrite (decode_step_silent _ _ _
             (mkUtf8 ((cp / 262144 * 64 + (cp / 4096) mod 64) * 64 + (cp / 64) mod 64)
                2 3 0x80 0xBF)).
  2: { rewrite byte_value_of by divmod.
       rewrite utf8_handler_continue by (simpl; divmod). simpl.
       do 2 f_equal. f_equal. divmod. }
  rewrite (decode_step_emit _ _ cp _ utf8_idle); [done| |done].
  rewrite byte_value_of by divmod.
  rewrite utf8_handler_continue by (simpl; divmod). simpl.
  do 2 f_equal. divmod.
Qed.

Lemma decode_utf8_text (scalars : list Z) (seen : bool) :
  Forall is_scalar scalars → 0xFEFF ∉ scalars →
  decode (utf8_text scalars) (mkDecoder utf8_idle seen)
  = (utf8_text scalars, mkDecoder utf8_idle (seen || bool_decide (scalars ≠ []))).
Proof.
  revert seen. induction scalars as [|cp rest IH]; intros seen Hall Hbom.
  - simpl. by rewrite orb_false_r.
  - apply Forall_cons in Hall as [Hcp Hall].
    apply not_elem_of_cons in Hbom as [Hne Hbom].
    change (utf8_text (cp :: rest)) with (utf8_encode cp +:+ utf8_text rest).
    rewrite decode_scalar by done. rewrite (IH true) by done. cbn [fst snd].
    rewrite (bool_decide_eq_true_2 (cp :: rest ≠ [])) by done.
    by rewrite orb_true_r.
Qed.

Lemma decode_whole_characters (value : string) (decoder : TextDecoder) :
  whole_characters value → utf8 decoder = utf8_idle →
  (decode value decoder).1 = value ∧ utf8 (decode value decoder).2 = utf8_idle.
Proof.
  intros (scalars & -> & Hall & Hbom) Hidle. destruct decoder as [d seen].
  simpl in Hidle. subst d. by rewrite decode_utf8_text.
Qed.

(** In the UTF-8 form of a scalar value the newline byte occurs only as
    the newline character. *)
Lemma byte_of_newline (z : Z) : 0 ≤ z < 256 → byte_of z = "010"%char → z = 10.
Proof.
  intros Hz Heq. rewrite <- (byte_value_of z Hz), Heq. reflexivity.
Qed.

Lemma utf8_encode_newline (cp : Z) :
  is_scalar cp → has_newline (utf8_encode cp) ↔ cp = 10.
Proof.
  intros [Hrange _]. split.
  - unfold utf8_encode.
    destruct (Z.leb_spec cp 0x7F);
      [|destruct (Z.leb_spec cp 0x7FF); [|destruct (Z.leb_spec cp 0xFFFF)]];
      rewrite ?continuation_byte, ?Z.shiftr_div_pow2 by lia;
      rewrite !has_newline_cons;
      intros Hnl;
      repeat (destruct Hnl as [Hnl|Hnl];
              [apply byte_of_newline in Hnl; [divmod|divmod]|]);
      by apply not_elem_of_nil in Hnl.
  - intros ->. unfold has_newline. simpl. left.
Qed.

(** *** One stream *)

Lemma readStream_read_spec (pre value buffer : string) (decoder : TextDecoder)
    (complete : list string) (partial : string) :
  split_newline (buffer +:+ (decode value decoder).1) = complete ++ [partial] →
  readStream_read pre value buffer decoder
  = (tagged pre <$> complete, partial, (decode value decoder).2).
Proof.
  intros Hsplit. unfold readStream_read.
  destruct (decode value decoder) as [text decoder']. simpl in *.
  unfold pop. rewrite Hsplit, last_snoc, removelast_last.
  by destruct partial.
Qed.

Lemma split_newline_last (text : string) (complete : list string) (partial : string) :
  split_newline text = complete ++ [partial] → ¬ has_newline partial.
Proof.
  intros Hsplit. pose proof (split_newline_segments text) as Hall.
  rewrite Hsplit in Hall. apply Forall_app in Hall as [_ Hall]. by inversion Hall.
Qed.

Lemma readStream_loop_spec (pre : string) (chunks : list string) (buffer : string)
    (decoder : TextDecoder) :
  ¬ has_newline buffer →
  ∃ complete partial,
    split_newline (buffer +:+ (decode (stream_text chunks) decoder).1)
    = complete ++ [partial]
    ∧ readStream_loop pre buffer chunks decoder
      = (tagged pre <$> complete, partial, (decode (stream_text chunks) decoder).2).
Proof.
  revert buffer decoder. induction chunks as [|value rest IH]; intros buffer decoder Hbuf.
  - exists [], buffer. simpl. rewrite string_app_nil_r.
    by rewrite split_newline_single.
  - destruct (split_newline_snoc (buffer +:+ (decode value decoder).1))
      as (c1 & p1 & H1).
    pose proof (split_newline_last _ _ _ H1) as Hp1.
    destruct (IH p1 (decode value decoder).2 Hp1) as (c2 & p2 & H2 & Hloop).
    change (stream_text (value :: rest)) with (value +:+ stream_text rest).
    destruct (decode_text_app value (stream_text rest) decoder) as [-> ->].
    exists (c1 ++ c2), p2. split.
    + rewrite <- string_app_assoc, (split_newline_app _ _ _ _ H1), H2.
      by rewrite app_assoc.
    + simpl. rewrite (readStream_read_spec _ _ _ _ _ _ H1), Hloop.
      by rewrite fmap_app.
Qed.

(** What one undisturbed [readStream] call pushes, by the text the
    decoder makes of all its bytes. *)
Lemma readStream_spec (pre : string) (chunks : list string) (ending : Ending)
    (decoder : TextDecoder) :
  readStream pre chunks ending decoder
  = (tagged pre <$>
       match ending with
       | Closed => log_lines (decode (stream_text chunks) decoder).1
       | ReadError => removelast (split_newline (decode (stream_text chunks) decoder).1)
       end,
     (decode (stream_text chunks) decoder).2).
Proof.
  destruct (readStream_loop_spec pre chunks "" decoder)
    as (complete & partial & Hsplit & Hloop).
  { unfold has_newline. simpl. apply not_elem_of_nil. }
  change ("" +:+ ?t) with t in Hsplit.
  unfold readStream, readStream_flush, log_lines.
  rewrite Hloop, Hsplit, last_snoc, removelast_last. f_equal.
  destruct ending; [|by rewrite app_nil_r].
  case_bool_decide as Hp.
  - rewrite bool_decide_eq_true_2 by congruence. by rewrite app_nil_r.
  - rewrite bool_decide_eq_false_2 by congruence. by rewrite fmap_app.
Qed.

(** C5.  The round trip fails when a character is split between two
    chunks of one stream and the other stream delivers in between.  The
    text of the standard output is "é" and a newline, that of the
    standard error "x" and a newline, so the log should get the line "é"
    from the one and the line "x", tagged, from the other.  With the one
    decoder for both streams, the first byte of the "é" is still in the
    decoder when the chunk of the standard error is decoded: the log gets
    the tagged line of a replacement character and "x", and for the
    standard output a line of a replacement character.  The same chunks
    give the two expected lines when the chunk of the standard error
    comes first, and a [readStream] call that is alone with the decoder
    puts the "é" together from the two chunks. *)
Theorem shared_decoder_garbles_split_character :
  stream_text (chunks_from stdout split_and_interleaved) = utf8_text [0xE9; 0x0A]
  ∧ stream_text (chunks_from stderr split_and_interleaved) = utf8_text [0x78; 0x0A]
  ∧ log_lines (stream_text (chunks_from stdout split_and_interleaved))
    = [utf8_text [0xE9]]
  ∧ log_lines (stream_text (chunks_from stderr split_and_interleaved)) = ["x"]
  ∧ (readStreams split_and_interleaved start_reading).1
    = [(stderr, "[stderr] " +:+ utf8_text [0xFFFD; 0x78]);
       (stdout, utf8_text [0xFFFD])]
  ∧ pushed_by stdout (readStreams split_and_interleaved start_reading).1
    ≠ tagged (stream_prefix stdout)
        <$> log_lines (stream_text (chunks_from stdout split_and_interleaved))
  ∧ pushed_by stderr (readStreams split_and_interleaved start_reading).1
    ≠ tagged (stream_prefix stderr)
        <$> log_lines (stream_text (chunks_from stderr split_and_interleaved))
  ∧ (readStreams split_not_interleaved start_reading).1
    = [(stderr, "[stderr] x"); (stdout, utf8_text [0xE9])]
  ∧ (readStream "" (chunks_from stdout split_and_interleaved) Closed
       new_TextDecoder).1 = [utf8_text [0xE9]].
Proof.
  split_and!; try (vm_compute; reflexivity); vm_compute; discriminate.
Qed.

(** Three chunks that cut the lines anywhere, with an empty line and an
    unterminated last line; a stream that ends with a newline; a read
    error, after which the unfinished line is not pushed. *)
Example readStream_chunks :
  (readStream "" ["ab" +:+ newline +:+ "c"; "d" +:+ newline +:+ newline +:+ "e"; "f"]
     Closed new_TextDecoder).1
  = ["ab"; "cd"; ""; "ef"]
  ∧ (readStream "[stderr] " ["x" +:+ newline; "y" +:+ newline] Closed
       new_TextDecoder).1
    = ["[stderr] x"; "[stderr] y"]
  ∧ (readStream "" [] Closed new_TextDecoder).1 = []
  ∧ (readStream "" ["ab" +:+ newline +:+ "c"] ReadError new_TextDecoder).1 = ["ab"].
Proof. split_and!; vm_compute; reflexivity. Qed.

(** What the decoder does with a byte order mark, with a byte that is no
    UTF-8 and with a character that is cut off at the end of the stream:
    the mark is dropped, the byte becomes a replacement character, and
    the bytes of the unfinished character stay in the decoder, which is
    never flushed. *)
Example decode_examples :
  (decode (bytes [0xEF; 0xBB; 0xBF; 0x61]) new_TextDecoder).1 = "a"
  ∧ (decode (bytes [0x61; 0xFF; 0x62]) new_TextDecoder).1
    = utf8_text [0x61; 0xFFFD; 0x62]
  ∧ (decode (bytes [0x61; 0xE2; 0x82]) new_TextDecoder).1 = "a"
  ∧ (readStream "" [bytes [0x61; 0xE2; 0x82]] Closed new_TextDecoder).1 = ["a"].
Proof. split_and!; vm_compute; reflexivity. Qed.

(** ** The scheduler's selection *)

Lemma getNextRunnableTasks_loop_cons s taskId rest runnable foldersToStart :
  getNextRunnableTasks_loop s (taskId :: rest) runnable foldersToStart =
    match tasks s !! taskId with
    | Some task =>
        if eligible s task && negb (bool_decide (folderPath task ∈ foldersToStart))
        then getNextRunnableTasks_loop s rest (runnable ++ [task])
               ({[folderPath task]} ∪ foldersToStart)
        else getNextRunnableTasks_loop s rest runnable foldersToStart
    | None => getNextRunnableTasks_loop s rest runnable foldersToStart
    end.
Proof.
  simpl. destruct (tasks s !! taskId) as [task|]; [|done].
  unfold eligible.
  destruct (bool_decide (status task = queued)); simpl; [|done].
  destruct (canStartTask task s); simpl; [|done].
  by destruct (bool_decide (folderPath task ∈ foldersToStart)).
Qed.

(** The loop is the rule of the specification, the set [foldersToStart]
    holding the folders of the tasks selected so far. *)
Lemma getNextRunnableTasks_loop_rule s order runnable (foldersToStart : gset string) :
  (∀ folder, folder ∈ foldersToStart ↔
             Exists (λ earlier, folderPath earlier = folder) runnable) →
  getNextRunnableTasks_loop s order runnable foldersToStart =
    select_skipping s
      (filter (λ task, status task = queued) (omap (λ i, tasks s !! i) order))
      runnable.
Proof.
  revert runnable foldersToStart.
  induction order as [|taskId rest IH]; intros runnable fs Hfs; [done|].
  rewrite getNextRunnableTasks_loop_cons. simpl.
  destruct (tasks s !! taskId) as [task|]; [|by apply IH].
  unfold eligible. rewrite filter_cons.
  destruct (decide (status task = queued)) as [Hq|Hq].
  - rewrite bool_decide_eq_true_2 by done. simpl.
    rewrite (bool_decide_ext _ _ (Hfs (folderPath task))).
    destruct (canStartTask task s); simpl; [|by apply IH].
    case_bool_decide as Hseen; simpl; [by apply IH|].
    apply IH. intros folder. rewrite elem_of_union, elem_of_singleton, Exists_app, Hfs.
    rewrite Exists_cons, Exists_nil.
    split; [intros [->|?]; tauto | intros [?|[<-|[]]]; tauto].
  - rewrite bool_decide_eq_false_2 by done. simpl. by apply IH.
Qed.

Lemma getNextRunnableTasks_loop_folders s order runnable (foldersToStart : gset string) :
  (∀ folder, folder ∈ foldersToStart ↔ folder ∈ folderPath <$> runnable) →
  NoDup (folderPath <$> runnable) →
  NoDup (folderPath <$> getNextRunnableTasks_loop s order runnable foldersToStart).
Proof.
  revert runnable foldersToStart.
  induction order as [|taskId rest IH]; intros runnable fs Hfs Hnd; [done|].
  rewrite getNextRunnableTasks_loop_cons.
  destruct (tasks s !! taskId) as [task|]; [|by apply IH].
  destruct (eligible s task); simpl; [|by apply IH].
  case_bool_decide as Hseen; simpl; [by apply IH|].
  apply IH.
  - intros folder. rewrite fmap_app, elem_of_app, elem_of_union, elem_of_singleton.
    rewrite Hfs. simpl. rewrite list_elem_of_singleton. tauto.
  - rewrite fmap_app. apply NoDup_app. split_and!; [done| |].
    + intros folder Hin. simpl. rewrite list_elem_of_singleton. intros ->.
      apply Hseen. by apply Hfs.
    + simpl. apply NoDup_singleton.
Qed.

Lemma first_eligible_at_0 s taskId rest task :
  first_eligible_at s (taskId :: rest) 0 task ↔
  tasks s !! taskId = Some task ∧ eligible s task = true.
Proof.
  unfold first_eligible_at. simpl. split.
  - intros ((tid & [= <-] & Htask) & Hel & _). done.
  - intros [Htask Hel]. split_and!; [by exists taskId | done | intros; lia].
Qed.

Lemma first_eligible_at_S s taskId rest i task :
  first_eligible_at s (taskId :: rest) (S i) task ↔
  first_eligible_at s rest i task
  ∧ ∀ other, tasks s !! taskId = Some other → eligible s other = true →
             folderPath other ≠ folderPath task.
Proof.
  unfold first_eligible_at. simpl. split.
  - intros (Hpos & Hel & Hfirst). split_and!; [done | done | |].
    + intros j tid other Hj Hlook. apply (Hfirst (S j)); [lia | done].
    + intros other Hother. apply (Hfirst 0%nat taskId); [lia | done | done].
  - intros ((Hpos & Hel & Hfirst) & Hhead). split_and!; [done | done |].
    intros [|j] tid other Hj; simpl.
    + intros [= <-]. apply Hhead.
    + apply Hfirst. lia.
Qed.

(** What the loop returns: what it had, and every task that is the first
    eligible one of a folder not started yet. *)
Lemma getNextRunnableTasks_loop_elem s order runnable (foldersToStart : gset string) task :
  task ∈ getNextRunnableTasks_loop s order runnable foldersToStart ↔
  task ∈ runnable
  ∨ ∃ i, first_eligible_at s order i task ∧ folderPath task ∉ foldersToStart.
Proof.
  revert runnable foldersToStart.
  induction order as [|taskId rest IH]; intros runnable fs.
  { simpl. split; [by left|].
    intros [?|(i & ((tid & Hi & _) & _) & _)]; [done|]. by rewrite lookup_nil in Hi. }
  rewrite getNextRunnableTasks_loop_cons.
  destruct (tasks s !! taskId) as [task0|] eqn:E0.
  - destruct (eligible s task0) eqn:Eel; simpl.
    + case_bool_decide as Hseen; simpl.
      * rewrite IH. split; (intros [Hr | (i & Hfe & Hnfs)]; [by left|]).
        -- right. exists (S i). split; [|done]. apply first_eligible_at_S.
           split; [done|]. intros other Hother _. rewrite E0 in Hother.
           injection Hother as <-. congruence.
        -- destruct i as [|i].
           ++ apply first_eligible_at_0 in Hfe as [Htask _]. rewrite E0 in Htask.
              injection Htask as <-. done.
           ++ apply first_eligible_at_S in Hfe as [Hfe _]. right. by exists i.
      * rewrite IH, elem_of_app, list_elem_of_singleton. split.
        -- intros [[Hr | ->] | (i & Hfe & Hnfs)].
           ++ by left.
           ++ right. exists 0%nat. split; [|done]. by apply first_eligible_at_0.
           ++ right. exists (S i). rewrite not_elem_of_union, not_elem_of_singleton in Hnfs.
              destruct Hnfs as [Hne Hnfs]. split; [|done]. apply first_eligible_at_S.
              split; [done|]. intros other Hother _. rewrite E0 in Hother.
              injection Hother as <-. congruence.
        -- intros [Hr | (i & Hfe & Hnfs)]; [by left; left|].
           destruct i as [|i].
           ++ apply first_eligible_at_0 in Hfe as [Htask _]. rewrite E0 in Htask.
              injection Htask as <-. left. by right.
           ++ apply first_eligible_at_S in Hfe as [Hfe Hhead]. right. exists i.
              split; [done|]. rewrite not_elem_of_union, not_elem_of_singleton.
              split; [|done]. intros Heq. by apply (Hhead task0).
    + rewrite IH. split; (intros [Hr | (i & Hfe & Hnfs)]; [by left|]).
      * right. exists (S i). split; [|done]. apply first_eligible_at_S.
        split; [done|]. intros other Hother Hel. rewrite E0 in Hother.
        injection Hother as <-. congruence.
      * destruct i as [|i].
        -- apply first_eligible_at_0 in Hfe as [Htask Hel]. rewrite E0 in Htask.
           injection Htask as <-. congruence.
        -- apply first_eligible_at_S in Hfe as [Hfe _]. right. by exists i.
  - rewrite IH. split; (intros [Hr | (i & Hfe & Hnfs)]; [by left|]).
    + right. exists (S i). split; [|done]. apply first_eligible_at_S.
      split; [done|]. intros other Hother. by rewrite E0 in Hother.
    + destruct i as [|i].
      * apply first_eligible_at_0 in Hfe as [Htask _]. by rewrite E0 in Htask.
      * apply first_eligible_at_S in Hfe as [Hfe _]. right. by exists i.
Qed.

Lemma getNextRunnableTasks_elem s task :
  task ∈ getNextRunnableTasks s ↔ ∃ i, first_eligible_at s (taskOrder s) i task.
Proof.
  unfold getNextRunnableTasks. rewrite getNextRunnableTasks_loop_elem.
  split.
  - intros [Hnil | (i & Hfe & _)]; [by apply not_elem_of_nil in Hnil | by exists i].
  - intros (i & Hfe). right. exists i. split; [done | apply not_elem_of_empty].
Qed.

Lemma eligible_true s task :
  eligible s task = true ↔ status task = queued ∧ canStartTask task s = true.
Proof.
  unfold eligible. rewrite andb_true_iff, bool_decide_eq_true. done.
Qed.

Lemma getNextRunnableTasks_earliest_startable s : selects_earliest_startable s.
Proof.
  intros task (i & Hpos & Hel & Hfirst)%getNextRunnableTasks_elem.
  apply eligible_true in Hel as [Hq Hcan]. split_and!; [done | done |].
  exists i. split; [done|].
  intros j other Hj (tid & Htid & Hother) Hoq Hsame.
  destruct (canStartTask other s) eqn:Hoc; [|done].
  destruct (Hfirst j tid other Hj Htid Hother); [|done].
  by apply eligible_true.
Qed.

Lemma getNextRunnableTasks_earliest_queued s :
  no_queued_holder s → selects_earliest_queued s.
Proof.
  intros Hnq task Hin.
  destruct (getNextRunnableTasks_earliest_startable s task Hin)
    as (Hq & Hcan & i & Hpos & Hfirst).
  exists i. split; [done|].
  intros j other Hj Hopos Hoq Hsame.
  pose proof (Hfirst j other Hj Hopos Hoq Hsame) as Hblocked.
  destruct Hpos as (tid & _ & Htask).
  pose proof (Hnq tid task Htask Hq) as Hnot.
  unfold canStartTask in Hcan, Hblocked. rewrite Hsame in Hblocked.
  destruct (folderLocks s !! folderPath task) as [holder|]; [|done].
  apply orb_false_iff in Hblocked as [He _].
  rewrite He in Hcan. simpl in Hcan. apply bool_decide_eq_true in Hcan.
  congruence.
Qed.

(** C4, as stated, fails: with the lock of [/p] naming the queued task
    ["b"], the pass selects ["b"] although ["a"], queued for the same
    folder, comes first in the order. *)
Lemma selection_not_earliest_queued :
  getNextRunnableTasks lock_names_queued = [queued_b]
  ∧ at_position lock_names_queued 0 queued_a
  ∧ at_position lock_names_queued 1 queued_b
  ∧ status queued_a = queued
  ∧ folderPath queued_a = folderPath queued_b
  ∧ ¬ selects_earliest_queued lock_names_queued.
Proof.
  assert (at_position lock_names_queued 0 queued_a) as Ha.
  { exists "a". split; reflexivity. }
  split_and!; [reflexivity | done | by exists "b" | done | done |].
  intros Hsel. destruct (Hsel queued_b) as (i & (tid & Hi & Htid) & Hfirst).
  { change (getNextRunnableTasks lock_names_queued) with [queued_b].
    by apply list_elem_of_singleton. }
  destruct i as [|[|i]]; simpl in Hi.
  - injection Hi as <-. vm_compute in Htid. discriminate.
  - apply (Hfirst 0%nat queued_a); [lia | done | done | done].
  - done.
Qed.

(** ** The registry invariant *)

Lemma registry_inv_init : registry_inv init.
Proof.
  split; simpl.
  - intros taskId task H. by rewrite lookup_empty in H.
  - intros folder holder H. by rewrite lookup_empty in H.
  - intros taskId task H. by rewrite lookup_empty in H.
  - intros captured task H. by apply not_elem_of_nil in H.
Qed.

(** Steps that touch neither the registry nor the locks. *)
Lemma registry_inv_same s s' :
  registry_inv s →
  tasks s' = tasks s → folderLocks s' = folderLocks s →
  (∀ captured, captured ∈ awaiting s' → captured ∈ awaiting s) →
  registry_inv s'.
Proof.
  intros [Hk Hh Hr Ha] Ht Hl Hsub. split; rewrite ?Ht, ?Hl; try done.
  intros captured task Hin. apply Ha. by apply Hsub.
Qed.

(** A folder that a queued task may start in has no lock entry. *)
Lemma canStartTask_unlocked s task registered :
  registry_inv s →
  tasks s !! id task = Some registered → status registered = queued →
  canStartTask task s = true →
  folderLocks s !! folderPath task = None.
Proof.
  intros [Hk Hh _ _] Hreg Hq Hcan. unfold canStartTask in Hcan.
  destruct (folderLocks s !! folderPath task) as [holder|] eqn:Hlock; [|done].
  destruct (Hh _ _ Hlock) as (running_task & Hrt & _ & Hrun).
  destruct (Hk _ _ Hrt) as [_ Hne].
  apply orb_true_iff in Hcan as [He | He]; apply bool_decide_eq_true in He.
  - done.
  - subst holder. rewrite Hreg in Hrt. injection Hrt as <-. congruence.
Qed.

(** Acquiring the lock and moving the task to [running]. *)
Lemma registry_inv_start s s' task registered (change : Task -> Task) :
  registry_inv s →
  tasks s !! id task = Some registered →
  folderPath registered = folderPath task →
  folderLocks s !! folderPath task = None →
  (∀ x, id (change x) = id x ∧ folderPath (change x) = folderPath x
        ∧ status (change x) = running) →
  (∀ other, tasks s' !! other =
      if bool_decide (other = id task) then change <$> tasks s !! id task
      else tasks s !! other) →
  folderLocks s' = <[folderPath task := id task]> (folderLocks s) →
  awaiting s' = awaiting s →
  registry_inv s'.
Proof.
  intros [Hk Hh Hr Ha] Hreg Hfolder Hfree Hchange Htasks Hlocks Haw.
  split.
  - intros taskId t. rewrite Htasks. case_bool_decide as Hc; [|by apply Hk].
    subst taskId. rewrite Hreg. simpl. intros [= <-].
    destruct (Hchange registered) as (-> & _ & _). by apply Hk.
  - intros folder holder. rewrite Hlocks.
    destruct (decide (folder = folderPath task)) as [->|Hne].
    + rewrite lookup_insert_eq. intros [= <-].
      exists (change registered). rewrite Htasks, bool_decide_eq_true_2, Hreg by done.
      destruct (Hchange registered) as (_ & -> & ->). done.
    + rewrite lookup_insert_ne by done. intros Hlock.
      destruct (Hh _ _ Hlock) as (t & Ht & Hf & Hrun). exists t.
      rewrite Htasks. rewrite bool_decide_eq_false_2; [done|].
      intros ->. rewrite Hreg in Ht. injection Ht as ->. congruence.
  - intros taskId t. rewrite Htasks, Hlocks. case_bool_decide as Hc.
    + subst taskId. rewrite Hreg. simpl. intros [= <-] _.
      destruct (Hchange registered) as (_ & -> & _).
      rewrite Hfolder. apply lookup_insert_eq.
    + intros Ht Hrun. pose proof (Hr _ _ Ht Hrun) as Hlock.
      rewrite lookup_insert_ne; [done|]. intros Heq. congruence.
  - intros captured t. rewrite Haw, Htasks. intros Hin.
    case_bool_decide as Hc; [|by apply Ha].
    rewrite Hreg. simpl. intros [= <-].
    destruct (Hchange registered) as (_ & -> & _).
    apply Ha; [done|]. by rewrite Hc.
Qed.

(** Releasing the lock of a task and moving it out of [running]. *)
Lemma registry_inv_finish s s' task (change : Task -> Task) :
  registry_inv s →
  (∀ registered, tasks s !! id task = Some registered →
                 folderPath registered = folderPath task) →
  (∀ x, id (change x) = id x ∧ folderPath (change x) = folderPath x
        ∧ status (change x) ≠ running) →
  (∀ other, tasks s' !! other =
      if bool_decide (other = id task) then change <$> tasks s !! id task
      else tasks s !! other) →
  folderLocks s' = folderLocks (releaseFolderLock task s) →
  (∀ captured, captured ∈ awaiting s' → captured ∈ awaiting s) →
  registry_inv s'.
Proof.
  intros [Hk Hh Hr Ha] Hfolder Hchange Htasks Hlocks Haw.
  split.
  - intros taskId t. rewrite Htasks. case_bool_decide as Hc; [|by apply Hk].
    subst taskId. destruct (tasks s !! id task) as [registered|] eqn:Hreg; [|done].
    simpl. intros [= <-].
    destruct (Hchange registered) as (-> & _ & _). by apply Hk.
  - intros folder holder. rewrite Hlocks, releaseFolderLock_lookup.
    case_bool_decide as Hheld; [done|]. intros Hlock.
    destruct (Hh _ _ Hlock) as (t & Ht & Hf & Hrun). exists t.
    rewrite Htasks. rewrite bool_decide_eq_false_2; [done|].
    intros ->. apply Hheld. pose proof (Hfolder _ Ht). split; congruence.
  - intros taskId t. rewrite Htasks, Hlocks, releaseFolderLock_lookup.
    case_bool_decide as Hc.
    + destruct (tasks s !! id task) as [registered|]; [|done]. simpl.
      intros [= <-] Hrun. by destruct (Hchange registered) as (_ & _ & ?).
    + intros Ht Hrun. pose proof (Hr _ _ Ht Hrun) as Hlock.
      rewrite bool_decide_eq_false_2; [done|]. intros [_ Hheld]. congruence.
  - intros captured t Hin. rewrite Htasks. apply Haw in Hin.
    case_bool_decide as Hc; [|by apply Ha].
    destruct (tasks s !! id task) as [registered|] eqn:Hreg; [|done]. simpl.
    intros [= <-]. destruct (Hchange registered) as (_ & -> & _).
    apply Ha; [done|]. by rewrite Hc.
Qed.

(** Rewriting a registered task without touching its identifier, folder
    or status. *)
Lemma registry_inv_touch s s' taskId (change : Task -> Task) :
  registry_inv s →
  (∀ x, id (change x) = id x ∧ folderPath (change x) = folderPath x
        ∧ status (change x) = status x) →
  (∀ other, tasks s' !! other =
      if bool_decide (other = taskId) then change <$> tasks s !! taskId
      else tasks s !! other) →
  folderLocks s' = folderLocks s →
  (∀ captured, captured ∈ awaiting s' → captured ∈ awaiting s) →
  registry_inv s'.
Proof.
  intros [Hk Hh Hr Ha] Hchange Htasks Hlocks Haw.
  assert (∀ other t', tasks s' !! other = Some t' →
            ∃ t, tasks s !! other = Some t ∧ id t' = id t
                 ∧ folderPath t' = folderPath t ∧ status t' = status t) as Hback.
  { intros other t'. rewrite Htasks. case_bool_decide as Hc; [|by eauto].
    subst other. destruct (tasks s !! taskId) as [t|]; [|done]. simpl.
    intros [= <-]. exists t. by destruct (Hchange t) as (-> & -> & ->). }
  assert (∀ other t, tasks s !! other = Some t →
            ∃ t', tasks s' !! other = Some t' ∧ id t' = id t
                  ∧ folderPath t' = folderPath t ∧ status t' = status t) as Hfwd.
  { intros other t Ht. rewrite Htasks. case_bool_decide as Hc; [|by eauto].
    subst other. rewrite Ht. simpl. eexists. split; [done|]. apply Hchange. }
  split.
  - intros other t' (t & Ht & -> & _)%Hback. by apply Hk.
  - intros folder holder. rewrite Hlocks. intros (t & Ht & Hf & Hrun)%Hh.
    destruct (Hfwd _ _ Ht) as (t' & Ht' & _ & Hf' & Hs'). exists t'.
    split_and!; congruence.
  - intros other t' (t & Ht & _ & Hf & Hs)%Hback Hrun. rewrite Hlocks, Hf.
    apply Hr; congruence.
  - intros captured t' Hin (t & Ht & _ & -> & _)%Hback. apply Ha; [|done].
    by apply Haw.
Qed.

Lemma registry_inv_create newId now folder ag pr orig s :
  registry_inv s → fresh newId s →
  registry_inv (createTask newId now folder ag pr orig s).2.
Proof.
  intros [Hk Hh Hr Ha] (Hne & Hnew & _ & Hcap). split; simpl.
  - intros taskId t. destruct (decide (taskId = newId)) as [->|Hd].
    + rewrite lookup_insert_eq. by intros [= <-].
    + rewrite lookup_insert_ne by done. apply Hk.
  - intros f holder (t & Ht & Hf & Hrun)%Hh. exists t.
    rewrite lookup_insert_ne; [done|]. intros <-. congruence.
  - intros taskId t. destruct (decide (taskId = newId)) as [->|Hd].
    + rewrite lookup_insert_eq. by intros [= <-].
    + rewrite lookup_insert_ne by done. apply Hr.
  - intros captured t Hin. rewrite lookup_insert_ne by (symmetry; by apply Hcap).
    by apply Ha.
Qed.

Lemma registry_inv_reorder taskId direction s :
  registry_inv s → registry_inv (reorderTask taskId direction s).2.
Proof.
  intros Hinv. unfold reorderTask.
  destruct (_ =? _); [done|]. destruct (_ || _); [done|].
  by apply (registry_inv_same s).
Qed.

Lemma registry_inv_remove taskId s :
  registry_inv s → registry_inv (removeTask taskId s).2.
Proof.
  intros [Hk Hh Hr Ha]. unfold removeTask.
  destruct (tasks s !! taskId) as [task|] eqn:Htask; [|done]. split; simpl.
  - intros other t [_ Ht]%lookup_delete_Some. by apply Hk.
  - intros f holder Hlock.
    assert (folderLocks s !! f = Some holder ∧ holder ≠ taskId) as [Hl Hne].
    { case_bool_decide as Hheld.
      - apply lookup_delete_Some in Hlock as [Hf Hl]. split; [done|].
        intros ->. destruct (Hh _ _ Hl) as (t & Ht & Hft & _). congruence.
      - split; [done|]. intros ->.
        destruct (Hh _ _ Hlock) as (t & Ht & Hft & Hrun).
        rewrite Htask in Ht. injection Ht as <-.
        pose proof (Hr _ _ Htask Hrun). congruence. }
    destruct (Hh _ _ Hl) as (t & Ht & Hft & Hrun). exists t.
    by rewrite lookup_delete_ne.
  - intros other t [Hne Ht]%lookup_delete_Some Hrun.
    pose proof (Hr _ _ Ht Hrun) as Hl.
    case_bool_decide as Hheld; [|done].
    rewrite lookup_delete_ne; [done|]. intros Heq. congruence.
  - intros captured t Hin [_ Ht]%lookup_delete_Some. by apply Ha.
Qed.

Lemma releaseFolderLock_locks_only task s s' :
  folderLocks s' = folderLocks s →
  folderLocks (releaseFolderLock task s') = folderLocks (releaseFolderLock task s).
Proof.
  intros Heq. unfold releaseFolderLock. rewrite Heq.
  case_bool_decide; simpl; by rewrite ?Heq.
Qed.

Lemma stopTask_locks taskId now s proc registered :
  runningProcesses s !! taskId = Some proc →
  tasks s !! taskId = Some registered →
  folderLocks (stopTask taskId now s).2 = folderLocks (releaseFolderLock registered s).
Proof.
  intros Hproc Hreg. unfold stopTask, getTask. rewrite Hproc. simpl. rewrite Hreg.
  simpl. rewrite pushOutput_locks, updateTask_locks.
  by apply releaseFolderLock_locks_only.
Qed.

Lemma stopTask_awaiting taskId now s :
  awaiting (stopTask taskId now s).2 = awaiting s.
Proof.
  unfold stopTask, getTask. destruct (runningProcesses s !! taskId); [|done].
  simpl. destruct (tasks s !! taskId); [|done]. simpl.
  by rewrite pushOutput_awaiting, updateTask_awaiting, releaseFolderLock_awaiting.
Qed.

Lemma registry_inv_stop taskId now s :
  registry_inv s → registry_inv (stopTask taskId now s).2.
Proof.
  intros Hinv.
  destruct (runningProcesses s !! taskId) as [proc|] eqn:Hproc;
    [|by rewrite stopTask_idle].
  destruct (tasks s !! taskId) as [registered|] eqn:Hreg.
  - destruct (inv_keys s Hinv _ _ Hreg) as [Hid _].
    apply (registry_inv_finish s _ registered
             (λ t, with_output ["[system] Task stopped by user"]
                     (assign t (stopped_update now)))); [done| | | | |].
    + rewrite Hid, Hreg. by intros ? [= <-].
    + done.
    + intros other. rewrite (stopTask_lookup _ _ _ proc) by done. by rewrite Hid.
    + by apply (stopTask_locks _ _ _ proc).
    + intros captured. by rewrite stopTask_awaiting.
  - unfold stopTask, getTask. rewrite Hproc. simpl. rewrite Hreg. simpl.
    by apply (registry_inv_same s).
Qed.

Lemma registry_inv_output taskId lines s :
  registry_inv s → registry_inv (pushOutput taskId lines s).
Proof.
  intros Hinv.
  apply (registry_inv_touch s _ taskId (with_output lines)); [done|done| | |].
  - intros other. apply pushOutput_lookup.
  - apply pushOutput_locks.
  - intros captured. by rewrite pushOutput_awaiting.
Qed.

Lemma registry_inv_resume k captured code now s :
  registry_inv s → awaiting s !! k = Some captured →
  registry_inv (executeTask_resume captured code now
                  (set_awaiting (delete k (awaiting s)) s)).
Proof.
  intros Hinv Hk.
  apply (registry_inv_finish s _ captured (λ t, assign t (exited_update code now)));
    [done| | | | |].
  - intros registered Hreg. eapply inv_awaiting; eauto.
    by eapply list_elem_of_lookup_2.
  - intros x. split_and!; [done|done|]. simpl. by destruct (code =? 0).
  - intros other. by rewrite executeTask_resume_lookup.
  - unfold executeTask_resume. rewrite updateTask_locks.
    by apply releaseFolderLock_locks_only.
  - intros c. unfold executeTask_resume.
    rewrite updateTask_awaiting, releaseFolderLock_awaiting. simpl.
    apply list_elem_of_delete_inv.
Qed.

(** ** Starting a task *)

Lemma executeTask_unfold task spawn now s :
  executeTask task spawn now s =
    if canStartTask task s then
      match buildCommand task with
      | inl message => (Rejected message, started task now s)
      | inr proc =>
          match spawn with
          | SpawnError message caughtAt =>
              (Settled, executeTask_catch task message caughtAt (started task now s))
          | SpawnOk =>
              (Suspended,
               set_awaiting (awaiting (started task now s) ++ [task])
                 (set_runningProcesses
                    (<[id task := proc]> (runningProcesses (started task now s)))
                    (started task now s)))
          end
      end
    else (Rejected ("Folder " +:+ folderPath task +:+ " is locked by another task"), s).
Proof.
  unfold executeTask, acquireFolderLock, started, running_update.
  by destruct (canStartTask task s).
Qed.

Lemma started_lookup task now s other :
  tasks (started task now s) !! other =
    if bool_decide (other = id task)
    then (λ t, assign t (running_update now)) <$> tasks s !! id task
    else tasks s !! other.
Proof. unfold started. by rewrite updateTask_lookup. Qed.

Lemma started_locks task now s :
  folderLocks (started task now s) = <[folderPath task := id task]> (folderLocks s).
Proof. unfold started. by rewrite updateTask_locks. Qed.

Lemma started_awaiting task now s : awaiting (started task now s) = awaiting s.
Proof. unfold started. by rewrite updateTask_awaiting. Qed.

Lemma started_processes task now s :
  runningProcesses (started task now s) = runningProcesses s.
Proof. unfold started. by rewrite updateTask_processes. Qed.

(** One [executeTask] call leaves every other task as it was. *)
Lemma executeTask_frame task spawn now s other :
  other ≠ id task →
  tasks (executeTask task spawn now s).2 !! other = tasks s !! other.
Proof.
  intros Hne. rewrite executeTask_unfold.
  destruct (canStartTask task s); [|done].
  destruct (buildCommand task) as [message|proc]; simpl.
  - by rewrite started_lookup, bool_decide_eq_false_2.
  - destruct spawn as [|message caughtAt]; simpl.
    + by rewrite started_lookup, bool_decide_eq_false_2.
    + rewrite executeTask_catch_lookup, bool_decide_eq_false_2 by done.
      by rewrite started_lookup, bool_decide_eq_false_2.
Qed.

Lemma registry_inv_started task registered now s :
  registry_inv s →
  tasks s !! id task = Some registered →
  folderPath registered = folderPath task →
  status registered = queued →
  canStartTask task s = true →
  registry_inv (started task now s).
Proof.
  intros Hinv Hreg Hfolder Hq Hcan.
  apply (registry_inv_start s _ task registered (λ t, assign t (running_update now)));
    try done.
  - by apply (canStartTask_unlocked s task registered).
  - apply started_lookup.
  - apply started_locks.
  - apply started_awaiting.
Qed.

Lemma registry_inv_executeTask task registered spawn now s :
  registry_inv s →
  tasks s !! id task = Some registered →
  folderPath registered = folderPath task →
  status registered = queued →
  registry_inv (executeTask task spawn now s).2.
Proof.
  intros Hinv Hreg Hfolder Hq. rewrite executeTask_unfold.
  destruct (canStartTask task s) eqn:Hcan; [|done].
  pose proof (registry_inv_started task registered now s Hinv Hreg Hfolder Hq Hcan)
    as Hstarted.
  assert (∀ t, tasks (started task now s) !! id task = Some t →
               folderPath t = folderPath task) as Hmine.
  { intros t. rewrite started_lookup, bool_decide_eq_true_2, Hreg by done.
    simpl. by intros [= <-]. }
  destruct (buildCommand task) as [message|proc]; [done|].
  destruct spawn as [|message caughtAt]; simpl.
  - destruct Hstarted as [Hk Hh Hr Ha]. split; simpl; [done|done|done|].
    intros captured t [Hin | ->%list_elem_of_singleton]%elem_of_app.
    + by apply Ha.
    + apply Hmine.
  - apply (registry_inv_finish (started task now s) _ task
             (λ t, assign (with_output ["[error] " +:+ message] t)
                     (failed_update caughtAt))); [done|done|done| | |].
    + intros other. apply executeTask_catch_lookup.
    + unfold executeTask_catch. rewrite updateTask_locks, pushOutput_locks.
      by apply releaseFolderLock_locks_only.
    + intros captured. unfold executeTask_catch.
      by rewrite updateTask_awaiting, pushOutput_awaiting, releaseFolderLock_awaiting.
Qed.

(** ** The scheduler pass *)

Lemma dispatch_frame spawn now selected s other :
  other ∉ id <$> selected →
  tasks (dispatch spawn now selected s) !! other = tasks s !! other.
Proof.
  revert s. induction selected as [|task rest IH]; intros s Hnot; [done|].
  simpl. rewrite fmap_cons, not_elem_of_cons in Hnot. destruct Hnot as [Hne Hnot].
  rewrite IH by done. by apply executeTask_frame.
Qed.

Lemma registry_inv_dispatch spawn now selected s :
  registry_inv s →
  NoDup (id <$> selected) →
  (∀ task, task ∈ selected → tasks s !! id task = Some task ∧ status task = queued) →
  registry_inv (dispatch spawn now selected s).
Proof.
  revert s. induction selected as [|task rest IH]; intros s Hinv Hnd Hsel; [done|].
  simpl. rewrite fmap_cons in Hnd. apply NoDup_cons in Hnd as [Hfirst Hnd].
  destruct (Hsel task) as [Hreg Hq]; [by left|].
  apply IH; [|done|].
  - by apply (registry_inv_executeTask task task).
  - intros other Hin. destruct (Hsel other) as [Horeg Hoq]; [by right|].
    split; [|done]. rewrite executeTask_frame; [done|].
    intros Heq. apply Hfirst. rewrite <- Heq. by apply list_elem_of_fmap_2.
Qed.

(** What a pass selects, in a state that satisfies the invariant: tasks
    registered under their own identifier, queued, no two alike. *)
Lemma getNextRunnableTasks_selected s :
  registry_inv s →
  NoDup (id <$> getNextRunnableTasks s)
  ∧ ∀ task, task ∈ getNextRunnableTasks s →
      tasks s !! id task = Some task ∧ status task = queued.
Proof.
  intros Hinv.
  assert (∀ task, task ∈ getNextRunnableTasks s →
      tasks s !! id task = Some task ∧ status task = queued) as Hsel.
  { intros task (i & (tid & _ & Htid) & Hel & _)%getNextRunnableTasks_elem.
    destruct (inv_keys s Hinv _ _ Htid) as [-> _].
    split; [done|]. by apply eligible_true in Hel as [? _]. }
  split; [|done].
  apply NoDup_fmap_2_strong.
  - intros t1 t2 [H1 _]%Hsel [H2 _]%Hsel Heq. rewrite Heq in H1. congruence.
  - apply (NoDup_fmap_1 folderPath). unfold getNextRunnableTasks.
    apply getNextRunnableTasks_loop_folders; [|constructor].
    intros folder. simpl. rewrite elem_of_nil. split; [|done]. apply not_elem_of_empty.
Qed.

Lemma registry_inv_schedule spawn now s :
  registry_inv s → registry_inv (runScheduler spawn now s).
Proof.
  intros Hinv. destruct (getNextRunnableTasks_selected s Hinv) as [Hnd Hsel].
  by apply registry_inv_dispatch.
Qed.

Lemma registry_inv_event s e :
  registry_inv s → enabled s e → registry_inv (apply_event e s).
Proof.
  intros Hinv Hen. destruct e; simpl in *.
  - by apply registry_inv_create.
  - by apply registry_inv_reorder.
  - by apply registry_inv_remove.
  - by apply registry_inv_stop.
  - by apply registry_inv_schedule.
  - destruct (awaiting s !! k); [|done]. by apply registry_inv_output.
  - destruct (awaiting s !! k) eqn:Hk; [|done]. by apply registry_inv_resume.
Qed.

Lemma reachable_registry_inv s : reachable s → registry_inv s.
Proof.
  induction 1 as [|s e _ IH Hen]; [apply registry_inv_init|].
  by apply registry_inv_event.
Qed.

Lemma reorderTask_tasks taskId direction s :
  tasks (reorderTask taskId direction s).2 = tasks s.
Proof.
  unfold reorderTask. destruct (_ =? _); [done|]. by destruct (_ || _).
Qed.

(** ** Folder paths stay normalized *)

Lemma normalizePath_idempotent (p : string) :
  normalizePath (normalizePath p) = normalizePath p.
Proof.
  induction p as [|c rest IH]; [done|]. simpl.
  destruct (normalizePath rest) as [|c' r] eqn:E.
  - destruct (Ascii.eqb c "/") eqn:Ec; [done|]. simpl. by rewrite Ec.
  - change (normalizePath (String c (String c' r)))
      with (match normalizePath (String c' r) with
            | EmptyString =>
                if Ascii.eqb c "/" then EmptyString else String c EmptyString
            | x => String c x
            end).
    by rewrite IH.
Qed.

(** Steps after which every registered task has the folder of a task
    registered before. *)
Lemma paths_normalized_kept s s' :
  paths_normalized s →
  (∀ taskId task', tasks s' !! taskId = Some task' →
     ∃ task, tasks s !! taskId = Some task ∧ folderPath task' = folderPath task) →
  paths_normalized s'.
Proof.
  intros Hn Hback taskId task' (task & Ht & ->)%Hback. by eapply Hn.
Qed.

Lemma executeTask_folders task spawn now s taskId task' :
  tasks (executeTask task spawn now s).2 !! taskId = Some task' →
  ∃ registered, tasks s !! taskId = Some registered
                ∧ folderPath task' = folderPath registered.
Proof.
  destruct (decide (taskId = id task)) as [->|Hne];
    [|rewrite executeTask_frame by done; by eauto].
  rewrite executeTask_unfold. destruct (canStartTask task s); [|by eauto].
  assert (∀ t, tasks (started task now s) !! id task = Some t →
            ∃ registered, tasks s !! id task = Some registered
                          ∧ folderPath t = folderPath registered) as Hstarted.
  { intros t. rewrite started_lookup, bool_decide_eq_true_2 by done.
    destruct (tasks s !! id task) as [registered|]; [|done]. simpl.
    intros [= <-]. by exists registered. }
  destruct (buildCommand task); simpl; [apply Hstarted|].
  destruct spawn; simpl; [apply Hstarted|].
  rewrite executeTask_catch_lookup, bool_decide_eq_true_2 by done.
  destruct (tasks (started task now s) !! id task) as [t|] eqn:Ht; [|done].
  simpl. intros [= <-]. destruct (Hstarted t eq_refl) as (registered & Hreg & Hf).
  by exists registered.
Qed.

Lemma dispatch_folders spawn now selected s taskId task' :
  tasks (dispatch spawn now selected s) !! taskId = Some task' →
  ∃ registered, tasks s !! taskId = Some registered
                ∧ folderPath task' = folderPath registered.
Proof.
  revert s. induction selected as [|task rest IH]; intros s; simpl; [by eauto|].
  intros (t & Ht & Hf)%IH. apply executeTask_folders in Ht as (registered & Hreg & Hf').
  exists registered. split; congruence.
Qed.

Lemma paths_normalized_event s e :
  paths_normalized s → paths_normalized (apply_event e s).
Proof.
  intros Hn. destruct e; simpl.
  - intros taskId task. simpl. destruct (decide (taskId = newId)) as [->|Hne].
    + rewrite lookup_insert_eq. intros [= <-]. apply normalizePath_idempotent.
    + rewrite lookup_insert_ne by done. apply Hn.
  - intros taskId0 task. rewrite reorderTask_tasks. apply Hn.
  - apply (paths_normalized_kept s); [done|]. intros other task'.
    unfold removeTask. destruct (tasks s !! taskId); simpl; [|by eauto].
    intros [_ Ht]%lookup_delete_Some. by eauto.
  - apply (paths_normalized_kept s); [done|]. intros other task'.
    destruct (runningProcesses s !! taskId) as [proc|] eqn:Hproc.
    + rewrite (stopTask_lookup _ _ _ proc) by done.
      case_bool_decide as Hc; [|by eauto]. subst.
      destruct (tasks s !! taskId) as [t|]; [|done]. simpl. intros [= <-].
      by exists t.
    + rewrite stopTask_idle by done. by eauto.
  - apply (paths_normalized_kept s); [done|]. intros other task'.
    apply dispatch_folders.
  - destruct (awaiting s !! k) as [captured|]; [|done].
    apply (paths_normalized_kept s); [done|]. intros other task'.
    rewrite pushOutput_lookup. case_bool_decide as Hc; [|by eauto]. subst.
    destruct (tasks s !! id captured) as [t|]; [|done]. simpl. intros [= <-].
    by exists t.
  - destruct (awaiting s !! k) as [captured|]; [|done].
    apply (paths_normalized_kept s); [done|]. intros other task'.
    rewrite executeTask_resume_lookup. simpl.
    case_bool_decide as Hc; [|by eauto]. subst.
    destruct (tasks s !! id captured) as [t|]; [|done]. simpl. intros [= <-].
    by exists t.
Qed.

Lemma reachable_paths_normalized s : reachable s → paths_normalized s.
Proof.
  induction 1 as [|s e _ IH Hen].
  - intros taskId task H. simpl in H. by rewrite lookup_empty in H.
  - by apply paths_normalized_event.
Qed.

(** ** Folder exclusivity *)

Lemma registry_inv_exclusive s : registry_inv s → folder_exclusive s.
Proof.
  intros [Hk Hh Hr Ha]. split.
  - intros folder. split.
    + intros [holder (t & Ht & Hf & Hrun)%Hh]. by exists holder, t.
    + intros (taskId & t & Ht & <- & Hrun). exists taskId. by apply Hr.
  - congruence.
  - intros folder holder Hlock. destruct (Hh _ _ Hlock) as (t & Ht & Hf & Hrun).
    exists t. destruct (Hk _ _ Ht) as [Hid _]. done.
  - intros id1 id2 t1 t2 H1 H2 Hr1 Hr2 Hsame.
    pose proof (Hr _ _ H1 Hr1) as L1. pose proof (Hr _ _ H2 Hr2) as L2.
    congruence.
Qed.

(** C1.  In every reachable state a folder has a lock entry exactly when
    a registered task of that folder is [running]; the entry is unique,
    the task it names is registered, of that folder and [running]; and no
    two tasks of one folder are [running].  The folder paths compared are
    the normalized ones.  Every step of the system
    (creation, reordering, removal, cancellation, a scheduler pass with
    its successful and failed spawns, output, process exit) leads to a
    state with the same property. *)
Theorem folder_exclusivity (s : State) :
  reachable s →
  folder_exclusive s
  ∧ paths_normalized s
  ∧ ∀ e, enabled s e →
      folder_exclusive (apply_event e s) ∧ paths_normalized (apply_event e s).
Proof.
  intros Hreach. split_and!.
  - by apply registry_inv_exclusive, reachable_registry_inv.
  - by apply reachable_paths_normalized.
  - intros e Hen. split.
    + apply registry_inv_exclusive, reachable_registry_inv.
      by apply reachable_step.
    + by apply paths_normalized_event, reachable_paths_normalized.
Qed.

Lemma fresh_a : fresh "a" init.
Proof.
  split_and!; [discriminate | reflexivity | reflexivity |].
  intros task Hin. by apply not_elem_of_nil in Hin.
Defined.

Lemma fresh_b : fresh "b" (apply_event (ECreate "a" 1 "/p/" "claude" "x") init).
Proof.
  split_and!; [discriminate | reflexivity | reflexivity |].
  intros task Hin. by apply not_elem_of_nil in Hin.
Defined.

Lemma reachable_two_queued : reachable two_queued.
Proof.
  apply reachable_step; [apply reachable_step; [apply reachable_init|]|].
  - exact fresh_a.
  - exact fresh_b.
Defined.

Lemma reachable_first_running : reachable first_running.
Proof. apply reachable_step; [exact reachable_two_queued | exact I]. Defined.

Lemma reachable_first_stopped : reachable first_stopped.
Proof. apply reachable_step; [exact reachable_first_running | exact I]. Defined.

Lemma folder_exclusivity_witness :
  reachable first_running
  ∧ folderLocks first_running !! "/p" = Some "a"
  ∧ folder_exclusive first_running
  ∧ folder_exclusive (apply_event (EStop "a" 4) first_running).
Proof.
  destruct (folder_exclusivity first_running reachable_first_running)
    as (Hnow & _ & Hnext).
  split_and!; [exact reachable_first_running | reflexivity | exact Hnow |].
  apply Hnext. exact I.
Defined.

(** ** Terminal states *)

Lemma executeTask_resume_processes task code now s :
  runningProcesses (executeTask_resume task code now s)
  = delete (id task) (runningProcesses s).
Proof.
  unfold executeTask_resume.
  by rewrite updateTask_processes, releaseFolderLock_processes.
Qed.



(** ** Selection, for every state and for the reachable ones *)

Lemma registry_inv_no_queued_holder s : registry_inv s → no_queued_holder s.
Proof.
  intros [Hk Hh _ _] taskId task Htask Hq Hlock.
  destruct (Hh _ _ Hlock) as (t & Ht & _ & Hrun).
  destruct (Hk _ _ Htask) as [Hid _]. rewrite Hid, Htask in Ht.
  injection Ht as <-. congruence.
Qed.

(** C4, as amended.  In every state the pass returns what the rule of
    the specification gives: the queued tasks in order, without those that
    cannot start and without those whose folder was selected before them
    in the pass.  The result has at most one task per folder.  A task is
    in it exactly when it is the first one in the order, for its folder,
    that is queued and can start; so every queued task of the same folder
    before it cannot start.  When no lock names a queued task of its
    folder, and so in every reachable state, the selected task is the
    earliest-ordered queued task of its folder. *)
Theorem getNextRunnableTasks_rule (s : State) :
  getNextRunnableTasks s = runnable_by_rule s
  ∧ NoDup (folderPath <$> getNextRunnableTasks s)
  ∧ (∀ task, task ∈ getNextRunnableTasks s ↔
             ∃ i, first_eligible_at s (taskOrder s) i task)
  ∧ selects_earliest_startable s
  ∧ (no_queued_holder s → selects_earliest_queued s)
  ∧ (reachable s → selects_earliest_queued s).
Proof.
  split_and!.
  - unfold getNextRunnableTasks, runnable_by_rule, queued_in_order.
    apply getNextRunnableTasks_loop_rule. intros folder.
    rewrite Exists_nil. split; [|done]. apply not_elem_of_empty.
  - unfold getNextRunnableTasks.
    apply getNextRunnableTasks_loop_folders; [|constructor].
    intros folder. simpl. rewrite elem_of_nil. split; [|done]. apply not_elem_of_empty.
  - apply getNextRunnableTasks_elem.
  - apply getNextRunnableTasks_earliest_startable.
  - apply getNextRunnableTasks_earliest_queued.
  - intros Hreach. apply getNextRunnableTasks_earliest_queued.
    by apply registry_inv_no_queued_holder, reachable_registry_inv.
Qed.

Lemma getNextRunnableTasks_rule_witness :
  getNextRunnableTasks two_queued
  = [mkTask "a" "/p" "claude" "x" None queued [] None 1 None None]
  ∧ selects_earliest_queued two_queued.
Proof.
  destruct (getNextRunnableTasks_rule two_queued) as (_ & _ & _ & _ & _ & Hreach).
  split; [reflexivity|]. apply Hreach. exact reachable_two_queued.
Defined.

(** ** Failures while starting a task *)

Lemma executeTask_catch_locks task message now s :
  folderLocks (executeTask_catch task message now s)
  = folderLocks (releaseFolderLock task s).
Proof.
  unfold executeTask_catch. rewrite updateTask_locks, pushOutput_locks.
  by apply releaseFolderLock_locks_only.
Qed.

(** A spawn that throws is handled inside the [try]: the lock taken for
    the task is gone again, the task is in state [error] with exit code
    [-1] and one more line in its log, and nothing else has changed. *)
Lemma spawn_failure_contained task registered proc message caughtAt now s :
  tasks s !! id task = Some registered →
  canStartTask task s = true →
  buildCommand task = inr proc →
  ∃ s', executeTask task (SpawnError message caughtAt) now s = (Settled, s')
    ∧ folderLocks s' = delete (folderPath task) (folderLocks s)
    ∧ tasks s' !! id task
      = Some (assign (with_output ["[error] " +:+ message]
                        (assign registered (running_update now)))
                (failed_update caughtAt))
    ∧ (∀ other, other ≠ id task → tasks s' !! other = tasks s !! other)
    ∧ taskOrder s' = taskOrder s
    ∧ runningProcesses s' = delete (id task) (runningProcesses s)
    ∧ awaiting s' = awaiting s.
Proof.
  intros Hreg Hcan Hcmd. rewrite executeTask_unfold, Hcan, Hcmd.
  eexists. split; [reflexivity|]. split_and!.
  - rewrite executeTask_catch_locks.
    rewrite releaseFolderLock_held by (rewrite started_locks; apply lookup_insert_eq).
    rewrite started_locks. apply delete_insert_eq.
  - rewrite executeTask_catch_lookup, bool_decide_eq_true_2 by done.
    rewrite started_lookup, bool_decide_eq_true_2 by done. by rewrite Hreg.
  - intros other Hne.
    rewrite executeTask_catch_lookup, bool_decide_eq_false_2 by done.
    by rewrite started_lookup, bool_decide_eq_false_2.
  - unfold executeTask_catch.
    rewrite updateTask_order, pushOutput_order, releaseFolderLock_order. simpl.
    unfold started. by rewrite updateTask_order.
  - unfold executeTask_catch.
    rewrite updateTask_processes, pushOutput_processes, releaseFolderLock_processes.
    simpl. by rewrite started_processes.
  - unfold executeTask_catch.
    rewrite updateTask_awaiting, pushOutput_awaiting, releaseFolderLock_awaiting.
    simpl. by rewrite started_awaiting.
Qed.

(** An agent that [buildCommand] does not know makes it throw before the
    [try]: the call is rejected in the state it had reached, with the lock
    taken and the task [running]. *)
Lemma executeTask_unknown_agent task spawn now s :
  agent task ≠ "claude" → agent task ≠ "codex" →
  canStartTask task s = true →
  executeTask task spawn now s
  = (Rejected ("Unknown agent: " +:+ agent task), started task now s).
Proof.
  intros Hclaude Hcodex Hcan. rewrite executeTask_unfold, Hcan.
  unfold buildCommand. by rewrite !bool_decide_eq_false_2.
Qed.

(** C2 fails on the code for an unknown agent.  A task created with agent
    ["gemini"] is selected by the next pass; [executeTask] takes the lock
    of [/p], moves the task to [running], and is rejected by
    [buildCommand].  Nothing releases the lock: the task stays [running]
    with an empty log and no exit code, no process is registered for it,
    so [stopTask] answers [false], and a second task created for [/p]
    stays [queued] in every later pass. *)
Theorem unknown_agent_not_contained :
  let s' := apply_event (ESchedule always_spawns 2) unknown_agent_queued in
  let s'' := apply_event (ECreate "h" 3 "/p" "claude" "y") s' in
  getNextRunnableTasks unknown_agent_queued = [unknown_agent_task]
  ∧ executeTask unknown_agent_task SpawnOk 2 unknown_agent_queued
    = (Rejected "Unknown agent: gemini", s')
  ∧ reachable s'
  ∧ folderLocks s' !! "/p" = Some "g"
  ∧ tasks s' !! "g"
    = Some (mkTask "g" "/p" "gemini" "x" None running [] None 1 (Some 2) None)
  ∧ runningProcesses s' !! "g" = None
  ∧ awaiting s' = []
  ∧ stopTask "g" 3 s' = (false, s')
  ∧ (∀ spawn now, getNextRunnableTasks s'' = []
                  ∧ apply_event (ESchedule spawn now) s'' = s'').
Proof.
  intros s' s''.
  split_and!.
  - reflexivity.
  - rewrite executeTask_unknown_agent by (discriminate || reflexivity). reflexivity.
  - apply reachable_step; [|exact I].
    apply reachable_step; [apply reachable_init|].
    split_and!; [discriminate | reflexivity | reflexivity |].
    intros task Hin. by apply not_elem_of_nil in Hin.
  - reflexivity.
  - reflexivity.
  - reflexivity.
  - reflexivity.
  - reflexivity.
  - intros spawn now. split; reflexivity.
Qed.

(** ** The order list and the registry *)

Lemma swap_members (p q : nat) (l : list string) (xp xq : string) :
  l !! p = Some xp → l !! q = Some xq →
  (NoDup l → NoDup (swap (Z.of_nat p) (Z.of_nat q) l))
  ∧ ∀ x, x ∈ swap (Z.of_nat p) (Z.of_nat q) l ↔ x ∈ l.
Proof.
  intros Hp Hq.
  destruct (swap_spec p q l xp xq Hp Hq) as (_ & Hsp & Hsq & Hother).
  set (l' := swap (Z.of_nat p) (Z.of_nat q) l) in *.
  set (other_side := λ k : nat,
         if decide (k = p) then q else if decide (k = q) then p else k).
  assert (∀ k, l' !! k = l !! other_side k) as Hlook.
  { intros k. unfold other_side. destruct (decide (k = p)) as [->|Hkp]; [congruence|].
    destruct (decide (k = q)) as [->|Hkq]; [congruence|]. by apply Hother. }
  assert (∀ k, other_side (other_side k) = k) as Hinv.
  { intros k. unfold other_side. repeat case_decide; congruence. }
  split.
  - rewrite !NoDup_alt. intros Hnd a b x Ha Hb. rewrite Hlook in Ha, Hb.
    pose proof (Hnd _ _ _ Ha Hb) as Heq.
    rewrite <- (Hinv a), <- (Hinv b). by rewrite Heq.
  - intros x. rewrite !list_elem_of_lookup. split; intros [k Hk].
    + exists (other_side k). by rewrite <- Hlook.
    + exists (other_side k). by rewrite Hlook, Hinv.
Qed.

Lemma order_inv_init : order_inv init.
Proof.
  split; simpl; [constructor|]. intros taskId. rewrite lookup_empty, elem_of_nil.
  split; [done | by intros [? ?]].
Qed.

Lemma order_inv_create newId now folder ag pr orig s :
  order_inv s → fresh newId s →
  order_inv (createTask newId now folder ag pr orig s).2.
Proof.
  intros [Hnd Hdom] (_ & Hnew & _). split; simpl.
  - apply NoDup_app. split_and!; [done | | apply NoDup_singleton].
    intros x Hx ->%list_elem_of_singleton. apply Hdom in Hx as [? Hx]. congruence.
  - intros taskId. rewrite elem_of_app, list_elem_of_singleton, lookup_insert_is_Some'.
    rewrite Hdom. split; intros [?|?]; auto.
Qed.

Lemma order_inv_reorder taskId direction s :
  order_inv s → order_inv (reorderTask taskId direction s).2.
Proof.
  intros [Hnd Hdom]. unfold reorderTask.
  destruct (indexOf_spec taskId (taskOrder s)) as [[-> _] | (p & Hp & Hlook & _)];
    [done|].
  rewrite Hp. destruct (Z.of_nat p =? -1); [done|].
  set (newIndex := match direction with up => _ | down => _ end).
  destruct (_ || _) eqn:Hbounds; [done|]. simpl.
  apply orb_false_iff in Hbounds as [Hlow Hhigh].
  assert (∃ q : nat, newIndex = Z.of_nat q ∧ (q < length (taskOrder s))%nat)
    as (q & -> & Hq).
  { exists (Z.to_nat newIndex). lia. }
  destruct (lookup_lt_is_Some_2 _ _ Hq) as [xq Hxq].
  destruct (swap_members p q (taskOrder s) taskId xq Hlook Hxq) as [Hnd' Hmem].
  split; [by apply Hnd'|]. intros x. by rewrite Hmem.
Qed.

Lemma order_inv_remove taskId s :
  order_inv s → order_inv (removeTask taskId s).2.
Proof.
  intros [Hnd Hdom]. unfold removeTask.
  destruct (tasks s !! taskId) as [task|] eqn:Htask; [|done]. simpl.
  assert (taskId ∈ taskOrder s) as Hin by (apply Hdom; by rewrite Htask).
  destruct (indexOf_spec taskId (taskOrder s)) as [[_ Hnot] | (p & Hp & Hlook & _)];
    [done|].
  replace (indexOf taskId (taskOrder s) >? -1) with true by lia.
  split; simpl.
  - eapply sublist_NoDup; [done | apply sublist_delete].
  - intros x. rewrite lookup_delete_is_Some. destruct (decide (x = taskId)) as [->|Hne].
    + split; [|by intros [? _]]. intros Hx.
      by apply (NoDup_delete_indexOf taskId (taskOrder s)) in Hx.
    + rewrite elem_of_delete_indexOf by (done || lia). rewrite Hdom.
      split; [by intros ? | by intros [_ ?]].
Qed.

(** Steps that keep the order and the set of registered identifiers. *)
Lemma order_inv_same_ids s s' :
  order_inv s → taskOrder s' = taskOrder s →
  (∀ taskId, is_Some (tasks s' !! taskId) ↔ is_Some (tasks s !! taskId)) →
  order_inv s'.
Proof.
  intros [Hnd Hdom] Horder Hids. split; rewrite Horder; [done|].
  intros taskId. by rewrite Hids.
Qed.

Lemma stopTask_order taskId now s : taskOrder (stopTask taskId now s).2 = taskOrder s.
Proof.
  unfold stopTask, getTask. destruct (runningProcesses s !! taskId); [|done].
  simpl. destruct (tasks s !! taskId); [|done]. simpl.
  by rewrite pushOutput_order, updateTask_order, releaseFolderLock_order.
Qed.

Lemma started_order task now s : taskOrder (started task now s) = taskOrder s.
Proof. unfold started. by rewrite updateTask_order. Qed.

Lemma executeTask_order task spawn now s :
  taskOrder (executeTask task spawn now s).2 = taskOrder s.
Proof.
  rewrite executeTask_unfold.
  destruct (canStartTask task s); [|done].
  destruct (buildCommand task); simpl; [apply started_order|].
  destruct spawn; simpl; [apply started_order|].
  unfold executeTask_catch.
  rewrite updateTask_order, pushOutput_order, releaseFolderLock_order. simpl.
  apply started_order.
Qed.

Lemma executeTask_ids task spawn now s taskId :
  is_Some (tasks (executeTask task spawn now s).2 !! taskId)
  ↔ is_Some (tasks s !! taskId).
Proof.
  destruct (decide (taskId = id task)) as [->|Hne];
    [|by rewrite executeTask_frame].
  rewrite executeTask_unfold. destruct (canStartTask task s); [|done].
  destruct (buildCommand task); simpl.
  - by rewrite started_lookup, bool_decide_eq_true_2, fmap_is_Some.
  - destruct spawn; simpl.
    + by rewrite started_lookup, bool_decide_eq_true_2, fmap_is_Some.
    + rewrite executeTask_catch_lookup, bool_decide_eq_true_2, fmap_is_Some by done.
      by rewrite started_lookup, bool_decide_eq_true_2, fmap_is_Some.
Qed.

Lemma order_inv_dispatch spawn now selected s :
  order_inv s → order_inv (dispatch spawn now selected s).
Proof.
  revert s. induction selected as [|task rest IH]; intros s Hinv; [done|].
  simpl. apply IH. apply (order_inv_same_ids s); [done | |].
  - apply executeTask_order.
  - apply executeTask_ids.
Qed.

Lemma order_inv_event s e : order_inv s → enabled s e → order_inv (apply_event e s).
Proof.
  intros Hinv Hen. destruct e; simpl in *.
  - by apply order_inv_create.
  - by apply order_inv_reorder.
  - by apply order_inv_remove.
  - apply (order_inv_same_ids s); [done | apply stopTask_order |].
    intros other. destruct (runningProcesses s !! taskId) as [proc|] eqn:Hproc.
    + rewrite (stopTask_lookup _ _ _ proc) by done.
      case_bool_decide as Hc; [|done]. subst. by rewrite fmap_is_Some.
    + by rewrite stopTask_idle.
  - by apply order_inv_dispatch.
  - destruct (awaiting s !! k) as [captured|]; [|done].
    apply (order_inv_same_ids s); [done | apply pushOutput_order |].
    intros other. rewrite pushOutput_lookup.
    case_bool_decide as Hc; [|done]. subst. by rewrite fmap_is_Some.
  - destruct (awaiting s !! k) as [captured|]; [|done].
    apply (order_inv_same_ids s); [done | |].
    + unfold executeTask_resume.
      by rewrite updateTask_order, releaseFolderLock_order.
    + intros other. rewrite executeTask_resume_lookup. simpl.
      case_bool_decide as Hc; [|done]. subst. by rewrite fmap_is_Some.
Qed.

Lemma reachable_order_inv s : reachable s → order_inv s.
Proof.
  induction 1 as [|s e _ IH Hen]; [apply order_inv_init|].
  by apply order_inv_event.
Qed.

(** ** Removal *)

(** C9.  Removing a running task that has a process: the call answers
    [true]; the task leaves the registry while every other task stays; no
    lock entry of its folder names it any more and the entries of other
    folders stay; [runningProcesses] is not touched, so [isTaskRunning]
    still answers [true] for the removed identifier.  The order list loses
    the identifier (its first occurrence; the only one when identifiers
    are distinct, as in every reachable state).  In a reachable state the
    task did hold the lock of its folder, and afterwards no entry names
    it. *)
Theorem removeTask_keeps_process
    (taskId : string) (task : Task) (proc : Process) (s : State) :
  tasks s !! taskId = Some task →
  status task = running →
  runningProcesses s !! taskId = Some proc →
  ∃ s', removeTask taskId s = (true, s')
    ∧ tasks s' !! taskId = None
    ∧ (∀ other, other ≠ taskId →
         tasks s' !! other = tasks s !! other
         ∧ (other ∈ taskOrder s' ↔ other ∈ taskOrder s))
    ∧ folderLocks s' !! folderPath task ≠ Some taskId
    ∧ (∀ folder, folder ≠ folderPath task →
         folderLocks s' !! folder = folderLocks s !! folder)
    ∧ runningProcesses s' = runningProcesses s
    ∧ runningProcesses s' !! taskId = Some proc
    ∧ isTaskRunning taskId s' = true
    ∧ (NoDup (taskOrder s) → taskId ∉ taskOrder s')
    ∧ (reachable s →
         (taskId ∉ taskOrder s')
         ∧ folderLocks s !! folderPath task = Some taskId
         ∧ folderLocks s' !! folderPath task = None
         ∧ ∀ folder holder, folderLocks s' !! folder = Some holder → holder ≠ taskId).
Proof.
  intros Htask Hrun Hproc.
  assert (NoDup (taskOrder s) → taskId ∉ taskOrder (removeTask taskId s).2) as Hgone.
  { intros Hnd. unfold removeTask. rewrite Htask. simpl.
    destruct (indexOf_spec taskId (taskOrder s)) as [[-> Hnot] | (i & Hi & Hl & _)];
      [done|].
    rewrite Hi. Zcompare. rewrite <- Hi. apply NoDup_delete_indexOf; [done|].
    by eapply list_elem_of_lookup_2. }
  exists (removeTask taskId s).2. split_and!.
  - unfold removeTask. by rewrite Htask.
  - unfold removeTask. rewrite Htask. simpl. apply lookup_delete_eq.
  - intros other Hne. unfold removeTask. rewrite Htask. simpl.
    split; [by apply lookup_delete_ne|].
    destruct (indexOf_spec taskId (taskOrder s)) as [[-> Hnot] | (i & Hi & Hl & _)];
      [done|].
    rewrite Hi. Zcompare. rewrite <- Hi. apply elem_of_delete_indexOf; [done | lia].
  - unfold removeTask. rewrite Htask. simpl.
    case_bool_decide as Hheld; [by rewrite lookup_delete_eq | done].
  - intros folder Hne. unfold removeTask. rewrite Htask. simpl.
    case_bool_decide; [by rewrite lookup_delete_ne | done].
  - unfold removeTask. by rewrite Htask.
  - unfold removeTask. by rewrite Htask.
  - unfold removeTask, isTaskRunning. rewrite Htask. simpl. rewrite Hproc.
    by apply bool_decide_eq_true_2.
  - done.
  - intros Hreach.
    pose proof (reachable_registry_inv s Hreach) as Hinv.
    destruct (reachable_order_inv s Hreach) as [Hnd _].
    pose proof (inv_running s Hinv _ _ Htask Hrun) as Hlock.
    split_and!; [by apply Hgone | done | |].
    + unfold removeTask. rewrite Htask. simpl.
      rewrite bool_decide_eq_true_2 by done. apply lookup_delete_eq.
    + intros folder holder Hl ->.
      destruct (inv_holder _ (registry_inv_remove taskId s Hinv) _ _ Hl)
        as (t & Ht & _).
      unfold removeTask in Ht. rewrite Htask in Ht. simpl in Ht.
      by rewrite lookup_delete_eq in Ht.
Qed.

Lemma removeTask_keeps_process_witness :
  ∃ s', removeTask "a" first_running = (true, s')
    ∧ tasks s' !! "a" = None
    ∧ folderLocks s' !! "/p" = None
    ∧ isTaskRunning "a" s' = true.
Proof.
  destruct (removeTask_keeps_process "a"
              (mkTask "a" "/p" "claude" "x" None running [] None 1 (Some 3) None)
              (mkProcess ["claude"; "-p"; "x"] (InFolder "/p"))
              first_running)
    as (s' & Hr & Hgone & _ & _ & _ & _ & _ & Hrun & _ & Hreach).
  - reflexivity.
  - reflexivity.
  - reflexivity.
  - exists s'. split_and!; [exact Hr | exact Hgone | | exact Hrun].
    by destruct (Hreach reachable_first_running) as (_ & _ & Hfree & _).
Defined.

(** ** Processes, suspended calls and the registry *)

Lemma execution_inv_init : execution_inv init.
Proof.
  split; simpl.
  - intros taskId proc task H. by rewrite lookup_empty in H.
  - intros captured task H. by apply not_elem_of_nil in H.
  - constructor.
Qed.

(** Steps that add no process and no suspended call, and that change a
    status only to one other than [queued] while leaving the task without
    a process. *)
Lemma execution_inv_shrink s s' :
  execution_inv s →
  (∀ x t', tasks s' !! x = Some t' →
     ∃ t, tasks s !! x = Some t
          ∧ (status t' = status t
             ∨ (status t' ≠ queued ∧ runningProcesses s' !! x = None))) →
  (∀ x proc, runningProcesses s' !! x = Some proc →
             runningProcesses s !! x = Some proc) →
  awaiting s' `sublist_of` awaiting s →
  execution_inv s'.
Proof.
  intros [Hp Ha Hd] Htasks Hprocs Hsub. split.
  - intros x proc t' Hproc Ht'.
    destruct (Htasks _ _ Ht') as (t & Ht & [-> | [_ Hnone]]); [|congruence].
    eapply Hp; eauto.
  - intros captured t' Hin Ht'. apply (sublist_subseteq _ _ Hsub) in Hin.
    destruct (Htasks _ _ Ht') as (t & Ht & [-> | [Hnq _]]); [|done].
    eapply Ha; eauto.
  - eapply sublist_NoDup; [exact Hd|]. by apply fmap_sublist.
Qed.

(** Reading back a registry in which one task was rewritten. *)
Lemma changed_lookup_inv (m m' : gmap string Task) taskId (change : Task -> Task) x t' :
  (∀ other, m' !! other =
      if bool_decide (other = taskId) then change <$> m !! taskId else m !! other) →
  m' !! x = Some t' →
  ∃ t, m !! x = Some t ∧ (x ≠ taskId ∧ t' = t ∨ x = taskId ∧ t' = change t).
Proof.
  intros Hm. rewrite Hm. case_bool_decide as Hc.
  - subst x. destruct (m !! taskId) as [t|]; [|done]. simpl. intros [= <-].
    exists t. split; [done|]. by right.
  - intros Ht. exists t'. split; [done|]. by left.
Qed.

Lemma execution_inv_create newId now folder ag pr orig s :
  execution_inv s → fresh newId s →
  execution_inv (createTask newId now folder ag pr orig s).2.
Proof.
  intros [Hp Ha Hd] (_ & Hnew & Hnoproc & Hcap). split; simpl; [| |done].
  - intros taskId proc t Hproc. destruct (decide (taskId = newId)) as [->|Hne].
    + congruence.
    + rewrite lookup_insert_ne by done. by eapply Hp.
  - intros captured t Hin. rewrite lookup_insert_ne by (symmetry; by apply Hcap).
    by apply Ha.
Qed.

Lemma stopTask_processes taskId now s :
  runningProcesses (stopTask taskId now s).2 = delete taskId (runningProcesses s).
Proof.
  unfold stopTask, getTask.
  destruct (runningProcesses s !! taskId) eqn:Hproc; simpl.
  - destruct (tasks s !! taskId); simpl; [|done].
    by rewrite pushOutput_processes, updateTask_processes, releaseFolderLock_processes.
  - symmetry. by apply delete_id.
Qed.

Lemma execution_inv_stop taskId now s :
  execution_inv s → execution_inv (stopTask taskId now s).2.
Proof.
  intros Hinv.
  destruct (runningProcesses s !! taskId) as [proc|] eqn:Hproc;
    [|by rewrite stopTask_idle].
  apply (execution_inv_shrink s); [done| | |].
  - intros x t' Ht'.
    destruct (changed_lookup_inv _ _ _ _ _ _
                (λ other, stopTask_lookup taskId now s proc other Hproc) Ht')
      as (t & Ht & [[_ ->] | [-> ->]]); exists t; (split; [done|]).
    + by left.
    + right. split; [done|]. rewrite stopTask_processes. apply lookup_delete_eq.
  - intros x p. rewrite stopTask_processes. by intros [_ ?]%lookup_delete_Some.
  - by rewrite stopTask_awaiting.
Qed.

Lemma execution_inv_resume k captured code now s :
  execution_inv s → awaiting s !! k = Some captured →
  execution_inv (executeTask_resume captured code now
                   (set_awaiting (delete k (awaiting s)) s)).
Proof.
  intros Hinv Hk. apply (execution_inv_shrink s); [done| | |].
  - intros x t' Ht'.
    destruct (changed_lookup_inv _ _ _ _ _ _
                (executeTask_resume_lookup captured code now _) Ht')
      as (t & Ht & [[_ ->] | [-> ->]]); exists t; (split; [done|]).
    + by left.
    + right. split; [simpl; by destruct (code =? 0)|].
      rewrite executeTask_resume_processes. apply lookup_delete_eq.
  - intros x p. rewrite executeTask_resume_processes.
    by intros [_ ?]%lookup_delete_Some.
  - unfold executeTask_resume.
    rewrite updateTask_awaiting, releaseFolderLock_awaiting. simpl.
    apply sublist_delete.
Qed.

Lemma execution_inv_output taskId lines s :
  execution_inv s → execution_inv (pushOutput taskId lines s).
Proof.
  intros Hinv. apply (execution_inv_shrink s); [done| | |].
  - intros x t' Ht'.
    destruct (changed_lookup_inv _ _ _ _ _ _ (pushOutput_lookup taskId lines s) Ht')
      as (t & Ht & [[_ ->] | [-> ->]]); exists t; (split; [done|]); by left.
  - intros x p. by rewrite pushOutput_processes.
  - by rewrite pushOutput_awaiting.
Qed.

Lemma execution_inv_remove taskId s :
  execution_inv s → execution_inv (removeTask taskId s).2.
Proof.
  intros Hinv. unfold removeTask.
  destruct (tasks s !! taskId) as [task|] eqn:Htask; [|done].
  apply (execution_inv_shrink s); [done| |done|done].
  simpl. intros x t' [_ Ht]%lookup_delete_Some. exists t'. split; [done | by left].
Qed.

Lemma execution_inv_reorder taskId direction s :
  execution_inv s → execution_inv (reorderTask taskId direction s).2.
Proof.
  intros Hinv. unfold reorderTask.
  destruct (_ =? _); [done|]. destruct (_ || _); [done|].
  apply (execution_inv_shrink s); [done| |done|done].
  simpl. intros x t' Ht. exists t'. split; [done | by left].
Qed.

Lemma executeTask_catch_processes task message now s :
  runningProcesses (executeTask_catch task message now s)
  = delete (id task) (runningProcesses s).
Proof.
  unfold executeTask_catch.
  by rewrite updateTask_processes, pushOutput_processes, releaseFolderLock_processes.
Qed.

Lemma executeTask_catch_awaiting task message now s :
  awaiting (executeTask_catch task message now s) = awaiting s.
Proof.
  unfold executeTask_catch.
  by rewrite updateTask_awaiting, pushOutput_awaiting, releaseFolderLock_awaiting.
Qed.

Lemma execution_inv_executeTask task spawn now s :
  execution_inv s →
  tasks s !! id task = Some task → status task = queued →
  execution_inv (executeTask task spawn now s).2.
Proof.
  intros Hinv Hreg Hq. rewrite executeTask_unfold.
  destruct (canStartTask task s); [|done].
  assert (runningProcesses s !! id task = None) as Hnoproc.
  { destruct (runningProcesses s !! id task) as [proc|] eqn:Hproc; [|done].
    pose proof (ex_process_running s Hinv _ _ _ Hproc Hreg). congruence. }
  assert (∀ captured, captured ∈ awaiting s → id captured ≠ id task) as Hnot.
  { intros captured Hin Heq. rewrite <- Heq in Hreg.
    by destruct (ex_awaiting_started s Hinv _ _ Hin Hreg). }
  destruct (buildCommand task) as [message|proc]; simpl.
  - apply (execution_inv_shrink s); [done| | |].
    + intros x t' Ht'.
      destruct (changed_lookup_inv _ _ _ _ _ _ (started_lookup task now s) Ht')
        as (t & Ht & [[_ ->] | [-> ->]]); exists t; (split; [done|]).
      * by left.
      * right. split; [done|]. by rewrite started_processes.
    + intros x p. by rewrite started_processes.
    + by rewrite started_awaiting.
  - destruct spawn as [|message caughtAt]; simpl.
    + split; simpl.
      * intros x p t'. rewrite started_lookup, started_processes.
        case_bool_decide as Hc.
        -- subst x. rewrite Hreg. simpl. by intros _ [= <-].
        -- rewrite lookup_insert_ne by done. apply (ex_process_running s Hinv).
      * intros captured t'. rewrite started_awaiting, started_lookup.
        intros [Hin | ->%list_elem_of_singleton]%elem_of_app.
        -- rewrite bool_decide_eq_false_2 by (by apply Hnot).
           by apply (ex_awaiting_started s Hinv).
        -- rewrite bool_decide_eq_true_2, Hreg by done. simpl. by intros [= <-].
      * rewrite started_awaiting, fmap_app. apply NoDup_app.
        split_and!; [apply (ex_awaiting_distinct s Hinv) | | apply NoDup_singleton].
        intros x (captured & -> & Hin)%list_elem_of_fmap.
        simpl. rewrite list_elem_of_singleton. by apply Hnot.
    + apply (execution_inv_shrink s); [done| | |].
      * intros x t' Ht'.
        destruct (changed_lookup_inv _ _ _ _ _ _
                    (executeTask_catch_lookup task message caughtAt _) Ht')
          as (t & Ht & [[Hne ->] | [-> ->]]).
        -- rewrite started_lookup, bool_decide_eq_false_2 in Ht by done.
           exists t. split; [done | by left].
        -- rewrite started_lookup, bool_decide_eq_true_2, Hreg in Ht by done.
           exists task. split; [done|]. right. split; [done|].
           rewrite executeTask_catch_processes. apply lookup_delete_eq.
      * intros x p. rewrite executeTask_catch_processes, started_processes.
        by intros [_ ?]%lookup_delete_Some.
      * by rewrite executeTask_catch_awaiting, started_awaiting.
Qed.

Lemma execution_inv_dispatch spawn now selected s :
  execution_inv s →
  NoDup (id <$> selected) →
  (∀ task, task ∈ selected → tasks s !! id task = Some task ∧ status task = queued) →
  execution_inv (dispatch spawn now selected s).
Proof.
  revert s. induction selected as [|task rest IH]; intros s Hinv Hnd Hsel; [done|].
  simpl. rewrite fmap_cons in Hnd. apply NoDup_cons in Hnd as [Hfirst Hnd].
  destruct (Hsel task) as [Hreg Hq]; [by left|].
  apply IH; [|done|].
  - by apply execution_inv_executeTask.
  - intros other Hin. destruct (Hsel other) as [Horeg Hoq]; [by right|].
    split; [|done]. rewrite executeTask_frame; [done|].
    intros Heq. apply Hfirst. rewrite <- Heq. by apply list_elem_of_fmap_2.
Qed.

Lemma execution_inv_event s e :
  registry_inv s → execution_inv s → enabled s e → execution_inv (apply_event e s).
Proof.
  intros Hreg Hinv Hen. destruct e; simpl in *.
  - by apply execution_inv_create.
  - by apply execution_inv_reorder.
  - by apply execution_inv_remove.
  - by apply execution_inv_stop.
  - destruct (getNextRunnableTasks_selected s Hreg) as [Hnd Hsel].
    by apply execution_inv_dispatch.
  - destruct (awaiting s !! k); [|done]. by apply execution_inv_output.
  - destruct (awaiting s !! k) eqn:Hk; [|done]. by apply execution_inv_resume.
Qed.

Lemma reachable_execution_inv s : reachable s → execution_inv s.
Proof.
  induction 1 as [|s e Hreach IH Hen]; [apply execution_inv_init|].
  apply execution_inv_event; [by apply reachable_registry_inv | done | done].
Qed.

(** ** When a terminal state is final *)

Lemma executeTask_awaiting task spawn now s captured :
  captured ∈ awaiting (executeTask task spawn now s).2 →
  captured ∈ awaiting s ∨ captured = task.
Proof.
  rewrite executeTask_unfold. destruct (canStartTask task s); [|by left].
  destruct (buildCommand task); simpl; [rewrite started_awaiting; by left|].
  destruct spawn; simpl.
  - rewrite started_awaiting, elem_of_app, list_elem_of_singleton. tauto.
  - rewrite executeTask_catch_awaiting, started_awaiting. by left.
Qed.

Lemma dispatch_awaiting spawn now selected s captured :
  captured ∈ awaiting (dispatch spawn now selected s) →
  captured ∈ awaiting s ∨ captured ∈ selected.
Proof.
  revert s. induction selected as [|task rest IH]; intros s; simpl; [by left|].
  intros [[Hin | ->]%executeTask_awaiting | Hin]%IH.
  - by left.
  - right. by left.
  - right. by right.
Qed.





Lemma reachable_stopped_then_exited : reachable stopped_then_exited.
Proof. apply reachable_step; [exact reachable_first_stopped | exact I]. Defined.


(** * Further properties of the code *)

(** ** Folder paths *)

Lemma normalizePath_cons (c : ascii) (rest : string) :
  normalizePath (String c rest) =
    match normalizePath rest with
    | EmptyString => if Ascii.eqb c "/" then EmptyString else String c EmptyString
    | r => String c r
    end.
Proof. reflexivity. Qed.

Lemma normalizePath_slashes_only (k : nat) : normalizePath (slashes k) = "".
Proof.
  induction k as [|k IH]; [done|].
  change (slashes (S k)) with (String "/" (slashes k)).
  by rewrite normalizePath_cons, IH.
Qed.

Lemma normalizePath_app_slashes (p : string) (k : nat) :
  normalizePath (p +:+ slashes k) = normalizePath p.
Proof.
  induction p as [|c p IH]; [apply normalizePath_slashes_only|].
  by rewrite string_app_cons, !normalizePath_cons, IH.
Qed.

Lemma slashes_snoc (k : nat) : slashes (S k) = slashes k +:+ "/".
Proof.
  induction k as [|k IH]; [done|].
  change (String "/" (slashes (S k)) = String "/" (slashes k) +:+ "/").
  rewrite string_app_cons. by f_equal.
Qed.

Lemma normalizePath_decompose (p : string) :
  (∃ k, p = normalizePath p +:+ slashes k)
  ∧ ∀ q, normalizePath p ≠ q +:+ "/".
Proof.
  induction p as [|c rest [[k Hk] Hend]].
  - split; [by exists 0%nat|]. intros [|? ?]; discriminate.
  - rewrite normalizePath_cons.
    destruct (normalizePath rest) as [|c' r] eqn:Hr.
    + destruct (Ascii.eqb_spec c "/") as [->|Hc].
      * split; [exists (S k); by rewrite Hk | intros [|? ?]; discriminate].
      * split; [exists k; by rewrite Hk|].
        intros [|c2 [|? ?]]; simpl; intros [=]; congruence.
    + split; [exists k; by rewrite Hk at 1|].
      intros [|c2 q]; simpl; [discriminate|]. intros [= <- Hq].
      by apply (Hend q).
Qed.

(** X1.  [normalizePath] removes the slashes at the end and nothing else:
    the path is what it returns followed by slashes only, what it returns
    does not end with a slash, and a path that does not end with a slash
    comes back as it is.  Applying it twice is the same as once, and paths
    that differ only in slashes at the end have the same normal form. *)
Theorem normalizePath_strips_trailing_slashes (p : string) :
  (∃ k, p = normalizePath p +:+ slashes k)
  ∧ (∀ q, normalizePath p ≠ q +:+ "/")
  ∧ ((∀ q, p ≠ q +:+ "/") → normalizePath p = p)
  ∧ normalizePath (normalizePath p) = normalizePath p
  ∧ ∀ k, normalizePath (p +:+ slashes k) = normalizePath p.
Proof.
  destruct (normalizePath_decompose p) as [[k Hk] Hend].
  split_and!.
  - by exists k.
  - done.
  - intros Hno. destruct k as [|k]; [by rewrite string_app_nil_r in Hk|].
    destruct (Hno (normalizePath p +:+ slashes k)).
    rewrite Hk at 1. rewrite string_app_assoc. f_equal. apply slashes_snoc.
  - rewrite Hk at 2. by rewrite normalizePath_app_slashes.
  - apply normalizePath_app_slashes.
Qed.

Example normalizePath_examples :
  normalizePath "/srv/app///" = "/srv/app"
  ∧ normalizePath "/srv//app" = "/srv//app"
  ∧ normalizePath "///" = ""
  ∧ normalizePath "" = "".
Proof. split_and!; reflexivity. Qed.

(** ** Creating tasks and taking locks *)

Lemma state_eta (s : State) :
  mkState (tasks s) (taskOrder s) (folderLocks s) (runningProcesses s) (awaiting s) = s.
Proof. by destruct s. Qed.

(** X2.  Folders given with and without slashes at the end are one
    folder for the lock table: two tasks created for [p] and for [p]
    followed by slashes have the same [folderPath]; both may start while
    the folder is free, and once the first has taken the lock the second
    may not start and cannot take it. *)
Theorem trailing_slashes_share_the_lock
    (s : State) (ida idb : string) (now1 now2 : Z) (p : string) (k : nat)
    (ag1 ag2 pr1 pr2 : string) (o1 o2 : option string) :
  ida ≠ idb → ida ≠ "" →
  folderLocks s !! normalizePath p = None →
  let ta := (createTask ida now1 p ag1 pr1 o1 s).1 in
  let s1 := (createTask ida now1 p ag1 pr1 o1 s).2 in
  let tb := (createTask idb now2 (p +:+ slashes k) ag2 pr2 o2 s1).1 in
  let s2 := (createTask idb now2 (p +:+ slashes k) ag2 pr2 o2 s1).2 in
  folderPath ta = folderPath tb
  ∧ getTask ida s2 = Some ta ∧ getTask idb s2 = Some tb
  ∧ canStartTask ta s2 = true ∧ canStartTask tb s2 = true
  ∧ ∃ s3, acquireFolderLock ta s2 = (true, s3)
          ∧ canStartTask ta s3 = true
          ∧ canStartTask tb s3 = false
          ∧ acquireFolderLock tb s3 = (false, s3).
Proof.
  intros Hab Ha Hfree ta s1 tb s2.
  assert (folderPath tb = folderPath ta) as Hsame.
  { simpl. apply normalizePath_app_slashes. }
  assert (canStartTask ta s2 = true) as Hca.
  { unfold canStartTask. simpl. by rewrite Hfree. }
  split_and!.
  - done.
  - unfold getTask. simpl. rewrite lookup_insert_ne by done. apply lookup_insert_eq.
  - unfold getTask. simpl. apply lookup_insert_eq.
  - done.
  - unfold canStartTask. rewrite Hsame. simpl. by rewrite Hfree.
  - unfold acquireFolderLock. rewrite Hca. simpl. eexists. split; [reflexivity|].
    assert (∀ t, folderPath t = folderPath ta →
              canStartTask t
                (set_folderLocks (<[folderPath ta := id ta]> (folderLocks s2)) s2)
              = bool_decide (ida = id t)) as Hcan.
    { intros t Ht. unfold canStartTask. rewrite Ht. simpl.
      rewrite lookup_insert_eq. rewrite (bool_decide_eq_false_2 (ida = "")) by done.
      done. }
    split_and!.
    + rewrite Hcan by done. by apply bool_decide_eq_true_2.
    + rewrite Hcan by done. by apply bool_decide_eq_false_2.
    + rewrite Hcan by done. by rewrite bool_decide_eq_false_2.
Qed.

Lemma trailing_slashes_share_the_lock_witness :
  folderPath (createTask "a" 1 "/p" "claude" "x" None init).1
  = folderPath (createTask "b" 2 "/p//" "codex" "y" None
                  (createTask "a" 1 "/p" "claude" "x" None init).2).1.
Proof.
  destruct (trailing_slashes_share_the_lock init "a" "b" 1 2 "/p" 2
              "claude" "codex" "x" "y" None None) as (Hsame & _).
  - discriminate.
  - discriminate.
  - reflexivity.
  - exact Hsame.
Defined.

(** X4.  Taking and giving back a lock.  A task that may not start gets
    [false] and the state is untouched.  On a free folder the task gets
    the lock; asking again gives the same state; releasing gives back
    the state from before; and meanwhile no task with another identifier
    may start in that folder. *)
Theorem acquireFolderLock_round_trip (task : Task) (s : State) :
  (canStartTask task s = false → acquireFolderLock task s = (false, s))
  ∧ (folderLocks s !! folderPath task = None →
     ∃ s', acquireFolderLock task s = (true, s')
       ∧ folderLocks s' !! folderPath task = Some (id task)
       ∧ (∀ folder, folder ≠ folderPath task →
            folderLocks s' !! folder = folderLocks s !! folder)
       ∧ acquireFolderLock task s' = (true, s')
       ∧ releaseFolderLock task s' = s
       ∧ (id task ≠ "" →
          ∀ other, folderPath other = folderPath task → id other ≠ id task →
                   acquireFolderLock other s' = (false, s'))).
Proof.
  split.
  - intros Hcan. unfold acquireFolderLock. by rewrite Hcan.
  - intros Hfree. unfold acquireFolderLock at 1, canStartTask. rewrite Hfree. simpl.
    eexists. split; [reflexivity|]. split_and!.
    + simpl. apply lookup_insert_eq.
    + intros folder Hne. simpl. by rewrite lookup_insert_ne.
    + unfold acquireFolderLock, canStartTask. simpl. rewrite lookup_insert_eq.
      rewrite (bool_decide_eq_true_2 (id task = id task)) by done.
      rewrite orb_true_r. simpl. rewrite insert_insert_eq. reflexivity.
    + unfold releaseFolderLock. simpl. rewrite lookup_insert_eq.
      rewrite bool_decide_eq_true_2 by done. unfold set_folderLocks. simpl.
      rewrite delete_insert_eq, delete_id by done. apply state_eta.
    + intros Hid other Hf Hne. unfold acquireFolderLock, canStartTask. rewrite Hf.
      simpl. rewrite lookup_insert_eq.
      by rewrite !bool_decide_eq_false_2 by done.
Qed.

Lemma acquireFolderLock_round_trip_witness :
  ∃ s', acquireFolderLock queued_a two_queued = (true, s')
        ∧ releaseFolderLock queued_a s' = two_queued.
Proof.
  destruct (acquireFolderLock_round_trip queued_a two_queued) as [_ Hfree].
  destruct (Hfree eq_refl) as (s' & Hacq & _ & _ & _ & Hrel & _).
  exists s'. split; [exact Hacq | exact Hrel].
Defined.

(** ** Listing the tasks *)

Lemma getAllTasks_ids s :
  registry_inv s → order_inv s → id <$> getAllTasks s = taskOrder s.
Proof.
  intros Hreg [_ Hmem]. unfold getAllTasks.
  assert (∀ taskId, taskId ∈ taskOrder s → is_Some (tasks s !! taskId)) as Hin
    by (intros taskId; apply Hmem).
  clear Hmem. induction (taskOrder s) as [|taskId order IH]; [done|].
  destruct (Hin taskId) as [task Htask]; [left|].
  simpl. rewrite Htask. simpl. f_equal.
  - by destruct (inv_keys s Hreg taskId task Htask).
  - apply IH. intros other Hother. apply Hin. by right.
Qed.

(** X3.  In every reachable state [getAllTasks] lists exactly the
    registered tasks, each once, in the order of [getTaskOrder]: the
    identifiers of the listed tasks are the order list, entry by entry. *)
Theorem getAllTasks_follows_the_order (s : State) :
  reachable s →
  id <$> getAllTasks s = getTaskOrder s
  ∧ length (getAllTasks s) = length (getTaskOrder s)
  ∧ NoDup (getAllTasks s)
  ∧ (∀ task, task ∈ getAllTasks s ↔ ∃ taskId, getTask taskId s = Some task)
  ∧ (∀ i task, getAllTasks s !! i = Some task →
               getTaskOrder s !! i = Some (id task)
               ∧ getTask (id task) s = Some task).
Proof.
  intros Hreach.
  pose proof (reachable_registry_inv s Hreach) as Hreg.
  pose proof (reachable_order_inv s Hreach) as Hord.
  pose proof (getAllTasks_ids s Hreg Hord) as Hids.
  assert (∀ task, task ∈ getAllTasks s ↔ ∃ taskId, getTask taskId s = Some task)
    as Hmem.
  { intros task. unfold getAllTasks, getTask. rewrite list_elem_of_omap. split.
    - intros (taskId & _ & Htask). eauto.
    - intros (taskId & Htask). exists taskId. split; [|done].
      apply Hord. by exists task. }
  unfold getTaskOrder. split_and!.
  - done.
  - by rewrite <- Hids, length_fmap.
  - apply (NoDup_fmap_1 id). rewrite Hids. apply Hord.
  - done.
  - intros i task Hi. split.
    + rewrite <- Hids, list_lookup_fmap, Hi. done.
    + assert (task ∈ getAllTasks s) as Hin by (by eapply list_elem_of_lookup_2).
      apply Hmem in Hin as (taskId & Htask). unfold getTask in *.
      destruct (inv_keys s Hreg taskId task Htask) as [-> _]. done.
Qed.

Lemma getAllTasks_follows_the_order_witness :
  id <$> getAllTasks first_running = ["a"; "b"].
Proof.
  destruct (getAllTasks_follows_the_order first_running reachable_first_running)
    as (Hids & _).
  exact Hids.
Defined.

(** ** One runnable task and all of them *)

Lemma getNextRunnableTasks_loop_app s order runnable (foldersToStart : gset string) :
  getNextRunnableTasks_loop s order runnable foldersToStart
  = runnable ++ getNextRunnableTasks_loop s order [] foldersToStart.
Proof.
  revert runnable foldersToStart. induction order as [|taskId order IH];
    intros runnable foldersToStart.
  - simpl. by rewrite app_nil_r.
  - rewrite !getNextRunnableTasks_loop_cons.
    destruct (tasks s !! taskId) as [task|]; [|apply IH].
    destruct (eligible s task && negb (bool_decide (folderPath task ∈ foldersToStart)));
      [|apply IH].
    rewrite (IH (runnable ++ [task])), (IH ([] ++ [task])).
    by rewrite <- app_assoc.
Qed.

Lemma getNextRunnableTask_from_head s order :
  getNextRunnableTask_from order s = head (getNextRunnableTasks_loop s order [] ∅).
Proof.
  induction order as [|taskId order IH]; [done|].
  rewrite getNextRunnableTasks_loop_cons. simpl.
  destruct (tasks s !! taskId) as [task|]; [|done].
  fold (eligible s task).
  rewrite (bool_decide_eq_false_2 (folderPath task ∈ (∅ : gset string)))
    by apply not_elem_of_empty.
  rewrite andb_true_r.
  destruct (eligible s task); [|done].
  by rewrite getNextRunnableTasks_loop_app.
Qed.

(** X5.  The single-task selection is the head of the parallel one:
    [getNextRunnableTask] returns the first element of
    [getNextRunnableTasks], and nothing exactly when that list is empty.
    The task it returns is queued, may start, and stands in the order
    list before every other queued task that may start. *)
Theorem getNextRunnableTask_is_head (s : State) :
  getNextRunnableTask s = head (getNextRunnableTasks s)
  ∧ (getNextRunnableTask s = None ↔ getNextRunnableTasks s = [])
  ∧ (getNextRunnableTask s = None ↔
     ∀ i task, at_position s i task → eligible s task = false)
  ∧ ∀ task, getNextRunnableTask s = Some task →
      status task = queued ∧ canStartTask task s = true
      ∧ ∃ i, at_position s i task
             ∧ ∀ j other, (j < i)%nat → at_position s j other →
                          eligible s other = false.
Proof.
  assert (getNextRunnableTask s = head (getNextRunnableTasks s)) as Hhead
    by apply getNextRunnableTask_from_head.
  assert (∀ order,
            (getNextRunnableTask_from order s = None ↔
             ∀ i taskId task, order !! i = Some taskId →
                              tasks s !! taskId = Some task → eligible s task = false)
            ∧ ∀ task, getNextRunnableTask_from order s = Some task →
                eligible s task = true
                ∧ ∃ i taskId, order !! i = Some taskId ∧ tasks s !! taskId = Some task
                    ∧ ∀ j otherId other, (j < i)%nat → order !! j = Some otherId →
                        tasks s !! otherId = Some other → eligible s other = false)
    as Hfrom.
  { induction order as [|taskId order [IHnone IHsome]].
    - split; [split; [by intros _ i ? ? ?|done]|done].
    - simpl. destruct (tasks s !! taskId) as [task|] eqn:Htask.
      + fold (eligible s task). destruct (eligible s task) eqn:Hel.
        * split.
          -- split; [done|]. intros Hall.
             specialize (Hall 0%nat taskId task eq_refl Htask). congruence.
          -- intros ? [= <-]. split; [done|]. exists 0%nat, taskId.
             split_and!; [done..|]. intros j ? ? Hj. lia.
        * split.
          -- rewrite IHnone. split.
             ++ intros Hall [|i] otherId other Hi Hother.
                ** simpl in Hi. injection Hi as <-. congruence.
                ** by eapply (Hall i).
             ++ intros Hall i otherId other Hi Hother.
                by eapply (Hall (S i)).
          -- intros found Hfound.
             destruct (IHsome found Hfound) as (Hfel & i & foundId & Hi & Hf & Hbefore).
             split; [done|]. exists (S i), foundId. split_and!; [done..|].
             intros [|j] otherId other Hj Hjo Hother.
             ** simpl in Hjo. injection Hjo as <-. congruence.
             ** eapply (Hbefore j); [lia|done..].
      + split.
        * rewrite IHnone. split.
          -- intros Hall [|i] otherId other Hi Hother.
             ++ simpl in Hi. injection Hi as <-. congruence.
             ++ by eapply (Hall i).
          -- intros Hall i otherId other Hi Hother. by eapply (Hall (S i)).
        * intros found Hfound.
          destruct (IHsome found Hfound) as (Hfel & i & foundId & Hi & Hf & Hbefore).
          split; [done|]. exists (S i), foundId. split_and!; [done..|].
          intros [|j] otherId other Hj Hjo Hother.
          -- simpl in Hjo. injection Hjo as <-. congruence.
          -- eapply (Hbefore j); [lia|done..]. }
  destruct (Hfrom (taskOrder s)) as [Hnone Hsome].
  split_and!.
  - done.
  - rewrite Hhead. by destruct (getNextRunnableTasks s).
  - unfold getNextRunnableTask. rewrite Hnone. unfold at_position. split.
    + intros Hall i task (taskId & Hi & Htask). by eapply Hall.
    + intros Hall i taskId task Hi Htask. apply (Hall i). eauto.
  - intros task Htask.
    destruct (Hsome task Htask) as (Hel & i & taskId & Hi & Hreg & Hbefore).
    apply eligible_true in Hel as [Hq Hcan]. split_and!; [done..|].
    exists i. split; [by exists taskId|].
    intros j other Hj (otherId & Hjo & Hother). by eapply Hbefore.
Qed.

Lemma first_eligible_exists s order i taskId task :
  order !! i = Some taskId → tasks s !! taskId = Some task →
  eligible s task = true →
  ∃ k selected, first_eligible_at s order k selected
                ∧ folderPath selected = folderPath task.
Proof.
  revert i. induction order as [|headId order IH]; intros i Hi Htask Hel; [done|].
  destruct i as [|i].
  - simpl in Hi. injection Hi as ->. exists 0%nat, task.
    split; [|done]. by apply first_eligible_at_0.
  - simpl in Hi. destruct (IH i Hi Htask Hel) as (k & selected & Hk & Hf).
    destruct (tasks s !! headId) as [headTask|] eqn:Hhead.
    + destruct (eligible s headTask) eqn:Hhel.
      * destruct (decide (folderPath headTask = folderPath task)) as [Hsame|Hdiff].
        -- exists 0%nat, headTask. split; [|done]. by apply first_eligible_at_0.
        -- exists (S k), selected. split; [|done]. apply first_eligible_at_S.
           split; [done|]. intros other Ho _. congruence.
      * exists (S k), selected. split; [|done]. apply first_eligible_at_S.
        split; [done|]. intros other Ho ?. congruence.
    + exists (S k), selected. split; [|done]. apply first_eligible_at_S.
      split; [done|]. intros other ?. congruence.
Qed.

(** X6.  Every folder that has a queued task which may start is served
    by the pass, and by one task only: [getNextRunnableTasks] contains
    exactly one task of that folder.  So tasks waiting for different free
    folders are all started by the same pass. *)
Theorem getNextRunnableTasks_serves_every_folder
    (s : State) (i : nat) (task : Task) :
  at_position s i task →
  status task = queued →
  canStartTask task s = true →
  ∃ selected,
    selected ∈ getNextRunnableTasks s
    ∧ folderPath selected = folderPath task
    ∧ status selected = queued ∧ canStartTask selected s = true
    ∧ ∀ other, other ∈ getNextRunnableTasks s →
               folderPath other = folderPath task → other = selected.
Proof.
  intros Hpos Hq Hcan.
  assert (eligible s task = true) as Hel by (by apply eligible_true).
  destruct Hpos as (taskId & Hi & Htask).
  destruct (first_eligible_exists s (taskOrder s) i taskId task Hi Htask Hel)
    as (k & selected & Hk & Hf).
  exists selected.
  assert (selected ∈ getNextRunnableTasks s) as Hin
    by (apply getNextRunnableTasks_elem; eauto).
  destruct Hk as (_ & Hsel & _). apply eligible_true in Hsel as [Hsq Hsc].
  split_and!; [done..|].
  intros other Hother Hfo.
  pose proof (getNextRunnableTasks_loop_folders s (taskOrder s) [] ∅) as Hnodup.
  fold (getNextRunnableTasks s) in Hnodup.
  assert (NoDup (folderPath <$> getNextRunnableTasks s)) as Hnd.
  { apply Hnodup; [|constructor]. intros folder. simpl.
    rewrite elem_of_nil. split; [by intros ?%not_elem_of_empty|done]. }
  apply list_elem_of_lookup in Hother as [a Ha]. apply list_elem_of_lookup in Hin as [b Hb].
  assert (a = b) as ->.
  { eapply (NoDup_lookup _ a b (folderPath task) Hnd).
    - by rewrite list_lookup_fmap, Ha; simpl; rewrite Hfo.
    - by rewrite list_lookup_fmap, Hb; simpl; rewrite Hf. }
  congruence.
Qed.

Lemma getNextRunnableTasks_serves_every_folder_witness :
  ∃ selected, selected ∈ getNextRunnableTasks two_queued
              ∧ folderPath selected = "/p".
Proof.
  destruct (getNextRunnableTasks_serves_every_folder two_queued 1
              (mkTask "b" "/p" "codex" "y" None queued [] None 2 None None))
    as (selected & Hin & Hf & _).
  - exists "b". split; reflexivity.
  - reflexivity.
  - reflexivity.
  - exists selected. split; [exact Hin | exact Hf].
Defined.

(** ** Moving a task in the order list *)

Lemma set_taskOrder_twice (l l' : list string) (s : State) :
  set_taskOrder l (set_taskOrder l' s) = set_taskOrder l s.
Proof. reflexivity. Qed.

Lemma set_taskOrder_same (s : State) : set_taskOrder (taskOrder s) s = s.
Proof. by destruct s. Qed.

Lemma indexOf_app (x : string) (before rest : list string) :
  x ∉ before → indexOf x (before ++ x :: rest) = Z.of_nat (length before).
Proof.
  induction before as [|y before IH]; intros Hnot.
  - simpl. by rewrite bool_decide_eq_true_2.
  - apply not_elem_of_cons in Hnot as [Hne Hnot].
    change (indexOf x ((y :: before) ++ x :: rest))
      with (if bool_decide (y = x) then 0
            else let r := indexOf x (before ++ x :: rest) in
                 if r =? -1 then -1 else r + 1).
    rewrite bool_decide_eq_false_2 by congruence.
    rewrite (IH Hnot). simpl length. cbv zeta. Zcompare; lia.
Qed.

Lemma swap_adjacent (before after : list string) (x y : string) :
  let n := Z.of_nat (length before) in
  swap n (n + 1) (before ++ x :: y :: after) = before ++ y :: x :: after
  ∧ swap (n + 1) n (before ++ x :: y :: after) = before ++ y :: x :: after.
Proof.
  intros n. unfold swap, n.
  replace (Z.to_nat (Z.of_nat (length before) + 1)) with (S (length before)) by lia.
  rewrite Nat2Z.id.
  assert ((before ++ x :: y :: after) !! length before = Some x) as Hx.
  { rewrite lookup_app_r by lia. by rewrite Nat.sub_diag. }
  assert ((before ++ x :: y :: after) !! S (length before) = Some y) as Hy.
  { rewrite lookup_app_r by lia.
    by replace (S (length before) - length before)%nat with 1%nat by lia. }
  rewrite Hx, Hy. split.
  - rewrite (insert_app_r_alt before _ (length before)) by lia.
    rewrite Nat.sub_diag. simpl.
    rewrite (insert_app_r_alt before _ (S (length before))) by lia.
    by replace (S (length before) - length before)%nat with 1%nat by lia.
  - rewrite (insert_app_r_alt before _ (S (length before))) by lia.
    replace (S (length before) - length before)%nat with 1%nat by lia. simpl.
    rewrite (insert_app_r_alt before _ (length before)) by lia.
    by rewrite Nat.sub_diag.
Qed.

Lemma indexOf_split (x : string) (l : list string) (i : nat) :
  indexOf x l = Z.of_nat i →
  ∃ before after, l = before ++ x :: after ∧ length before = i ∧ x ∉ before.
Proof.
  intros Hi. destruct (indexOf_spec x l) as [[Habs _]|(k & Hk & Hat & Hfirst)]; [lia|].
  assert (k = i) as -> by lia.
  apply list_elem_of_split_length in Hat as (before & after & -> & ->).
  exists before, after. split_and!; [done..|].
  intros Hin. apply list_elem_of_lookup in Hin as [j Hj].
  apply (Hfirst j).
  - by eapply lookup_lt_Some.
  - rewrite lookup_app_l; [done|]. by eapply lookup_lt_Some.
Qed.

Lemma reorderTask_up_success (taskId : string) (s s' : State) :
  reorderTask taskId up s = (true, s') ↔
  ∃ before x after,
    taskOrder s = before ++ x :: taskId :: after
    ∧ (taskId ∉ before) ∧ x ≠ taskId
    ∧ s' = set_taskOrder (before ++ taskId :: x :: after) s.
Proof.
  unfold reorderTask. split.
  - intros Hre.
    destruct (indexOf_spec taskId (taskOrder s)) as [[Habs _]|(i & Hi & _)].
    { rewrite Habs in Hre. simpl in Hre. congruence. }
    destruct (indexOf_split _ _ _ Hi) as (before0 & after & Hl & Hlen & Hnot).
    rewrite Hi in Hre. revert Hre. Zcompare; simpl; try congruence.
    destruct (exists_last (l:=before0)) as (before & x & ->).
    { intros ->. simpl in Hlen. lia. }
    apply not_elem_of_app in Hnot as [Hnot Hx].
    rewrite <- app_assoc in Hl. simpl in Hl.
    rewrite length_app in Hlen. simpl in Hlen.
    intros [= <-]. exists before, x, after. split_and!; [done..| |].
    + intros ->. apply Hx. left.
    + f_equal. rewrite Hl.
      replace (Z.of_nat i) with (Z.of_nat (length before) + 1) by lia.
      replace (Z.of_nat (length before) + 1 - 1) with (Z.of_nat (length before)) by lia.
      apply swap_adjacent.
  - intros (before & x & after & Hl & Hnot & Hne & ->).
    assert (indexOf taskId (taskOrder s) = Z.of_nat (length before) + 1) as Hi.
    { rewrite Hl.
      replace (before ++ x :: taskId :: after)
        with ((before ++ [x]) ++ taskId :: after) by (by rewrite <- app_assoc).
      rewrite indexOf_app.
      - rewrite length_app. simpl. lia.
      - rewrite not_elem_of_app, list_elem_of_singleton. split; congruence. }
    rewrite Hi. rewrite Hl at 1. rewrite length_app. simpl length.
    Zcompare; simpl; try lia.
    f_equal. f_equal. rewrite Hl.
    replace (Z.of_nat (length before) + 1 - 1) with (Z.of_nat (length before)) by lia.
    apply swap_adjacent.
Qed.

Lemma reorderTask_down_success (taskId : string) (s s' : State) :
  reorderTask taskId down s = (true, s') ↔
  ∃ before y after,
    taskOrder s = before ++ taskId :: y :: after
    ∧ (taskId ∉ before)
    ∧ s' = set_taskOrder (before ++ y :: taskId :: after) s.
Proof.
  unfold reorderTask. split.
  - intros Hre.
    destruct (indexOf_spec taskId (taskOrder s)) as [[Habs _]|(i & Hi & _)].
    { rewrite Habs in Hre. simpl in Hre. congruence. }
    destruct (indexOf_split _ _ _ Hi) as (before & after0 & Hl & Hlen & Hnot).
    rewrite Hi in Hre. revert Hre. rewrite Hl at 1. rewrite length_app. simpl length.
    Zcompare; simpl; try congruence.
    destruct after0 as [|y after]; [simpl in *; lia|].
    intros [= <-]. exists before, y, after. split_and!; [done..|].
    f_equal. rewrite Hl, <- Hlen. apply swap_adjacent.
  - intros (before & y & after & Hl & Hnot & ->).
    assert (indexOf taskId (taskOrder s) = Z.of_nat (length before)) as Hi
      by (rewrite Hl; by apply indexOf_app).
    rewrite Hi. rewrite Hl at 1. rewrite length_app. simpl length.
    Zcompare; simpl; try lia.
    f_equal. f_equal. rewrite Hl. apply swap_adjacent.
Qed.

(** X7.  A successful [reorderTask] is the exchange of two neighbours
    and nothing else.  Moving up succeeds exactly when the first
    occurrence of the task has a predecessor, and exchanges the two;
    moving down succeeds exactly when it has a successor, and exchanges
    those.  The new order is a permutation of the old one, and the
    registry, the lock table and the processes are as before. *)
Theorem reorderTask_exchanges_neighbours
    (taskId : string) (direction : Direction) (s s' : State) :
  (reorderTask taskId direction s = (true, s') ↔
   ∃ before x y after,
     taskOrder s = before ++ x :: y :: after
     ∧ (taskId ∉ before)
     ∧ match direction with
       | up => y = taskId ∧ x ≠ taskId
       | down => x = taskId
       end
     ∧ s' = set_taskOrder (before ++ y :: x :: after) s)
  ∧ taskOrder (reorderTask taskId direction s).2 ≡ₚ taskOrder s
  ∧ tasks (reorderTask taskId direction s).2 = tasks s
  ∧ folderLocks (reorderTask taskId direction s).2 = folderLocks s
  ∧ runningProcesses (reorderTask taskId direction s).2 = runningProcesses s.
Proof.
  assert (reorderTask taskId direction s = (true, s') ↔
   ∃ before x y after,
     taskOrder s = before ++ x :: y :: after
     ∧ (taskId ∉ before)
     ∧ match direction with
       | up => y = taskId ∧ x ≠ taskId
       | down => x = taskId
       end
     ∧ s' = set_taskOrder (before ++ y :: x :: after) s) as Hiff.
  { destruct direction.
    - rewrite reorderTask_up_success. split.
      + intros (before & x & after & Hl & Hnot & Hne & Hs').
        by exists before, x, taskId, after.
      + intros (before & x & y & after & Hl & Hnot & [-> Hne] & Hs').
        by exists before, x, after.
    - rewrite reorderTask_down_success. split.
      + intros (before & y & after & Hl & Hnot & Hs').
        by exists before, taskId, y, after.
      + intros (before & x & y & after & Hl & Hnot & -> & Hs').
        by exists before, y, after. }
  split; [exact Hiff|].
  assert (∀ r, reorderTask taskId direction s = r →
               r = (false, s) ∨ ∃ s1, r = (true, s1)) as Hcases.
  { intros r <-. unfold reorderTask.
    destruct (_ =? _); [by left|]. destruct (_ || _); [by left|]. right. eauto. }
  destruct (Hcases _ eq_refl) as [Hfalse|[s1 Htrue]].
  - rewrite Hfalse. done.
  - rewrite Htrue. simpl.
    assert (∃ before x y after,
              taskOrder s = before ++ x :: y :: after
              ∧ s1 = set_taskOrder (before ++ y :: x :: after) s)
      as (before & x & y & after & Hl & ->).
    { destruct direction.
      - apply reorderTask_up_success in Htrue
          as (before & x & after & Hl & _ & _ & Hs1).
        by exists before, x, taskId, after.
      - apply reorderTask_down_success in Htrue
          as (before & y & after & Hl & _ & Hs1).
        by exists before, taskId, y, after. }
    simpl. split_and!; [|done..].
    rewrite Hl. apply Permutation_app_head, perm_swap.
Qed.

(** X8.  Moving a task up and then down again gives back the state from
    before, for every order list; moving it down and then up does so
    when the identifiers in the list are distinct, as they are in every
    reachable state. *)
Theorem reorderTask_round_trip (taskId : string) (s s' : State) :
  (reorderTask taskId up s = (true, s') → reorderTask taskId down s' = (true, s))
  ∧ (NoDup (taskOrder s) →
     reorderTask taskId down s = (true, s') → reorderTask taskId up s' = (true, s))
  ∧ (reachable s →
     reorderTask taskId down s = (true, s') → reorderTask taskId up s' = (true, s)).
Proof.
  assert (NoDup (taskOrder s) →
     reorderTask taskId down s = (true, s') → reorderTask taskId up s' = (true, s))
    as Hdown.
  { intros Hnd (before & y & after & Hl & Hnot & ->)%reorderTask_down_success.
    apply reorderTask_up_success. exists before, y, after. split_and!.
    - done.
    - done.
    - rewrite Hl in Hnd. apply NoDup_app in Hnd as (_ & _ & Hnd).
      apply NoDup_cons in Hnd as [Hnd _]. intros ->. apply Hnd. left.
    - rewrite set_taskOrder_twice, <- Hl. by rewrite set_taskOrder_same. }
  split_and!.
  - intros (before & x & after & Hl & Hnot & Hne & ->)%reorderTask_up_success.
    apply reorderTask_down_success. exists before, x, after. split_and!; [done..|].
    rewrite set_taskOrder_twice, <- Hl. by rewrite set_taskOrder_same.
  - done.
  - intros Hreach. apply Hdown. by apply reachable_order_inv.
Qed.

Example reorderTask_down_up_needs_distinct :
  let s := mkState ∅ ["x"; "a"; "a"] ∅ ∅ [] in
  ∃ s', reorderTask "a" down s = (true, s') ∧ reorderTask "a" up s' ≠ (true, s).
Proof. eexists. split; [reflexivity|]. vm_compute. discriminate. Qed.

(** ** Removing a task *)

Lemma filter_other_id (x : string) (l : list string) :
  x ∉ l → filter (λ y, y ≠ x) l = l.
Proof.
  induction l as [|y l IH]; [done|].
  intros [Hne Hnot]%not_elem_of_cons.
  rewrite filter_cons_True by congruence. by rewrite IH.
Qed.

Lemma delete_indexOf_filter (x : string) (l : list string) :
  NoDup l → x ∈ l → delete (Z.to_nat (indexOf x l)) l = filter (λ y, y ≠ x) l.
Proof.
  intros Hnd Hin.
  destruct (indexOf_spec x l) as [[_ Habs]|(i & Hi & _)]; [done|].
  destruct (indexOf_split _ _ _ Hi) as (before & after & -> & Hlen & Hnot).
  rewrite Hi, Nat2Z.id, <- Hlen, delete_middle.
  apply NoDup_app in Hnd as (_ & _ & Hnd). apply NoDup_cons in Hnd as [Hafter _].
  rewrite filter_app, filter_cons_False by (intros Hne; by apply Hne).
  by rewrite !filter_other_id.
Qed.

(** X9.  What [removeTask] does to the registry.  An unknown identifier
    is refused and nothing changes.  A registered task is taken out of
    the map, the processes and the suspended calls are not touched, and
    removing it a second time is refused.  When the order list names
    every registered task once, as in every reachable state, the new list
    is the old one without that identifier, the others in their order;
    and in a reachable state no lock names the removed task afterwards. *)
Theorem removeTask_effect (taskId : string) (s : State) :
  (getTask taskId s = None → removeTask taskId s = (false, s))
  ∧ ∀ task, getTask taskId s = Some task →
      ∃ s', removeTask taskId s = (true, s')
        ∧ tasks s' = delete taskId (tasks s)
        ∧ getTask taskId s' = None
        ∧ removeTask taskId s' = (false, s')
        ∧ runningProcesses s' = runningProcesses s
        ∧ awaiting s' = awaiting s
        ∧ taskOrder s' `sublist_of` taskOrder s
        ∧ (order_inv s → taskOrder s' = filter (λ other, other ≠ taskId) (taskOrder s))
        ∧ (reachable s →
           taskOrder s' = filter (λ other, other ≠ taskId) (taskOrder s)
           ∧ (∀ folder, folderLocks s' !! folder ≠ Some taskId)
           ∧ ∀ folder, folder ≠ folderPath task →
                       folderLocks s' !! folder = folderLocks s !! folder).
Proof.
  unfold getTask. split.
  - intros Hnone. unfold removeTask. by rewrite Hnone.
  - intros task Htask. unfold removeTask at 1. rewrite Htask.
    eexists. split; [reflexivity|].
    assert (order_inv s →
            (if indexOf taskId (taskOrder s) >? -1
             then delete (Z.to_nat (indexOf taskId (taskOrder s))) (taskOrder s)
             else taskOrder s) = filter (λ other, other ≠ taskId) (taskOrder s))
      as Horder.
    { intros [Hnd Hmem].
      assert (taskId ∈ taskOrder s) as Hin by (apply Hmem; by exists task).
      destruct (indexOf_spec taskId (taskOrder s)) as [[_ Habs]|(i & Hi & _)]; [done|].
      rewrite Hi at 1. Zcompare; try lia. by apply delete_indexOf_filter. }
    split_and!; simpl.
    + done.
    + apply lookup_delete_eq.
    + unfold removeTask. simpl. by rewrite lookup_delete_eq.
    + done.
    + done.
    + destruct (_ >? _); [apply sublist_delete|done].
    + done.
    + intros Hreach. split_and!.
      * apply Horder. by apply reachable_order_inv.
      * intros folder Hlock.
        pose proof (registry_inv_remove taskId s (reachable_registry_inv s Hreach))
          as Hreg.
        unfold removeTask in Hreg. rewrite Htask in Hreg. simpl in Hreg.
        destruct (inv_holder _ Hreg folder taskId Hlock) as (holder & Hholder & _).
        simpl in Hholder. by rewrite lookup_delete_eq in Hholder.
      * intros folder Hne. case_bool_decide; [|done].
        by rewrite lookup_delete_ne.
Qed.

(** ** How a step changes a registered task *)

Lemma executeTask_change task spawn now s x t' :
  tasks s !! id task = Some task → status task = queued →
  tasks (executeTask task spawn now s).2 !! x = Some t' →
  ∃ t, tasks s !! x = Some t ∧ task_change t t'.
Proof.
  intros Hreg Hq. rewrite executeTask_unfold.
  destruct (canStartTask task s).
  2: { intros Ht. exists t'. split; [done | constructor]. }
  assert (∀ t1, tasks (started task now s) !! x = Some t1 →
            ∃ t, tasks s !! x = Some t
                 ∧ (x ≠ id task ∧ t1 = t
                    ∨ x = id task ∧ t = task ∧ t1 = assign task (running_update now)))
    as Hstarted.
  { intros t1 Ht1.
    destruct (changed_lookup_inv _ _ _ _ _ _ (started_lookup task now s) Ht1)
      as (t & Ht & [[Hne ->] | [-> ->]]); exists t; (split; [done|]).
    - by left.
    - right. rewrite Hreg in Ht. by injection Ht as <-. }
  assert (∀ t1, tasks (started task now s) !! x = Some t1 →
            ∃ t, tasks s !! x = Some t ∧ task_change t t1) as Hstart.
  { intros t1 Ht1. destruct (Hstarted t1 Ht1) as (t & Ht & [[_ ->] | (_ & Heq & ->)]);
      exists t; (split; [done|]); subst; by constructor. }
  destruct (buildCommand task) as [message|proc]; simpl; [apply Hstart|].
  destruct spawn as [|message caughtAt]; simpl; [apply Hstart|].
  intros Ht'.
  destruct (changed_lookup_inv _ _ _ _ _ _
              (executeTask_catch_lookup task message caughtAt _) Ht')
    as (t1 & Ht1 & [[Hne ->] | [-> ->]]).
  - by apply Hstart.
  - destruct (Hstarted t1 Ht1) as (t & Ht & [[Hne _] | (_ & -> & ->)]); [done|].
    exists task. split; [done|]. by constructor.
Qed.

Lemma dispatch_change spawn now selected s x t' :
  NoDup (id <$> selected) →
  (∀ task, task ∈ selected → tasks s !! id task = Some task ∧ status task = queued) →
  tasks (dispatch spawn now selected s) !! x = Some t' →
  ∃ t, tasks s !! x = Some t ∧ task_change t t'.
Proof.
  revert s. induction selected as [|task rest IH]; intros s Hnd Hsel Ht'.
  { exists t'. split; [done | constructor]. }
  simpl in Ht'. rewrite fmap_cons in Hnd. apply NoDup_cons in Hnd as [Hfirst Hnd].
  destruct (Hsel task) as [Hreg Hq]; [by left|].
  destruct (decide (x = id task)) as [->|Hne].
  - rewrite dispatch_frame in Ht' by done.
    by apply (executeTask_change task (spawn (id task)) now s).
  - destruct (IH (executeTask task (spawn (id task)) now s).2) as (t & Ht & Hch);
      [done| |done|].
    + intros other Hin. destruct (Hsel other) as [Horeg Hoq]; [by right|].
      split; [|done]. rewrite executeTask_frame; [done|].
      intros Heq. apply Hfirst. rewrite <- Heq. by apply list_elem_of_fmap_2.
    + rewrite executeTask_frame in Ht by done. by exists t.
Qed.

Lemma step_task_change s e x t t' :
  registry_inv s → execution_inv s → enabled s e →
  tasks s !! x = Some t → tasks (apply_event e s) !! x = Some t' →
  task_change t t'.
Proof.
  intros Hreg Hex Hen Ht. destruct e; simpl in *.
  - destruct Hen as (_ & Hnew & _). rewrite lookup_insert_ne by congruence.
    rewrite Ht. intros [= <-]. constructor.
  - rewrite reorderTask_tasks, Ht. intros [= <-]. constructor.
  - unfold removeTask. destruct (tasks s !! taskId); simpl.
    + intros [_ Hsame]%lookup_delete_Some. rewrite Ht in Hsame.
      injection Hsame as <-. constructor.
    + rewrite Ht. intros [= <-]. constructor.
  - destruct (runningProcesses s !! taskId) as [proc|] eqn:Hproc.
    + intros Ht'.
      destruct (changed_lookup_inv _ _ _ _ _ _
                  (λ other, stopTask_lookup taskId now s proc other Hproc) Ht')
        as (t0 & Ht0 & [[_ ->] | [-> ->]]);
        rewrite Ht in Ht0; injection Ht0 as <-; constructor.
      by apply (ex_process_running s Hex taskId proc).
    + rewrite stopTask_idle by done. simpl. rewrite Ht. intros [= <-]. constructor.
  - intros Ht'. destruct (getNextRunnableTasks_selected s Hreg) as [Hnd Hsel].
    destruct (dispatch_change spawn now _ s x t' Hnd Hsel Ht') as (t0 & Ht0 & Hch).
    rewrite Ht in Ht0. by injection Ht0 as <-.
  - destruct (awaiting s !! k) as [captured|] eqn:Hk.
    + intros Ht'.
      destruct (changed_lookup_inv _ _ _ _ _ _
                  (pushOutput_lookup (id captured) lines s) Ht')
        as (t0 & Ht0 & [[_ ->] | [-> ->]]);
        rewrite Ht in Ht0; injection Ht0 as <-; constructor.
      apply (ex_awaiting_started s Hex captured); [|done].
      by eapply list_elem_of_lookup_2.
    + rewrite Ht. intros [= <-]. constructor.
  - destruct (awaiting s !! k) as [captured|] eqn:Hk.
    + intros Ht'.
      destruct (changed_lookup_inv _ _ _ _ _ _
                  (executeTask_resume_lookup captured code now _) Ht')
        as (t0 & Ht0 & [[_ ->] | [-> ->]]);
        simpl in Ht0; rewrite Ht in Ht0; injection Ht0 as <-; constructor.
      apply (ex_awaiting_started s Hex captured); [|done].
      by eapply list_elem_of_lookup_2.
    + rewrite Ht. intros [= <-]. constructor.
Qed.

(** A task that is registered after a step and was not before has just
    been created. *)
Lemma step_created s e x t' :
  tasks s !! x = None → tasks (apply_event e s) !! x = Some t' →
  ∃ now folder ag pr,
    e = ECreate x now folder ag pr
    ∧ t' = mkTask x (normalizePath folder) ag pr None queued [] None now None None.
Proof.
  intros Hnone. destruct e; simpl.
  - destruct (decide (x = newId)) as [->|Hne].
    + rewrite lookup_insert_eq. intros [= <-]. by exists now, folder, ag, pr.
    + rewrite lookup_insert_ne by done. congruence.
  - rewrite reorderTask_tasks. congruence.
  - unfold removeTask. destruct (tasks s !! taskId); simpl; [|congruence].
    intros [_ ?]%lookup_delete_Some. congruence.
  - destruct (runningProcesses s !! taskId) as [proc|] eqn:Hproc.
    + rewrite (stopTask_lookup taskId now s proc x Hproc).
      case_bool_decide as Hc; [subst x; by rewrite Hnone|congruence].
    + rewrite stopTask_idle by done. simpl. congruence.
  - intros Ht'. destruct (dispatch_folders _ _ _ _ _ _ Ht') as (t & Ht & _). congruence.
  - destruct (awaiting s !! k) as [captured|]; [|congruence].
    rewrite pushOutput_lookup. case_bool_decide as Hc; [subst x; by rewrite Hnone|congruence].
  - destruct (awaiting s !! k) as [captured|]; [|congruence].
    rewrite executeTask_resume_lookup. simpl.
    case_bool_decide as Hc; [subst x; by rewrite Hnone|congruence].
Qed.

Lemma task_change_evolves t t' : task_change t t' → evolves t t'.
Proof.
  destruct 1; unfold evolves; simpl; split_and!; try done;
    by apply prefix_app_r.
Qed.

Lemma task_change_lifecycle t t' : lifecycle_ok t → task_change t t' → lifecycle_ok t'.
Proof.
  intros Hok Hch. destruct Hch as [|now Hq|now message caughtAt Hq|now Hr|lines Hnq|code now Hnq];
    unfold lifecycle_ok in *; simpl.
  - done.
  - rewrite Hq in Hok. destruct Hok as (_ & -> & -> & _). by split_and!.
  - split_and!; [done..|]. exists (-1). split; [done|lia].
  - rewrite Hr in Hok. destruct Hok as (Hs & _). split_and!; [done..|].
    exists (-9). split; [done|lia].
  - by destruct (status t).
  - assert (is_Some (startedAt t)) as Hs by (destruct (status t); tauto).
    destruct (Z.eqb_spec code 0) as [->|Hne]; simpl; split_and!; try done.
    by exists code.
Qed.

Lemma task_change_status t t' : task_change t t' → status_step (status t) (status t').
Proof.
  destruct 1 as [|now Hq|now message caughtAt Hq|now Hr|lines Hnq|code now Hnq]; simpl.
  - by destruct (status t).
  - by rewrite Hq.
  - by rewrite Hq.
  - by rewrite Hr.
  - by destruct (status t).
  - destruct (status t); [done|..]; by destruct (code =? 0).
Qed.

(** X10.  What one step can do to a registered task.  In a reachable
    state, a task that is registered before and after a step is unchanged
    or has gone through exactly one of five changes: started, started
    with a failing spawn, stopped, given output lines, or ended by the
    exit of its process.  Its identifier, folder, agent, prompt and
    creation time are never rewritten, its log only grows at the end, and
    its status never goes back: not to [queued], and not from an ended
    state to [running]. *)
Theorem registered_task_changes (s : State) (e : Event) (taskId : string)
    (task task' : Task) :
  reachable s → enabled s e →
  tasks s !! taskId = Some task →
  tasks (apply_event e s) !! taskId = Some task' →
  task_change task task'
  ∧ evolves task task'
  ∧ status_step (status task) (status task')
  ∧ (status task ≠ queued → status task' ≠ queued)
  ∧ (status task' = running → status task = running ∨ status task = queued).
Proof.
  intros Hreach Hen Ht Ht'.
  assert (task_change task task') as Hch.
  { eapply step_task_change; eauto using reachable_registry_inv, reachable_execution_inv. }
  pose proof (task_change_status _ _ Hch) as Hst.
  split_and!.
  - done.
  - by apply task_change_evolves.
  - done.
  - destruct (status task), (status task'); done.
  - destruct (status task), (status task'); try done; tauto.
Qed.

Lemma registered_task_changes_witness :
  evolves (mkTask "a" "/p" "claude" "x" None queued [] None 1 None None)
          (mkTask "a" "/p" "claude" "x" None running [] None 1 (Some 3) None).
Proof.
  destruct (registered_task_changes two_queued (ESchedule always_spawns 3) "a"
              (mkTask "a" "/p" "claude" "x" None queued [] None 1 None None)
              (mkTask "a" "/p" "claude" "x" None running [] None 1 (Some 3) None))
    as (_ & Hev & _).
  - exact reachable_two_queued.
  - exact I.
  - reflexivity.
  - reflexivity.
  - exact Hev.
Defined.

(** ** The fields of a task and its status *)

Lemma lifecycle_inv_event s e :
  registry_inv s → execution_inv s → enabled s e →
  lifecycle_inv s → lifecycle_inv (apply_event e s).
Proof.
  intros Hreg Hex Hen Hinv x t' Ht'.
  destruct (tasks s !! x) as [t|] eqn:Ht.
  - apply (task_change_lifecycle t); [by eapply Hinv|].
    by eapply step_task_change.
  - destruct (step_created s e x t' Ht Ht') as (now & folder & ag & pr & _ & ->).
    by unfold lifecycle_ok.
Qed.

Lemma reachable_lifecycle_inv s : reachable s → lifecycle_inv s.
Proof.
  induction 1 as [|s e Hreach IH Hen]; [by intros x t Ht|].
  apply lifecycle_inv_event;
    eauto using reachable_registry_inv, reachable_execution_inv.
Qed.

(** X11.  The optional fields of a task go with its status in every
    reachable state.  A queued task has no start time, no exit code, no
    completion time and an empty log.  A running task has a start time
    and neither exit code nor completion time.  An ended task has start
    time, completion time and exit code; its status is [completed]
    exactly when the exit code is 0. *)
Theorem task_fields_follow_status (s : State) (taskId : string) (task : Task) :
  reachable s →
  getTask taskId s = Some task →
  lifecycle_ok task
  ∧ (is_terminal (status task) = true ↔ is_Some (exitCode task))
  ∧ (is_terminal (status task) = true ↔ is_Some (completedAt task))
  ∧ (status task = queued ↔ startedAt task = None)
  ∧ (status task = completed ↔ exitCode task = Some 0).
Proof.
  intros Hreach Ht.
  pose proof (reachable_lifecycle_inv s Hreach taskId task Ht) as Hok.
  split; [done|]. unfold lifecycle_ok in Hok.
  destruct (status task); simpl.
  - destruct Hok as (-> & -> & -> & _).
    split_and!; split; try done; by intros [? ?].
  - destruct Hok as ([? ->] & -> & ->).
    split_and!; split; try done; by intros [? ?].
  - destruct Hok as ([? ->] & -> & [? ->]). split_and!; split; done.
  - destruct Hok as ([? ->] & [? ->] & code & -> & Hcode).
    split_and!; split; try done. intros [= ->]. done.
Qed.

Lemma task_fields_follow_status_witness :
  lifecycle_ok (mkTask "a" "/p" "claude" "x" None completed
                  ["[system] Task stopped by user"] (Some 0) 1 (Some 3) (Some 5)).
Proof.
  destruct (task_fields_follow_status stopped_then_exited "a"
              (mkTask "a" "/p" "claude" "x" None completed
                 ["[system] Task stopped by user"] (Some 0) 1 (Some 3) (Some 5)))
    as (Hok & _).
  - exact reachable_stopped_then_exited.
  - reflexivity.
  - exact Hok.
Defined.

(** ** The processes and the calls that wait for them *)

Lemma elem_of_delete_other {A} (l : list A) (k : nat) (x y : A) :
  x ∈ l → l !! k = Some y → x ≠ y → x ∈ delete k l.
Proof.
  intros [j Hj]%list_elem_of_lookup Hk Hne.
  destruct (decide (j < k)%nat) as [Hlt|Hge].
  - apply (list_elem_of_lookup_2 _ j). by rewrite list_lookup_delete_lt.
  - assert (j ≠ k) by congruence.
    apply (list_elem_of_lookup_2 _ (pred j)). rewrite list_lookup_delete_ge by lia.
    by replace (S (pred j)) with j by lia.
Qed.

Lemma process_inv_same s s' :
  process_inv s →
  (∀ x proc, runningProcesses s' !! x = Some proc →
             runningProcesses s !! x = Some proc) →
  (∀ captured, captured ∈ awaiting s → captured ∈ awaiting s') →
  process_inv s'.
Proof.
  intros Hinv Hprocs Haw x proc Hproc.
  destruct (Hinv x proc (Hprocs _ _ Hproc)) as (captured & Hin & Hid & Hcmd).
  exists captured. split_and!; [by apply Haw|done..].
Qed.

Lemma process_inv_executeTask task spawn now s :
  process_inv s → process_inv (executeTask task spawn now s).2.
Proof.
  intros Hinv. rewrite executeTask_unfold.
  destruct (canStartTask task s); [|done].
  assert (process_inv (started task now s)) as Hstarted.
  { apply (process_inv_same s); [done| |].
    - intros x proc. by rewrite started_processes.
    - intros captured. by rewrite started_awaiting. }
  destruct (buildCommand task) as [message|proc] eqn:Hcmd; [done|].
  destruct spawn as [|message caughtAt]; simpl.
  - intros x p. simpl. destruct (decide (x = id task)) as [->|Hne].
    + rewrite lookup_insert_eq. intros [= <-]. exists task.
      split_and!; [|done..]. apply elem_of_app. right. by apply list_elem_of_singleton.
    + rewrite lookup_insert_ne by done. intros Hp.
      destruct (Hstarted x p Hp) as (captured & Hin & Hid & Hc).
      exists captured. split_and!; [|done..]. apply elem_of_app. by left.
  - apply (process_inv_same (started task now s)); [done| |].
    + intros x p. rewrite executeTask_catch_processes.
      by intros [_ ?]%lookup_delete_Some.
    + intros captured. by rewrite executeTask_catch_awaiting.
Qed.

Lemma process_inv_dispatch spawn now selected s :
  process_inv s → process_inv (dispatch spawn now selected s).
Proof.
  revert s. induction selected as [|task rest IH]; intros s Hinv; [done|].
  simpl. by apply IH, process_inv_executeTask.
Qed.

Lemma process_inv_event s e : process_inv s → process_inv (apply_event e s).
Proof.
  intros Hinv. destruct e; simpl.
  - by apply (process_inv_same s).
  - unfold reorderTask. destruct (_ =? _); [done|]. by destruct (_ || _).
  - unfold removeTask. by destruct (tasks s !! taskId).
  - apply (process_inv_same s); [done| |].
    + intros x p. rewrite stopTask_processes. by intros [_ ?]%lookup_delete_Some.
    + intros captured. by rewrite stopTask_awaiting.
  - by apply process_inv_dispatch.
  - destruct (awaiting s !! k); [|done]. apply (process_inv_same s); [done| |].
    + intros x p. by rewrite pushOutput_processes.
    + intros captured. by rewrite pushOutput_awaiting.
  - destruct (awaiting s !! k) as [captured|] eqn:Hk; [|done].
    intros x p. rewrite executeTask_resume_processes. simpl.
    intros [Hne Hp]%lookup_delete_Some.
    destruct (Hinv x p Hp) as (other & Hin & Hid & Hcmd).
    exists other. split_and!; [|done..].
    unfold executeTask_resume.
    rewrite updateTask_awaiting, releaseFolderLock_awaiting. simpl.
    apply (elem_of_delete_other _ _ _ captured); [done..|]. congruence.
Qed.

Lemma reachable_process_inv s : reachable s → process_inv s.
Proof.
  induction 1 as [|s e _ IH _]; [|by apply process_inv_event].
  intros x p Hp. simpl in Hp. by rewrite lookup_empty in Hp.
Qed.

Lemma evolves_refl t : evolves t t.
Proof. by unfold evolves. Qed.

Lemma evolves_trans t1 t2 t3 : evolves t1 t2 → evolves t2 t3 → evolves t1 t3.
Proof.
  unfold evolves. intros (? & ? & ? & ? & ? & ? & ?) (? & ? & ? & ? & ? & ? & ?).
  split_and!; try congruence. by etrans.
Qed.

(** A suspended call of a step's result was suspended before, or is for
    a task the pass has just taken from the registry. *)
Lemma step_awaiting s e captured :
  registry_inv s →
  captured ∈ awaiting (apply_event e s) →
  captured ∈ awaiting s ∨ tasks s !! id captured = Some captured.
Proof.
  intros Hreg. destruct e; simpl.
  - by left.
  - unfold reorderTask. destruct (_ =? _); [by left|]. destruct (_ || _); by left.
  - unfold removeTask. destruct (tasks s !! taskId); by left.
  - rewrite stopTask_awaiting. by left.
  - intros [Hin|Hin]%dispatch_awaiting; [by left|right].
    by apply (getNextRunnableTasks_selected s Hreg).
  - destruct (awaiting s !! k); [|by left]. rewrite pushOutput_awaiting. by left.
  - destruct (awaiting s !! k) as [c|]; [|by left].
    unfold executeTask_resume.
    rewrite updateTask_awaiting, releaseFolderLock_awaiting. simpl.
    intros Hin. left. eapply sublist_subseteq; [apply sublist_delete|done].
Qed.

Lemma awaiting_inv_event s e :
  registry_inv s → execution_inv s → enabled s e →
  awaiting_inv s → awaiting_inv (apply_event e s).
Proof.
  intros Hreg Hex Hen Hinv captured t' Hin Ht'.
  destruct (tasks s !! id captured) as [t|] eqn:Ht.
  - pose proof (step_task_change s e _ t t' Hreg Hex Hen Ht Ht') as Hch.
    apply task_change_evolves in Hch.
    destruct (step_awaiting s e captured Hreg Hin) as [Hold|Hnew].
    + eapply evolves_trans; [|done]. by eapply Hinv.
    + rewrite Ht in Hnew. by injection Hnew as ->.
  - destruct (step_created s e _ t' Ht Ht') as (now & folder & ag & pr & -> & _).
    destruct (step_awaiting s _ captured Hreg Hin) as [Hold|Hnew]; [|congruence].
    simpl in Hen. destruct Hen as (_ & _ & _ & Hfresh). by destruct (Hfresh captured).
Qed.

Lemma reachable_awaiting_inv s : reachable s → awaiting_inv s.
Proof.
  induction 1 as [|s e Hreach IH Hen].
  - intros captured t Hin. by apply not_elem_of_nil in Hin.
  - apply awaiting_inv_event;
      eauto using reachable_registry_inv, reachable_execution_inv.
Qed.

Lemma buildCommand_evolves t t' : evolves t t' → buildCommand t' = buildCommand t.
Proof.
  intros (_ & Hf & Ha & Hp & _). unfold buildCommand. by rewrite Hf, Ha, Hp.
Qed.

(** X12.  What an entry of [runningProcesses] stands for.  In every
    reachable state an entry belongs to a suspended [executeTask] call
    for that identifier; and if the task is still registered, it is
    [running], it holds the lock of its folder, its agent is one of the
    two known ones, and the entry is the command [buildCommand] gives for
    the task as it is registered now. *)
Theorem running_process_is_command_of_task
    (s : State) (taskId : string) (proc : Process) :
  reachable s →
  runningProcesses s !! taskId = Some proc →
  isTaskRunning taskId s = true
  ∧ (∃ captured, captured ∈ awaiting s ∧ id captured = taskId
                 ∧ buildCommand captured = inr proc)
  ∧ ∀ task, getTask taskId s = Some task →
      status task = running
      ∧ folderLocks s !! folderPath task = Some taskId
      ∧ buildCommand task = inr proc
      ∧ (agent task = "claude" ∨ agent task = "codex").
Proof.
  intros Hreach Hproc.
  destruct (reachable_process_inv s Hreach taskId proc Hproc)
    as (captured & Hin & Hid & Hcmd).
  split_and!.
  - unfold isTaskRunning. rewrite Hproc. by apply bool_decide_eq_true_2.
  - by exists captured.
  - intros task Htask. unfold getTask in Htask.
    assert (status task = running) as Hrun
      by (by apply (ex_process_running s (reachable_execution_inv s Hreach) taskId proc)).
    assert (buildCommand task = inr proc) as Hcmd'.
    { rewrite <- Hcmd. apply buildCommand_evolves.
      apply (reachable_awaiting_inv s Hreach); [done|]. by rewrite Hid. }
    split_and!; [done| |done|].
    + by apply (inv_running s (reachable_registry_inv s Hreach)).
    + unfold buildCommand in Hcmd'.
      case_bool_decide; [by left|]. case_bool_decide; [by right|done].
Qed.

Lemma running_process_is_command_of_task_witness :
  isTaskRunning "a" first_running = true.
Proof.
  destruct (running_process_is_command_of_task first_running "a"
              (mkProcess ["claude"; "-p"; "x"] (InFolder "/p"))) as (Hrun & _).
  - exact reachable_first_running.
  - reflexivity.
  - exact Hrun.
Defined.

(** ** What a pass logs *)

Lemma canStartTask_locks task s s' :
  folderLocks s' !! folderPath task = folderLocks s !! folderPath task →
  canStartTask task s' = canStartTask task s.
Proof. unfold canStartTask. by intros ->. Qed.

Lemma executeTask_locks_other task spawn now s folder :
  folder ≠ folderPath task →
  folderLocks (executeTask task spawn now s).2 !! folder = folderLocks s !! folder.
Proof.
  intros Hne. rewrite executeTask_unfold.
  destruct (canStartTask task s); [|done].
  assert (folderLocks (started task now s) !! folder = folderLocks s !! folder)
    as Hstarted by (by rewrite started_locks, lookup_insert_ne).
  destruct (buildCommand task) as [message|proc]; [done|].
  destruct spawn as [|message caughtAt]; simpl; [done|].
  rewrite executeTask_catch_locks, releaseFolderLock_lookup.
  rewrite bool_decide_eq_false_2 by tauto. done.
Qed.

Lemma dispatch_errors_spec spawn now selected s :
  NoDup (folderPath <$> selected) →
  (∀ task, task ∈ selected → canStartTask task s = true) →
  dispatch_errors spawn now selected s = omap buildCommand_error selected.
Proof.
  revert s. induction selected as [|task rest IH]; intros s Hnd Hcan; [done|].
  rewrite fmap_cons in Hnd. apply NoDup_cons in Hnd as [Hfirst Hnd].
  simpl. destruct (executeTask task (spawn (id task)) now s) as [outcome s'] eqn:Hexec.
  assert (s' = (executeTask task (spawn (id task)) now s).2) as Hs' by (by rewrite Hexec).
  rewrite (IH s' Hnd).
  - rewrite executeTask_unfold in Hexec. rewrite (Hcan task) in Hexec by (by left).
    unfold buildCommand_error.
    destruct (buildCommand task) as [message|proc] eqn:Hcmd.
    + injection Hexec as <- _. reflexivity.
    + destruct (spawn (id task)); injection Hexec as <- _; reflexivity.
  - intros other Hin. rewrite <- (Hcan other) by (by right).
    apply canStartTask_locks. rewrite Hs'. apply executeTask_locks_other.
    intros Heq. apply Hfirst. rewrite <- Heq. by apply list_elem_of_fmap_2.
Qed.

Lemma getNextRunnableTasks_folders_NoDup s :
  NoDup (folderPath <$> getNextRunnableTasks s).
Proof.
  apply getNextRunnableTasks_loop_folders; [|constructor].
  intros folder. simpl. rewrite elem_of_nil. split; [|done]. apply not_elem_of_empty.
Qed.

Lemma getNextRunnableTasks_eligible s task :
  task ∈ getNextRunnableTasks s → status task = queued ∧ canStartTask task s = true.
Proof.
  intros (i & _ & Hel & _)%getNextRunnableTasks_elem. by apply eligible_true.
Qed.

(** X13.  What a scheduler pass logs.  Whatever the state, no
    [executeTask] call of a pass is rejected for a locked folder: the
    rejections logged by [runScheduler] are exactly the messages
    [buildCommand] throws for the selected tasks, in the order of
    selection.  Each names an agent that is neither [claude] nor [codex];
    a failing spawn is not logged; and when every selected task has a
    known agent nothing is logged. *)
Theorem runScheduler_logs_unknown_agents_only
    (spawn : string -> SpawnResult) (now : Z) (s : State) :
  runScheduler_errors spawn now s = omap buildCommand_error (getNextRunnableTasks s)
  ∧ (∀ message, message ∈ runScheduler_errors spawn now s ↔
       ∃ task, task ∈ getNextRunnableTasks s
               ∧ agent task ≠ "claude" ∧ agent task ≠ "codex"
               ∧ message = "Unknown agent: " +:+ agent task)
  ∧ (∀ folder,
       "Folder " +:+ folder +:+ " is locked by another task"
       ∉ runScheduler_errors spawn now s)
  ∧ ((∀ task, task ∈ getNextRunnableTasks s →
              agent task = "claude" ∨ agent task = "codex") →
     runScheduler_errors spawn now s = []).
Proof.
  assert (runScheduler_errors spawn now s
          = omap buildCommand_error (getNextRunnableTasks s)) as Heq.
  { apply dispatch_errors_spec; [apply getNextRunnableTasks_folders_NoDup|].
    intros task Hin. by apply getNextRunnableTasks_eligible. }
  assert (∀ task message, buildCommand_error task = Some message ↔
            agent task ≠ "claude" ∧ agent task ≠ "codex"
            ∧ message = "Unknown agent: " +:+ agent task) as Herr.
  { intros task message. unfold buildCommand_error, buildCommand.
    repeat case_bool_decide; split; try done; try tauto.
    - intros [= <-]. done.
    - intros (_ & _ & ->). done. }
  assert (∀ message, message ∈ runScheduler_errors spawn now s ↔
       ∃ task, task ∈ getNextRunnableTasks s
               ∧ agent task ≠ "claude" ∧ agent task ≠ "codex"
               ∧ message = "Unknown agent: " +:+ agent task) as Hmem.
  { intros message. rewrite Heq, list_elem_of_omap. split.
    - intros (task & Hin & Hm). exists task. split; [done|]. by apply Herr.
    - intros (task & Hin & Hm). exists task. split; [done|]. by apply Herr. }
  split_and!.
  - done.
  - done.
  - intros folder (task & _ & _ & _ & Habs)%Hmem. discriminate Habs.
  - intros Hknown. destruct (runScheduler_errors spawn now s) as [|message rest] eqn:E;
      [done|].
    destruct (proj1 (Hmem message)) as (task & Hin & Hc & Hx & _); [left|].
    destruct (Hknown task Hin); done.
Qed.

(** ** A task from its start to the exit of its process *)

Lemma state_ext (s s' : State) :
  tasks s = tasks s' → taskOrder s = taskOrder s' → folderLocks s = folderLocks s' →
  runningProcesses s = runningProcesses s' → awaiting s = awaiting s' → s = s'.
Proof. destruct s, s'. simpl. by intros -> -> -> -> ->. Qed.

Lemma executeTask_resume_locks task code now s :
  folderLocks (executeTask_resume task code now s) = folderLocks (releaseFolderLock task s).
Proof.
  unfold executeTask_resume. rewrite updateTask_locks.
  by apply releaseFolderLock_locks_only.
Qed.

Lemma executeTask_resume_awaiting task code now s :
  awaiting (executeTask_resume task code now s) = awaiting s.
Proof.
  unfold executeTask_resume. by rewrite updateTask_awaiting, releaseFolderLock_awaiting.
Qed.

Lemma executeTask_resume_order task code now s :
  taskOrder (executeTask_resume task code now s) = taskOrder s.
Proof.
  unfold executeTask_resume. by rewrite updateTask_order, releaseFolderLock_order.
Qed.

(** X14.  A task that runs undisturbed.  Let a registered task with a
    known agent be started in a state where its folder is free and it has
    no process, and let the spawn succeed.  Then the call is suspended,
    the task is [running] with the start time, its folder is locked for
    it and its command is recorded.  When the process then exits with a
    code, the lock table, the processes and the suspended calls are what
    they were before the start, the order list never changed, and the
    only change in the registry is that task: started, then ended with
    that code, [completed] for 0 and [error] otherwise. *)
Theorem start_then_exit_restores_the_tables
    (task : Task) (proc : Process) (now code now' : Z) (s : State) :
  tasks s !! id task = Some task →
  folderLocks s !! folderPath task = None →
  runningProcesses s !! id task = None →
  buildCommand task = inr proc →
  let s1 := (executeTask task SpawnOk now s).2 in
  let s2 := apply_event (EExit (length (awaiting s)) code now') s1 in
  let finished := assign (assign task (running_update now)) (exited_update code now') in
  executeTask task SpawnOk now s = (Suspended, s1)
  ∧ tasks s1 = <[id task := assign task (running_update now)]> (tasks s)
  ∧ folderLocks s1 !! folderPath task = Some (id task)
  ∧ runningProcesses s1 !! id task = Some proc
  ∧ awaiting s1 = awaiting s ++ [task]
  ∧ s2 = set_tasks (<[id task := finished]> (tasks s)) s
  ∧ exitCode finished = Some code
  ∧ startedAt finished = Some now ∧ completedAt finished = Some now'
  ∧ (status finished = completed ↔ code = 0)
  ∧ (status finished = error ↔ code ≠ 0).
Proof.
  intros Hreg Hfree Hnoproc Hcmd s1 s2 finished.
  assert (canStartTask task s = true) as Hcan
    by (unfold canStartTask; by rewrite Hfree).
  assert (executeTask task SpawnOk now s =
            (Suspended,
             set_awaiting (awaiting (started task now s) ++ [task])
               (set_runningProcesses
                  (<[id task := proc]> (runningProcesses (started task now s)))
                  (started task now s)))) as Hexec.
  { by rewrite executeTask_unfold, Hcan, Hcmd. }
  assert (tasks (started task now s)
          = <[id task := assign task (running_update now)]> (tasks s)) as Htasks.
  { apply map_eq. intros x. rewrite started_lookup. case_bool_decide as Hx.
    - subst x. by rewrite lookup_insert_eq, Hreg.
    - by rewrite lookup_insert_ne. }
  assert (tasks s1 = <[id task := assign task (running_update now)]> (tasks s)) as Ht1
    by (unfold s1; by rewrite Hexec).
  assert (folderLocks s1 = <[folderPath task := id task]> (folderLocks s)) as Hl1
    by (unfold s1; rewrite Hexec; simpl; apply started_locks).
  assert (runningProcesses s1 = <[id task := proc]> (runningProcesses s)) as Hp1
    by (unfold s1; rewrite Hexec; simpl; by rewrite started_processes).
  assert (awaiting s1 = awaiting s ++ [task]) as Ha1
    by (unfold s1; rewrite Hexec; simpl; by rewrite started_awaiting).
  assert (taskOrder s1 = taskOrder s) as Ho1 by apply executeTask_order.
  split_and!.
  - unfold s1. rewrite Hexec. reflexivity.
  - done.
  - rewrite Hl1. apply lookup_insert_eq.
  - rewrite Hp1. apply lookup_insert_eq.
  - done.
  - unfold s2. simpl. rewrite Ha1.
    rewrite lookup_app_r, Nat.sub_diag by lia. simpl.
    rewrite delete_middle, app_nil_r.
    apply state_ext.
    + apply map_eq. intros x. rewrite executeTask_resume_lookup. simpl. rewrite Ht1.
      case_bool_decide as Hx.
      * subst x. by rewrite !lookup_insert_eq.
      * by rewrite !lookup_insert_ne.
    + by rewrite executeTask_resume_order.
    + rewrite executeTask_resume_locks. simpl.
      rewrite releaseFolderLock_held; simpl; rewrite Hl1.
      * rewrite delete_insert_eq. by apply delete_id.
      * apply lookup_insert_eq.
    + rewrite executeTask_resume_processes. simpl. rewrite Hp1.
      rewrite delete_insert_eq. by apply delete_id.
    + by rewrite executeTask_resume_awaiting.
  - done.
  - done.
  - done.
  - unfold finished. simpl. destruct (Z.eqb_spec code 0); split; done.
  - unfold finished. simpl. destruct (Z.eqb_spec code 0); split; done.
Qed.

Lemma start_then_exit_restores_the_tables_witness :
  apply_event (EExit 0 7 5) (executeTask queued_a SpawnOk 3 two_queued).2
  = set_tasks (<["a" := assign (assign queued_a (running_update 3)) (exited_update 7 5)]>
                 (tasks two_queued)) two_queued.
Proof.
  destruct (start_then_exit_restores_the_tables queued_a
              (mkProcess ["claude"; "-p"; "x"] (InFolder "/p")) 3 7 5 two_queued)
    as (_ & _ & _ & _ & _ & Hback & _).
  - reflexivity.
  - reflexivity.
  - reflexivity.
  - reflexivity.
  - exact Hback.
Defined.

(** ** Which queued tasks the next pass starts *)

Lemma dispatch_locks_other spawn now selected s folder :
  folder ∉ folderPath <$> selected →
  folderLocks (dispatch spawn now selected s) !! folder = folderLocks s !! folder.
Proof.
  revert s. induction selected as [|task rest IH]; intros s Hnot; [done|].
  rewrite fmap_cons, not_elem_of_cons in Hnot. destruct Hnot as [Hne Hnot].
  simpl. rewrite IH by done. by apply executeTask_locks_other.
Qed.

Lemma executeTask_started task spawn now s :
  tasks s !! id task = Some task → canStartTask task s = true →
  ∃ t', tasks (executeTask task spawn now s).2 !! id task = Some t'
        ∧ status t' ≠ queued ∧ startedAt t' = Some now.
Proof.
  intros Hreg Hcan. rewrite executeTask_unfold, Hcan.
  assert (tasks (started task now s) !! id task
          = Some (assign task (running_update now))) as Hstarted.
  { by rewrite started_lookup, bool_decide_eq_true_2, Hreg. }
  destruct (buildCommand task) as [message|proc]; simpl.
  - eexists. split; [exact Hstarted|]. done.
  - destruct spawn as [|message caughtAt]; simpl.
    + eexists. split; [exact Hstarted|]. done.
    + rewrite executeTask_catch_lookup, bool_decide_eq_true_2, Hstarted by done.
      eexists. split; [reflexivity|]. done.
Qed.

Lemma executeTask_holds_lock task now s :
  canStartTask task s = true →
  folderLocks (executeTask task SpawnOk now s).2 !! folderPath task = Some (id task).
Proof.
  intros Hcan. rewrite executeTask_unfold, Hcan.
  destruct (buildCommand task); simpl; rewrite started_locks; apply lookup_insert_eq.
Qed.

Lemma dispatch_started spawn now selected s task :
  NoDup (id <$> selected) → NoDup (folderPath <$> selected) →
  (∀ other, other ∈ selected →
     tasks s !! id other = Some other ∧ canStartTask other s = true) →
  task ∈ selected →
  (∃ t', tasks (dispatch spawn now selected s) !! id task = Some t'
         ∧ status t' ≠ queued ∧ startedAt t' = Some now)
  ∧ ((∀ other, other ∈ selected → spawn (id other) = SpawnOk) →
     folderLocks (dispatch spawn now selected s) !! folderPath task = Some (id task)).
Proof.
  revert s. induction selected as [|first rest IH]; intros s Hids Hfolders Hsel Hin.
  { by apply not_elem_of_nil in Hin. }
  rewrite fmap_cons in Hids, Hfolders.
  apply NoDup_cons in Hids as [Hid Hids].
  apply NoDup_cons in Hfolders as [Hfolder Hfolders].
  destruct (Hsel first) as [Hreg Hcan]; [by left|].
  simpl. apply elem_of_cons in Hin as [->|Hin].
  - split.
    + rewrite dispatch_frame by done. by apply executeTask_started.
    + intros Hspawn. rewrite dispatch_locks_other by done.
      rewrite (Hspawn first) by (by left). by apply executeTask_holds_lock.
  - destruct (IH (executeTask first (spawn (id first)) now s).2) as [Hst Hlock];
      [done|done| |done|].
    + intros other Hother. destruct (Hsel other) as [Horeg Hocan]; [by right|]. split.
      * rewrite executeTask_frame; [done|].
        intros Heq. apply Hid. rewrite <- Heq. by apply list_elem_of_fmap_2.
      * rewrite <- Hocan. apply canStartTask_locks, executeTask_locks_other.
        intros Heq. apply Hfolder. rewrite <- Heq. by apply list_elem_of_fmap_2.
    + split; [done|]. intros Hspawn. apply Hlock.
      intros other Hother. apply Hspawn. by right.
Qed.

Lemma getNextRunnableTasks_ready s :
  registry_inv s →
  NoDup (id <$> getNextRunnableTasks s)
  ∧ NoDup (folderPath <$> getNextRunnableTasks s)
  ∧ ∀ task, task ∈ getNextRunnableTasks s →
      tasks s !! id task = Some task ∧ canStartTask task s = true.
Proof.
  intros Hreg. destruct (getNextRunnableTasks_selected s Hreg) as [Hnd Hsel].
  split_and!; [done|apply getNextRunnableTasks_folders_NoDup|].
  intros task Hin. split; [by apply Hsel|]. by apply getNextRunnableTasks_eligible.
Qed.

(** A queued task whose folder is free has its folder served. *)
Lemma free_folder_served s taskId task :
  registry_inv s → order_inv s →
  tasks s !! taskId = Some task → status task = queued →
  canStartTask task s = true →
  ∃ selected, selected ∈ getNextRunnableTasks s
              ∧ folderPath selected = folderPath task.
Proof.
  intros Hreg [_ Hmem] Htask Hq Hcan.
  assert (taskId ∈ taskOrder s) as [i Hi]%list_elem_of_lookup
    by (apply Hmem; by exists task).
  destruct (first_eligible_exists s (taskOrder s) i taskId task Hi Htask)
    as (k & selected & Hk & Hf); [by apply eligible_true|].
  exists selected. split; [|done]. apply getNextRunnableTasks_elem. by exists k.
Qed.

(** X15.  No queued task is passed over.  In a reachable state a queued
    task is in one of two situations.  Either its folder is locked by a
    registered running task of the same folder, and then the pass selects
    no task of that folder.  Or the folder is free, and then the pass
    selects a task of that folder and starts it: after the pass that task
    is no longer queued and carries the time of the pass as its start
    time, whatever the spawn did. *)
Theorem queued_task_is_blocked_or_served (s : State) (taskId : string) (task : Task) :
  reachable s →
  getTask taskId s = Some task →
  status task = queued →
  (∃ holder,
     folderLocks s !! folderPath task = Some (id holder)
     ∧ getTask (id holder) s = Some holder
     ∧ status holder = running ∧ folderPath holder = folderPath task
     ∧ canStartTask task s = false
     ∧ ∀ selected, selected ∈ getNextRunnableTasks s →
                   folderPath selected ≠ folderPath task)
  ∨ (folderLocks s !! folderPath task = None
     ∧ ∃ selected,
         selected ∈ getNextRunnableTasks s
         ∧ folderPath selected = folderPath task
         ∧ ∀ spawn now, ∃ started',
             getTask (id selected) (runScheduler spawn now s) = Some started'
             ∧ status started' ≠ queued ∧ startedAt started' = Some now).
Proof.
  intros Hreach Htask Hq. unfold getTask in *.
  pose proof (reachable_registry_inv s Hreach) as Hreg.
  pose proof (reachable_order_inv s Hreach) as Hord.
  destruct (inv_keys s Hreg _ _ Htask) as [Hid Hnonempty].
  destruct (folderLocks s !! folderPath task) as [holderId|] eqn:Hlock.
  - left. destruct (inv_holder s Hreg _ _ Hlock) as (holder & Hholder & Hf & Hrun).
    destruct (inv_keys s Hreg _ _ Hholder) as [Hhid Hhne].
    exists holder. rewrite Hhid. split_and!; [done..| |].
    + unfold canStartTask. rewrite Hlock.
      rewrite !bool_decide_eq_false_2; [done| |done].
      intros ->. rewrite Hid, Htask in Hholder. injection Hholder as <-. congruence.
    + intros selected Hin Hsame.
      destruct (getNextRunnableTasks_selected s Hreg) as [_ Hsel].
      destruct (Hsel selected Hin) as [Hsreg Hsq].
      apply getNextRunnableTasks_eligible in Hin as [_ Hscan].
      pose proof (canStartTask_unlocked s selected selected Hreg Hsreg Hsq Hscan).
      congruence.
  - right. split; [done|].
    destruct (free_folder_served s taskId task Hreg Hord Htask Hq)
      as (selected & Hin & Hf).
    { unfold canStartTask. by rewrite Hlock. }
    exists selected. split_and!; [done..|]. intros spawn now.
    destruct (getNextRunnableTasks_ready s Hreg) as (Hids & Hfolders & Hready).
    by destruct (dispatch_started spawn now _ s selected Hids Hfolders Hready Hin).
Qed.

Lemma queued_task_is_blocked_or_served_witness :
  ∃ holder, folderLocks first_running !! "/p" = Some (id holder)
            ∧ status holder = running.
Proof.
  destruct (queued_task_is_blocked_or_served first_running "b"
              (mkTask "b" "/p" "codex" "y" None queued [] None 2 None None))
    as [(holder & Hlock & _ & Hrun & _) | (Hfree & _)].
  - exact reachable_first_running.
  - reflexivity.
  - reflexivity.
  - exists holder. split; [exact Hlock | exact Hrun].
  - discriminate Hfree.
Defined.

(** X18.  One pass starts everything that can start.  In a reachable
    state, when no spawn of the pass fails, a second pass right after it
    finds nothing to select and leaves the state as it is. *)
Theorem second_pass_selects_nothing
    (spawn : string -> SpawnResult) (now : Z) (s : State) :
  reachable s →
  (∀ task, task ∈ getNextRunnableTasks s → spawn (id task) = SpawnOk) →
  getNextRunnableTasks (runScheduler spawn now s) = []
  ∧ getNextRunnableTask (runScheduler spawn now s) = None
  ∧ ∀ spawn' now',
      runScheduler spawn' now' (runScheduler spawn now s) = runScheduler spawn now s.
Proof.
  intros Hreach Hspawn.
  pose proof (reachable_registry_inv s Hreach) as Hreg.
  pose proof (reachable_execution_inv s Hreach) as Hex.
  pose proof (reachable_order_inv s Hreach) as Hord.
  assert (reachable (runScheduler spawn now s)) as Hreach'
    by (by apply (reachable_step s (ESchedule spawn now))).
  pose proof (reachable_registry_inv _ Hreach') as Hreg'.
  destruct (getNextRunnableTasks_ready s Hreg) as (Hids & Hfolders & Hready).
  assert (getNextRunnableTasks (runScheduler spawn now s) = []) as Hnone.
  { destruct (getNextRunnableTasks (runScheduler spawn now s)) as [|task' rest] eqn:E;
      [done|exfalso].
    assert (task' ∈ getNextRunnableTasks (runScheduler spawn now s)) as Hin'
      by (rewrite E; left).
    destruct (getNextRunnableTasks_selected _ Hreg') as [_ Hsel'].
    destruct (Hsel' task' Hin') as [Hreg'' Hq'].
    apply getNextRunnableTasks_eligible in Hin' as [_ Hcan'].
    pose proof (canStartTask_unlocked _ task' task' Hreg' Hreg'' Hq' Hcan') as Hfree'.
    destruct (dispatch_folders _ _ _ _ _ _ Hreg'') as (task & Htask & Hf).
    pose proof (step_task_change s (ESchedule spawn now) _ task task'
                  Hreg Hex I Htask Hreg'') as Hch.
    assert (status task = queued) as Hq.
    { apply task_change_status in Hch. rewrite Hq' in Hch.
      by destruct (status task). }
    destruct (canStartTask task s) eqn:Hcan.
    - destruct (free_folder_served s _ task Hreg Hord Htask Hq Hcan)
        as (selected & Hin & Hsf).
      destruct (dispatch_started spawn now _ s selected Hids Hfolders Hready Hin)
        as [_ Hlock].
      specialize (Hlock Hspawn). unfold runScheduler in Hfree'.
      rewrite Hf, <- Hsf in Hfree'. congruence.
    - assert (folderPath task ∉ folderPath <$> getNextRunnableTasks s) as Hnot.
      { intros (selected & Hsf & Hin)%list_elem_of_fmap.
        destruct (Hready selected Hin) as [_ Hscan].
        destruct (getNextRunnableTasks_selected s Hreg) as [_ Hsel].
        destruct (Hsel selected Hin) as [Hsreg Hsq].
        pose proof (canStartTask_unlocked s selected selected Hreg Hsreg Hsq Hscan)
          as Hsfree.
        revert Hcan. unfold canStartTask. by rewrite Hsf, Hsfree. }
      unfold runScheduler in Hfree'.
      rewrite Hf, dispatch_locks_other in Hfree' by done.
      unfold canStartTask in Hcan. by rewrite Hfree' in Hcan. }
  split_and!.
  - done.
  - unfold getNextRunnableTask. rewrite getNextRunnableTask_from_head.
    fold (getNextRunnableTasks (runScheduler spawn now s)). by rewrite Hnone.
  - intros spawn' now'. unfold runScheduler at 1. by rewrite Hnone.
Qed.

Lemma second_pass_selects_nothing_witness :
  getNextRunnableTasks (runScheduler always_spawns 3 two_queued) = [].
Proof.
  destruct (second_pass_selects_nothing always_spawns 3 two_queued) as (Hnone & _).
  - exact reachable_two_queued.
  - intros task _. reflexivity.
  - exact Hnone.
Defined.

(** ** When a folder changes hands *)

(** X16.  Handing a folder over.  Let a running task hold the lock of
    its folder in a reachable state while another task of that folder is
    queued.  When the running task is stopped, or when its process exits,
    the folder is free in the next state, the queued task is as it was,
    and the next pass selects a task of that folder: the queued one that
    stands first in the order list. *)
Theorem released_folder_goes_to_a_waiting_task
    (s : State) (e : Event) (holder waiting : Task) :
  reachable s →
  getTask (id holder) s = Some holder → status holder = running →
  getTask (id waiting) s = Some waiting → status waiting = queued →
  folderPath waiting = folderPath holder →
  (∃ now, e = EStop (id holder) now ∧ isTaskRunning (id holder) s = true)
  ∨ (∃ k code now captured,
       e = EExit k code now ∧ awaiting s !! k = Some captured
       ∧ id captured = id holder) →
  let s' := apply_event e s in
  folderLocks s !! folderPath holder = Some (id holder)
  ∧ folderLocks s' !! folderPath holder = None
  ∧ getTask (id waiting) s' = Some waiting
  ∧ (∀ ended, getTask (id holder) s' = Some ended → is_terminal (status ended) = true)
  ∧ ∃ selected,
      selected ∈ getNextRunnableTasks s'
      ∧ folderPath selected = folderPath holder
      ∧ status selected = queued
      ∧ ∃ i, at_position s' i selected
             ∧ ∀ j other, (j < i)%nat → at_position s' j other →
                 status other = queued → folderPath other ≠ folderPath selected.
Proof.
  intros Hreach Hholder Hrun Hwaiting Hq Hfolder Hevent s'. unfold getTask in *.
  pose proof (reachable_registry_inv s Hreach) as Hreg.
  assert (reachable s') as Hreach'.
  { apply reachable_step; [done|]. by destruct Hevent as [(? & -> & _)|(? & ? & ? & ? & -> & _)]. }
  pose proof (reachable_registry_inv s' Hreach') as Hreg'.
  pose proof (reachable_order_inv s' Hreach') as Hord'.
  assert (id waiting ≠ id holder) as Hne.
  { intros Heq. rewrite Heq, Hholder in Hwaiting. injection Hwaiting as <-. congruence. }
  pose proof (inv_running s Hreg _ _ Hholder Hrun) as Hlock.
  assert (folderLocks s' !! folderPath holder = None
          ∧ tasks s' !! id waiting = Some waiting
          ∧ ∀ ended, tasks s' !! id holder = Some ended →
                     is_terminal (status ended) = true) as (Hfree & Hkept & Hended).
  { destruct Hevent as [(now & -> & Hproc)|(k & code & now & captured & -> & Hk & Hid)].
    - unfold isTaskRunning in Hproc. apply bool_decide_eq_true_1 in Hproc as [proc Hproc].
      unfold s'. simpl. split_and!.
      + rewrite (stopTask_locks _ now s proc holder Hproc Hholder).
        rewrite releaseFolderLock_lookup. by rewrite bool_decide_eq_true_2.
      + rewrite (stopTask_lookup _ now s proc _ Hproc).
        by rewrite bool_decide_eq_false_2.
      + intros ended. rewrite (stopTask_lookup _ now s proc _ Hproc).
        rewrite bool_decide_eq_true_2, Hholder by done. simpl. by intros [= <-].
    - assert (folderPath captured = folderPath holder) as Hcf.
      { symmetry. apply (inv_awaiting s Hreg captured holder).
        - by eapply list_elem_of_lookup_2.
        - by rewrite Hid. }
      unfold s'. simpl. rewrite Hk. split_and!.
      + rewrite executeTask_resume_locks, releaseFolderLock_lookup. simpl.
        rewrite bool_decide_eq_true_2; [done|]. by rewrite Hcf, Hid.
      + rewrite executeTask_resume_lookup. simpl.
        rewrite bool_decide_eq_false_2 by congruence. done.
      + intros ended. rewrite executeTask_resume_lookup. simpl.
        rewrite bool_decide_eq_true_2, Hid, Hholder by done. simpl.
        intros [= <-]. simpl. by destruct (code =? 0). }
  split_and!; [done..|].
  destruct (free_folder_served s' _ waiting Hreg' Hord' Hkept Hq)
    as (selected & Hin & Hsf).
  { unfold canStartTask. by rewrite Hfolder, Hfree. }
  exists selected.
  destruct (getNextRunnableTasks_selected s' Hreg') as [_ Hsel].
  destruct (Hsel selected Hin) as [_ Hsq].
  split_and!; [done|congruence|done|].
  apply (getNextRunnableTasks_earliest_queued s'
           (registry_inv_no_queued_holder s' Hreg') selected Hin).
Qed.

Lemma released_folder_goes_to_a_waiting_task_witness :
  folderLocks (apply_event (EStop "a" 4) first_running) !! "/p" = None.
Proof.
  destruct (released_folder_goes_to_a_waiting_task first_running (EStop "a" 4)
              (mkTask "a" "/p" "claude" "x" None running [] None 1 (Some 3) None)
              (mkTask "b" "/p" "codex" "y" None queued [] None 2 None None))
    as (_ & Hfree & _).
  - exact reachable_first_running.
  - reflexivity.
  - reflexivity.
  - reflexivity.
  - reflexivity.
  - reflexivity.
  - left. exists 4. split; reflexivity.
  - exact Hfree.
Defined.

(** X17.  The process of a removed task.  When a task has been removed
    while its process was running, the suspended call is still there.
    Lines the process writes afterwards change nothing at all.  Its exit
    takes the entry out of [runningProcesses] and ends the suspended
    call; the registry, the order list and the lock table are not
    touched, so the lock a later task of that folder may hold by then
    stays with it. *)
Theorem exit_of_a_removed_task (s : State) (k : nat) (captured : Task) :
  reachable s →
  awaiting s !! k = Some captured →
  getTask (id captured) s = None →
  (∀ lines, apply_event (EOutput k lines) s = s)
  ∧ ∀ code now,
      let s' := apply_event (EExit k code now) s in
      tasks s' = tasks s
      ∧ taskOrder s' = taskOrder s
      ∧ folderLocks s' = folderLocks s
      ∧ runningProcesses s' = delete (id captured) (runningProcesses s)
      ∧ isTaskRunning (id captured) s' = false
      ∧ awaiting s' = delete k (awaiting s).
Proof.
  intros Hreach Hk Hgone. unfold getTask in Hgone.
  pose proof (reachable_registry_inv s Hreach) as Hreg. split.
  - intros lines. simpl. rewrite Hk. unfold pushOutput. by rewrite Hgone.
  - intros code now s'. unfold s'. simpl. rewrite Hk.
    assert (folderLocks s !! folderPath captured ≠ Some (id captured)) as Hstale.
    { intros Hlock. destruct (inv_holder s Hreg _ _ Hlock) as (t & Ht & _). congruence. }
    split_and!.
    + apply map_eq. intros x. rewrite executeTask_resume_lookup. simpl.
      case_bool_decide as Hx; [subst x; by rewrite Hgone|done].
    + by rewrite executeTask_resume_order.
    + rewrite executeTask_resume_locks. by rewrite releaseFolderLock_stale.
    + by rewrite executeTask_resume_processes.
    + unfold isTaskRunning. rewrite executeTask_resume_processes. simpl.
      rewrite lookup_delete_eq. apply bool_decide_eq_false_2. by intros [? ?].
    + by rewrite executeTask_resume_awaiting.
Qed.

Lemma exit_of_a_removed_task_witness :
  tasks (apply_event (EExit 0 0 5) (apply_event (ERemove "a") first_running))
  = tasks (apply_event (ERemove "a") first_running).
Proof.
  destruct (exit_of_a_removed_task (apply_event (ERemove "a") first_running) 0
              (mkTask "a" "/p" "claude" "x" None queued [] None 1 None None))
    as [_ Hexit].
  - apply reachable_step; [exact reachable_first_running | exact I].
  - reflexivity.
  - reflexivity.
  - destruct (Hexit 0 5) as (Htasks & _). exact Htasks.
Defined.

(** ** The log of a stream and its text *)

Lemma concat_newline_cons (line : string) (lines : list string) :
  lines ≠ [] →
  String.concat newline (line :: lines)
  = line +:+ newline +:+ String.concat newline lines.
Proof. by destruct lines. Qed.

Lemma concat_newline_snoc_empty (lines : list string) :
  lines ≠ [] →
  String.concat newline (lines ++ [""]) = String.concat newline lines +:+ newline.
Proof.
  induction lines as [|line lines IH]; [done|]. intros _.
  destruct lines as [|line' lines].
  - simpl. by rewrite string_app_nil_r.
  - change ((line :: line' :: lines) ++ [""]) with (line :: ((line' :: lines) ++ [""])).
    rewrite concat_newline_cons by done. rewrite IH by done.
    rewrite (concat_newline_cons line (line' :: lines)) by done.
    by rewrite !string_app_assoc.
Qed.

Lemma log_lines_no_newline (text : string) :
  Forall (λ line, ¬ has_newline line) (log_lines text).
Proof.
  pose proof (split_newline_segments text) as Hall. unfold log_lines.
  destruct (split_newline_snoc text) as (complete & partial & Hsplit).
  rewrite Hsplit in *. case_bool_decide; [|done].
  rewrite removelast_last. by apply Forall_app in Hall as [? _].
Qed.

Lemma log_lines_join (text : string) :
  text = String.concat newline (log_lines text)
  ∨ text = String.concat newline (log_lines text) +:+ newline.
Proof.
  destruct (split_newline_snoc text) as (complete & partial & Hsplit).
  pose proof (split_newline_join text) as Hjoin.
  unfold log_lines. rewrite Hsplit in *. rewrite last_snoc.
  case_bool_decide as Hp; [|by left].
  injection Hp as ->. rewrite removelast_last.
  destruct complete as [|line lines]; [by left|right].
  by rewrite <- concat_newline_snoc_empty.
Qed.

Lemma log_lines_empty (text : string) : log_lines text = [] ↔ text = "".
Proof.
  destruct (split_newline_snoc text) as (complete & partial & Hsplit).
  pose proof (split_newline_join text) as Hjoin.
  unfold log_lines. rewrite Hsplit in *. rewrite last_snoc.
  case_bool_decide as Hp.
  - injection Hp as ->. rewrite removelast_last. split.
    + intros ->. by rewrite <- Hjoin.
    + intros ->. simpl in Hsplit. destruct complete as [|? [|? ?]]; done.
  - split; [by destruct complete|].
    intros ->. simpl in Hsplit. destruct complete as [|? [|? ?]]; [|done..].
    injection Hsplit as <-. done.
Qed.

(** X19.  The log of one stream against its text.  A [readStream] call
    that has the decoder to itself pushes the lines of the text that the
    decoder makes of all the bytes of the stream, whatever the chunks
    are: two chunkings of the same bytes give the same lines and leave
    the decoder in the same state.  The lines hold no newline; joined by
    newlines they give that text back, up to one newline at its very end;
    nothing is pushed exactly when that text is empty.  When the reader
    throws, the lines pushed are the same but for the unfinished last
    line, which is lost.  When the bytes are whole characters (the UTF-8
    form of scalar values, no byte order mark) and the decoder holds no
    bytes of an earlier character, the text is the bytes themselves, cut
    anywhere, also inside a character; and in the UTF-8 form of a
    character the newline byte is the newline character only. *)
Theorem readStream_log_and_text (pre : string) (chunks : list string)
    (decoder : TextDecoder) :
  let text := (decode (stream_text chunks) decoder).1 in
  readStream pre chunks Closed decoder
  = (tagged pre <$> log_lines text, (decode (stream_text chunks) decoder).2)
  ∧ (∀ chunks', stream_text chunks' = stream_text chunks →
       ∀ ending, readStream pre chunks' ending decoder
                 = readStream pre chunks ending decoder)
  ∧ Forall (λ line, ¬ has_newline line) (log_lines text)
  ∧ (text = String.concat newline (log_lines text)
     ∨ text = String.concat newline (log_lines text) +:+ newline)
  ∧ ((readStream pre chunks Closed decoder).1 = [] ↔ text = "")
  ∧ (readStream pre chunks ReadError decoder).1
    = tagged pre <$> removelast (split_newline text)
  ∧ (∃ partial, split_newline text = removelast (split_newline text) ++ [partial]
       ∧ log_lines text
         = removelast (split_newline text)
           ++ (if bool_decide (partial = "") then [] else [partial]))
  ∧ (whole_characters (stream_text chunks) → utf8 decoder = utf8_idle →
     text = stream_text chunks
     ∧ (readStream pre chunks Closed decoder).1
       = tagged pre <$> log_lines (stream_text chunks))
  ∧ (∀ cp, is_scalar cp → has_newline (utf8_encode cp) ↔ cp = 10).
Proof.
  intros text. split_and!.
  - apply readStream_spec.
  - intros chunks' Hsame ending. by rewrite !readStream_spec, Hsame.
  - apply log_lines_no_newline.
  - apply log_lines_join.
  - pose proof (log_lines_empty text) as Hempty. rewrite readStream_spec. simpl.
    split.
    + intros Hnil%fmap_nil_inv. by apply Hempty.
    + intros Htext. apply Hempty in Htext. unfold text in Htext. by rewrite Htext.
  - by rewrite readStream_spec.
  - destruct (split_newline_snoc text) as (complete & partial & Hsplit).
    exists partial. unfold log_lines. rewrite Hsplit, last_snoc, removelast_last.
    split; [done|]. case_bool_decide as Hp.
    + rewrite bool_decide_eq_true_2 by congruence. by rewrite app_nil_r.
    + by rewrite bool_decide_eq_false_2 by congruence.
  - intros Hwhole Hidle.
    destruct (decode_whole_characters _ decoder Hwhole Hidle) as [Htext _].
    split; [done|]. rewrite readStream_spec. simpl. by rewrite Htext.
  - apply utf8_encode_newline.
Qed.

Example readStream_character_in_two_chunks :
  (readStream "" [bytes [0x61; 0xE2]; bytes [0x82]; bytes [0xAC; 0x0A; 0x62]]
     Closed new_TextDecoder).1
  = [utf8_text [0x61; 0x20AC]; "b"].
Proof. vm_compute. reflexivity. Qed.

(** ** Fan-out to the connected clients *)

Lemma inbox_app ws sent sent' :
  inbox ws (sent ++ sent') = inbox ws sent ++ inbox ws sent'.
Proof. unfold inbox. by rewrite filter_app, fmap_app. Qed.

Lemma inbox_broadcast ws message clients :
  NoDup clients →
  inbox ws (broadcast message clients)
  = if bool_decide (ws ∈ clients) then [message] else [].
Proof.
  induction clients as [|client clients IH]; [done|].
  intros [Hfirst Hnd]%NoDup_cons.
  change (broadcast message (client :: clients))
    with ([(client, message)] ++ broadcast message clients).
  rewrite inbox_app, (IH Hnd). unfold inbox at 1.
  destruct (decide (client = ws)) as [->|Hne].
  - rewrite filter_cons_True by done. simpl.
    rewrite (bool_decide_eq_false_2 (ws ∈ clients)) by done.
    rewrite bool_decide_eq_true_2 by left. done.
  - rewrite filter_cons_False by done. simpl.
    case_bool_decide as Hin.
    + rewrite bool_decide_eq_true_2 by (by right). done.
    + rewrite bool_decide_eq_false_2; [done|].
      intros [?|?]%elem_of_cons; congruence.
Qed.

Lemma inbox_broadcast_all ws messages clients :
  NoDup clients →
  inbox ws (broadcast_all messages clients)
  = if bool_decide (ws ∈ clients) then messages else [].
Proof.
  intros Hnd. induction messages as [|message messages IH].
  - by case_bool_decide.
  - change (broadcast_all (message :: messages) clients)
      with (broadcast message clients ++ broadcast_all messages clients).
    rewrite inbox_app, IH, inbox_broadcast by done. by case_bool_decide.
Qed.

Lemma addClient_NoDup ws clients : NoDup clients → NoDup (addClient ws clients).
Proof.
  intros Hnd. unfold addClient. case_bool_decide as Hin; [done|].
  apply NoDup_app. split_and!; [done| |apply NoDup_singleton].
  intros x Hx ->%list_elem_of_singleton. done.
Qed.

Lemma addClient_elem ws clients : ws ∈ addClient ws clients.
Proof.
  unfold addClient. case_bool_decide as Hin; [done|].
  apply elem_of_app. right. by apply list_elem_of_singleton.
Qed.

(** X20.  Fan-out.  With the connections held once each, as [addClient]
    and [removeClient] keep them, a run of broadcasts reaches a connected
    client as exactly those messages, once each and in the order sent,
    and reaches a client that is not connected not at all.  Adding a
    connection twice is adding it once, so nothing is delivered twice;
    after [removeClient] the connection gets nothing and the others get
    what they got before. *)
Theorem broadcast_reaches_each_client_once
    (clients : list string) (ws : string) (messages : list WSMessage) :
  NoDup clients →
  (ws ∈ clients → inbox ws (broadcast_all messages clients) = messages)
  ∧ (ws ∉ clients → inbox ws (broadcast_all messages clients) = [])
  ∧ NoDup (addClient ws clients) ∧ NoDup (removeClient ws clients)
  ∧ addClient ws (addClient ws clients) = addClient ws clients
  ∧ inbox ws (broadcast_all messages (addClient ws clients)) = messages
  ∧ inbox ws (broadcast_all messages (removeClient ws clients)) = []
  ∧ (∀ other, other ≠ ws →
       inbox other (broadcast_all messages (removeClient ws clients))
       = inbox other (broadcast_all messages clients)
       ∧ inbox other (broadcast_all messages (addClient ws clients))
         = inbox other (broadcast_all messages clients)).
Proof.
  intros Hnd.
  assert (NoDup (removeClient ws clients)) as Hrem by (by apply NoDup_filter).
  pose proof (addClient_NoDup ws clients Hnd) as Hadd.
  split_and!.
  - intros Hin. rewrite inbox_broadcast_all by done. by rewrite bool_decide_eq_true_2.
  - intros Hnot. rewrite inbox_broadcast_all by done. by rewrite bool_decide_eq_false_2.
  - done.
  - done.
  - unfold addClient at 1. rewrite bool_decide_eq_true_2; [done|apply addClient_elem].
  - rewrite inbox_broadcast_all by done.
    rewrite bool_decide_eq_true_2; [done|apply addClient_elem].
  - rewrite inbox_broadcast_all by done.
    rewrite bool_decide_eq_false_2; [done|].
    unfold removeClient. rewrite list_elem_of_filter. tauto.
  - intros other Hne. rewrite !inbox_broadcast_all by done. split.
    + assert (other ∈ removeClient ws clients ↔ other ∈ clients) as Hiff
        by (unfold removeClient; rewrite list_elem_of_filter; tauto).
      repeat case_bool_decide; tauto.
    + assert (other ∈ addClient ws clients ↔ other ∈ clients) as Hiff.
      { unfold addClient. case_bool_decide; [done|].
        rewrite elem_of_app, list_elem_of_singleton. tauto. }
      repeat case_bool_decide; tauto.
Qed.

Lemma broadcast_reaches_each_client_once_witness :
  inbox "c1" (broadcast_all [task_removed "a"; task_removed "b"] ["c0"; "c1"])
  = [task_removed "a"; task_removed "b"].
Proof.
  destruct (broadcast_reaches_each_client_once ["c0"; "c1"] "c1"
              [task_removed "a"; task_removed "b"]) as (Hin & _).
  - apply NoDup_cons. split; [|apply NoDup_singleton].
    intros Habs%list_elem_of_singleton. discriminate Habs.
  - apply Hin. right. left.
Defined.

(** ** The page follows the server *)

Lemma receive_app messages messages' page :
  Frontend.receive (messages ++ messages') page
  = Frontend.receive messages' (Frontend.receive messages page).
Proof. unfold Frontend.receive. apply foldl_app. Qed.

Lemma with_output_app lines lines' task :
  with_output lines' (with_output lines task) = with_output (lines ++ lines') task.
Proof. unfold with_output. simpl. by rewrite app_assoc. Qed.

Lemma with_output_nil task : with_output [] task = task.
Proof. destruct task. unfold with_output. simpl. by rewrite app_nil_r. Qed.

Lemma receive_outputs taskId lines page :
  Frontend.receive (task_output taskId <$> lines) page
  = match Frontend.tasks page !! taskId with
    | Some task =>
        Frontend.mkPage (<[taskId := with_output lines task]> (Frontend.tasks page))
                         (Frontend.taskOrder page)
    | None => page
    end.
Proof.
  revert page. induction lines as [|line lines IH]; intros page.
  - simpl. destruct (Frontend.tasks page !! taskId) as [task|] eqn:Htask; [|done].
    rewrite with_output_nil, insert_id by done. by destruct page.
  - change (Frontend.receive (task_output taskId <$> line :: lines) page)
      with (Frontend.receive (task_output taskId <$> lines)
              (Frontend.handleMessage (task_output taskId line) page)).
    rewrite IH. simpl.
    destruct (Frontend.tasks page !! taskId) as [task|] eqn:Htask; simpl.
    + rewrite lookup_insert_eq, insert_insert_eq, with_output_app. done.
    + by rewrite Htask.
Qed.

Lemma mirrors_mirrors_except taskId page s :
  mirrors page s → mirrors_except taskId page s.
Proof. intros [Ht Ho]. unfold mirrors_except. rewrite Ht, Ho. tauto. Qed.

Lemma mirrors_except_output taskId output page s :
  mirrors_except taskId page s →
  mirrors_except taskId (Frontend.handleMessage (task_output taskId output) page) s.
Proof.
  intros (Ho & Hother & Hsame). simpl.
  destruct (Frontend.tasks page !! taskId) as [task|] eqn:Htask; [|by rewrite <- Htask in Hsame].
  split_and!; simpl.
  - done.
  - intros other Hne. rewrite lookup_insert_ne by done. by apply Hother.
  - rewrite lookup_insert_eq. split; [intros _|eauto]. apply Hsame. eauto.
Qed.

(** The page catches up with a step that rewrote one task when the task
    is broadcast as it is registered afterwards. *)
Lemma mirrors_update taskId page s s' :
  mirrors_except taskId page s →
  keys_ok s' →
  (∀ other, other ≠ taskId → tasks s' !! other = tasks s !! other) →
  (is_Some (tasks s' !! taskId) ↔ is_Some (tasks s !! taskId)) →
  taskOrder s' = taskOrder s →
  mirrors (Frontend.receive (updated_message taskId s') page) s'.
Proof.
  intros (Ho & Hother & Hsame) Hkeys Hframe Hids Horder.
  unfold updated_message, getTask.
  destruct (tasks s' !! taskId) as [task'|] eqn:Htask'.
  - simpl. rewrite (Hkeys _ _ Htask'). split; simpl; [|congruence].
    apply map_eq. intros x. destruct (decide (x = taskId)) as [->|Hne].
    + by rewrite lookup_insert_eq.
    + rewrite lookup_insert_ne by done. rewrite Hframe by done. by apply Hother.
  - simpl. split; [|congruence].
    apply map_eq. intros x. destruct (decide (x = taskId)) as [->|Hne].
    + rewrite Htask'. apply eq_None_not_Some. rewrite Hsame, <- Hids. by intros [? ?].
    + rewrite Hframe by done. by apply Hother.
Qed.

Lemma keys_ok_changed s s' taskId (change : Task -> Task) :
  keys_ok s → (∀ t, id (change t) = id t) →
  (∀ other, tasks s' !! other =
      if bool_decide (other = taskId) then change <$> tasks s !! taskId
      else tasks s !! other) →
  keys_ok s'.
Proof.
  intros Hkeys Hid Hlookup x t' Ht'.
  destruct (changed_lookup_inv _ _ _ _ _ _ Hlookup Ht') as (t & Ht & [[_ ->]|[-> ->]]).
  - by eapply Hkeys.
  - rewrite Hid. by eapply Hkeys.
Qed.

Lemma keys_ok_executeTask task spawn now s :
  keys_ok s → keys_ok (executeTask task spawn now s).2.
Proof.
  intros Hkeys. rewrite executeTask_unfold.
  destruct (canStartTask task s); [|done].
  assert (keys_ok (started task now s)) as Hstarted.
  { apply (keys_ok_changed s _ (id task) (λ t, assign t (running_update now)));
      [done|done|apply started_lookup]. }
  destruct (buildCommand task) as [message|proc]; [done|].
  destruct spawn as [|message caughtAt]; [done|]. simpl.
  apply (keys_ok_changed (started task now s) _ (id task)
           (λ t, assign (with_output ["[error] " +:+ message] t)
                   (failed_update caughtAt))); [done|done|].
  apply executeTask_catch_lookup.
Qed.

Lemma mirrors_executeTask task spawn now page s :
  keys_ok s → mirrors page s →
  let s' := (executeTask task spawn now s).2 in
  mirrors (Frontend.receive
             (executeTask_broadcasts task spawn now s ++ updated_message (id task) s')
             page) s'.
Proof.
  intros Hkeys Hmirror s'.
  pose proof (keys_ok_executeTask task spawn now s Hkeys) as Hkeys'.
  assert (∀ page0, mirrors_except (id task) page0 s →
            mirrors (Frontend.receive (updated_message (id task) s') page0) s')
    as Hupdate.
  { intros page0 Hexcept. apply (mirrors_update _ _ s); [done|done| | |].
    - intros other Hne. by apply executeTask_frame.
    - apply executeTask_ids.
    - apply executeTask_order. }
  assert (∀ page0, mirrors page0 s' →
            mirrors (Frontend.receive (updated_message (id task) s') page0) s')
    as Hagain.
  { intros page0 Hm. apply (mirrors_update _ _ s'); [|done..].
    by apply mirrors_mirrors_except. }
  rewrite receive_app. unfold executeTask_broadcasts.
  destruct (executeTask task spawn now s) as [outcome s1] eqn:Hexec.
  assert (s1 = s') as Hs1 by reflexivity.
  rewrite Hs1. clear Hs1 Hexec.
  destruct outcome; try (apply Hupdate; by apply mirrors_mirrors_except).
  destruct spawn as [|message caughtAt];
    [apply Hupdate; by apply mirrors_mirrors_except|].
  apply Hagain.
  change (Frontend.receive ([task_output (id task) ("[error] " +:+ message);
                             task_completed (id task) (-1)]
                            ++ updated_message (id task) s') page)
    with (Frontend.receive (updated_message (id task) s')
            (Frontend.handleMessage (task_output (id task) ("[error] " +:+ message))
               page)).
  apply Hupdate. by apply mirrors_except_output, mirrors_mirrors_except.
Qed.

Lemma mirrors_dispatch spawn now selected page s :
  keys_ok s → mirrors page s →
  mirrors (Frontend.receive (dispatch_broadcasts spawn now selected s) page)
          (dispatch spawn now selected s).
Proof.
  revert page s. induction selected as [|task rest IH]; intros page s Hkeys Hm; [done|].
  simpl. rewrite app_assoc, receive_app. apply IH.
  - by apply keys_ok_executeTask.
  - by apply mirrors_executeTask.
Qed.

Lemma removeTask_order taskId task s :
  order_inv s → tasks s !! taskId = Some task →
  taskOrder (removeTask taskId s).2 = filter (λ other, other ≠ taskId) (taskOrder s).
Proof.
  intros [Hnd Hmem] Htask. unfold removeTask. rewrite Htask. simpl.
  assert (taskId ∈ taskOrder s) as Hin by (apply Hmem; by exists task).
  destruct (indexOf_spec taskId (taskOrder s)) as [[_ Habs]|(i & Hi & _)]; [done|].
  rewrite Hi at 1. Zcompare; try lia. by apply delete_indexOf_filter.
Qed.

Lemma registry_inv_keys_ok s : registry_inv s → keys_ok s.
Proof. intros Hreg x t Ht. by destruct (inv_keys s Hreg x t Ht). Qed.

Lemma mirrors_event s e page :
  registry_inv s → order_inv s → enabled s e →
  mirrors page s →
  mirrors (Frontend.receive (broadcasts e s) page) (apply_event e s).
Proof.
  intros Hreg Hord Hen Hm.
  pose proof (registry_inv_keys_ok _ (registry_inv_event s e Hreg Hen)) as Hkeys'.
  pose proof Hm as [Ht Ho].
  destruct e; simpl in *.
  - split; simpl; congruence.
  - unfold reorderTask. destruct (_ =? _); [done|]. destruct (_ || _); [done|].
    split; simpl; done.
  - unfold removeTask at 1. destruct (tasks s !! taskId) as [task|] eqn:Htask.
    + simpl. split; simpl.
      * unfold removeTask. rewrite Htask. simpl. congruence.
      * rewrite (removeTask_order taskId task s Hord Htask). congruence.
    + simpl. unfold removeTask. by rewrite Htask.
  - destruct (runningProcesses s !! taskId) as [proc|] eqn:Hproc.
    + assert (∃ s', stopTask taskId now s = (true, s')) as [s' Hstop].
      { unfold stopTask. rewrite Hproc. destruct (getTask _ _); eauto. }
      rewrite Hstop in *. simpl in *.
      assert (s' = (stopTask taskId now s).2) as Hs' by (by rewrite Hstop).
      apply (mirrors_update _ _ s); [by apply mirrors_mirrors_except|done| | |].
      * intros other Hne. rewrite Hs', (stopTask_lookup taskId now s proc other Hproc).
        by rewrite bool_decide_eq_false_2.
      * rewrite Hs', (stopTask_lookup taskId now s proc taskId Hproc).
        rewrite bool_decide_eq_true_2 by done. by rewrite fmap_is_Some.
      * rewrite Hs'. apply stopTask_order.
    + rewrite stopTask_idle by done. done.
  - apply mirrors_dispatch; [by apply registry_inv_keys_ok|done].
  - destruct (awaiting s !! k) as [captured|]; [|done].
    rewrite receive_outputs, Ht. unfold pushOutput.
    destruct (tasks s !! id captured) as [task|]; [|done].
    split; simpl; done.
  - destruct (awaiting s !! k) as [captured|] eqn:Hk; [|done].
    change (Frontend.receive (task_completed (id captured) code :: ?rest) page)
      with (Frontend.receive rest page).
    apply (mirrors_update _ _ s); [by apply mirrors_mirrors_except|done| | |].
    + intros other Hne. rewrite executeTask_resume_lookup. simpl.
      by rewrite bool_decide_eq_false_2.
    + rewrite executeTask_resume_lookup. simpl.
      rewrite bool_decide_eq_true_2 by done. by rewrite fmap_is_Some.
    + by rewrite executeTask_resume_order.
Qed.

(** X21.  The page shows the registry.  A page that shows what the
    server holds still does so after any step from a reachable state,
    once it has handled the messages the server broadcast in that step:
    [handleMessage] in the browser applied to the broadcasts of
    [handleClientMessage], of the scheduler pass and of the executor
    callbacks rebuilds the task map and the order list of the server.  So
    a page that is connected from the start and receives every broadcast
    follows the server through every run. *)
Theorem page_follows_the_server :
  (∀ s e page,
     reachable s → enabled s e → mirrors page s →
     mirrors (Frontend.receive (broadcasts e s) page) (apply_event e s))
  ∧ (∀ events,
       session_enabled events init →
       let '(s, page) := session events init Frontend.initial in
       reachable s ∧ mirrors page s
       ∧ Frontend.tasks page = tasks s
       ∧ Frontend.taskOrder page = getTaskOrder s).
Proof.
  assert (∀ s e page,
     reachable s → enabled s e → mirrors page s →
     mirrors (Frontend.receive (broadcasts e s) page) (apply_event e s)) as Hstep.
  { intros s e page Hreach Hen Hm.
    apply mirrors_event; [by apply reachable_registry_inv
                         |by apply reachable_order_inv|done|done]. }
  split; [exact Hstep|].
  assert (∀ events s page,
            reachable s → mirrors page s → session_enabled events s →
            reachable (session events s page).1
            ∧ mirrors (session events s page).2 (session events s page).1) as Hrun.
  { induction events as [|e rest IH]; intros s page Hreach Hm Hall; [done|].
    destruct Hall as [Hen Hall]. simpl. apply IH; [|by apply Hstep|done].
    by apply reachable_step. }
  intros events Hall.
  destruct (Hrun events init Frontend.initial) as [Hreach Hm];
    [apply reachable_init|done|done|].
  destruct (session events init Frontend.initial) as [s page]. simpl in *.
  destruct Hm as [Ht Ho]. by split_and!.
Qed.

(** ** Stopping a running task *)

Lemma buildCommand_assign t u : buildCommand (assign t u) = buildCommand t.
Proof. done. Qed.

Lemma buildCommand_with_output lines t : buildCommand (with_output lines t) = buildCommand t.
Proof. done. Qed.

Lemma running_has_process_executeTask task spawn now s :
  running_has_process s →
  tasks s !! id task = Some task →
  running_has_process (executeTask task spawn now s).2.
Proof.
  intros Hinv Hreg x t' proc. rewrite executeTask_unfold.
  destruct (canStartTask task s); [|apply Hinv].
  assert (∀ t1, tasks (started task now s) !! x = Some t1 →
            x ≠ id task ∧ tasks s !! x = Some t1
            ∨ x = id task ∧ t1 = assign task (running_update now)) as Hstarted.
  { intros t1. rewrite started_lookup. case_bool_decide as Hx.
    - subst x. rewrite Hreg. simpl. intros [= <-]. by right.
    - intros Ht1. by left. }
  destruct (buildCommand task) as [message|proc0] eqn:Hcmd; simpl.
  - rewrite started_processes. intros [[Hx Ht]|[-> ->]]%Hstarted Hrun Hb.
    + by eapply Hinv.
    + rewrite buildCommand_assign in Hb. congruence.
  - destruct spawn as [|message caughtAt]; simpl.
    + rewrite started_processes. intros [[Hx Ht]|[-> ->]]%Hstarted Hrun Hb.
      * rewrite lookup_insert_ne by done. by eapply Hinv.
      * rewrite lookup_insert_eq. eauto.
    + rewrite executeTask_catch_lookup, executeTask_catch_processes, started_processes.
      case_bool_decide as Hx.
      * subst x. destruct (tasks (started task now s) !! id task); [|done].
        simpl. by intros [= <-].
      * intros [[_ Ht]|[? _]]%Hstarted Hrun Hb; [|done].
        rewrite lookup_delete_ne by done. by eapply Hinv.
Qed.

Lemma running_has_process_dispatch spawn now selected s :
  running_has_process s →
  NoDup (id <$> selected) →
  (∀ task, task ∈ selected → tasks s !! id task = Some task) →
  running_has_process (dispatch spawn now selected s).
Proof.
  revert s. induction selected as [|task rest IH]; intros s Hinv Hnd Hsel; [done|].
  simpl. rewrite fmap_cons in Hnd. apply NoDup_cons in Hnd as [Hfirst Hnd].
  apply IH; [|done|].
  - apply running_has_process_executeTask; [done|]. apply Hsel. left.
  - intros other Hin. rewrite executeTask_frame; [apply Hsel; by right|].
    intros Heq. apply Hfirst. rewrite <- Heq. by apply list_elem_of_fmap_2.
Qed.

Lemma running_has_process_event s e :
  registry_inv s → enabled s e →
  running_has_process s → running_has_process (apply_event e s).
Proof.
  intros Hreg Hen Hinv. destruct e; simpl in *.
  - intros x registered proc. simpl. destruct (decide (x = newId)) as [->|Hne].
    + rewrite lookup_insert_eq. by intros [= <-].
    + rewrite lookup_insert_ne by done. apply Hinv.
  - unfold reorderTask. destruct (_ =? _); [done|]. by destruct (_ || _).
  - unfold removeTask. destruct (tasks s !! taskId); [|done]. simpl.
    intros x registered proc. simpl. intros [_ Ht]%lookup_delete_Some. by apply Hinv.
  - destruct (runningProcesses s !! taskId) as [proc0|] eqn:Hproc;
      [|by rewrite stopTask_idle].
    intros x registered proc.
    rewrite (stopTask_lookup taskId now s proc0 x Hproc), stopTask_processes.
    case_bool_decide as Hx.
    + subst x. destruct (tasks s !! taskId); [|done]. simpl. by intros [= <-].
    + rewrite lookup_delete_ne by done. apply Hinv.
  - destruct (getNextRunnableTasks_selected s Hreg) as [Hnd Hsel].
    apply running_has_process_dispatch; [done|done|].
    intros task Hin. by apply Hsel.
  - destruct (awaiting s !! k) as [captured|]; [|done].
    intros x registered proc. rewrite pushOutput_lookup, pushOutput_processes.
    case_bool_decide as Hx; [|apply Hinv].
    subst x. destruct (tasks s !! id captured) as [t0|] eqn:Ht0; [|done].
    simpl. intros [= <-]. rewrite buildCommand_with_output.
    intros Hrun Hb. by apply (Hinv _ t0 proc).
  - destruct (awaiting s !! k) as [captured|]; [|done].
    intros x registered proc.
    rewrite executeTask_resume_lookup, executeTask_resume_processes. simpl.
    case_bool_decide as Hx.
    + subst x. destruct (tasks s !! id captured); [|done]. simpl.
      intros [= <-]. simpl. by destruct (code =? 0).
    + rewrite lookup_delete_ne by done. apply Hinv.
Qed.

Lemma reachable_running_has_process s : reachable s → running_has_process s.
Proof.
  induction 1 as [|s e Hreach IH Hen].
  - intros x t proc Ht. simpl in Ht. by rewrite lookup_empty in Ht.
  - apply running_has_process_event; [by apply reachable_registry_inv|done..].
Qed.

(** X22.  A running task can be stopped.  In a reachable state a
    registered task that is [running] and whose agent is [claude] or
    [codex] has a process, so [stopTask] succeeds: the task ends as
    [error] with exit code [-9] and the time of the request, the line
    "[system] Task stopped by user" is the last of its log, its process
    entry is gone and its folder is free. *)
Theorem running_task_can_be_stopped (s : State) (taskId : string) (task : Task)
    (now : Z) :
  reachable s →
  getTask taskId s = Some task →
  status task = running →
  agent task = "claude" ∨ agent task = "codex" →
  isTaskRunning taskId s = true
  ∧ ∃ s', stopTask taskId now s = (true, s')
      ∧ getTask taskId s'
        = Some (with_output ["[system] Task stopped by user"]
                  (assign task (stopped_update now)))
      ∧ isTaskRunning taskId s' = false
      ∧ folderLocks s' !! folderPath task = None
      ∧ canStartTask task s' = true
      ∧ taskOrder s' = taskOrder s
      ∧ ∀ other, other ≠ taskId → getTask other s' = getTask other s.
Proof.
  intros Hreach Htask Hrun Hagent. unfold getTask in *.
  pose proof (reachable_registry_inv s Hreach) as Hreg.
  assert (∃ proc, buildCommand task = inr proc) as [proc Hcmd].
  { unfold buildCommand. destruct Hagent as [-> | ->]; simpl; eauto. }
  destruct (reachable_running_has_process s Hreach taskId task proc Htask Hrun Hcmd)
    as [running_proc Hproc].
  assert (∃ s', stopTask taskId now s = (true, s')) as [s' Hstop].
  { unfold stopTask, getTask. rewrite Hproc. simpl. rewrite Htask. eauto. }
  assert (s' = (stopTask taskId now s).2) as Hs' by (by rewrite Hstop).
  assert (folderLocks s' !! folderPath task = None) as Hfree.
  { rewrite Hs', (stopTask_locks taskId now s running_proc task Hproc Htask).
    rewrite releaseFolderLock_lookup.
    destruct (inv_keys s Hreg _ _ Htask) as [Hid _].
    rewrite bool_decide_eq_true_2; [done|]. split; [done|].
    rewrite Hid. by apply (inv_running s Hreg). }
  split.
  - unfold isTaskRunning. rewrite Hproc. by apply bool_decide_eq_true_2.
  - exists s'. split_and!.
    + done.
    + rewrite Hs', (stopTask_lookup taskId now s running_proc taskId Hproc).
      by rewrite bool_decide_eq_true_2, Htask.
    + unfold isTaskRunning. rewrite Hs', stopTask_processes, lookup_delete_eq.
      apply bool_decide_eq_false_2. by intros [? ?].
    + done.
    + unfold canStartTask. by rewrite Hfree.
    + rewrite Hs'. apply stopTask_order.
    + intros other Hne.
      rewrite Hs', (stopTask_lookup taskId now s running_proc other Hproc).
      by rewrite bool_decide_eq_false_2.
Qed.

Lemma running_task_can_be_stopped_witness :
  isTaskRunning "a" first_running = true.
Proof.
  destruct (running_task_can_be_stopped first_running "a"
              (mkTask "a" "/p" "claude" "x" None running [] None 1 (Some 3) None) 4)
    as (Hrun & _).
  - exact reachable_first_running.
  - reflexivity.
  - reflexivity.
  - left. reflexivity.
  - exact Hrun.
Defined.

(** ** What a task card offers *)

(** X23.  The controls of a card against the server.  Let the page show
    what a reachable server state holds, and take the card of a task.
    The arrow up is enabled exactly when the server accepts moving the
    task up, and the arrow down exactly when it accepts moving it down.
    The card offers [Stop] exactly for a running task, and then the
    server accepts the stop if the agent of the task is a known one;
    otherwise the card offers the remove cross, and the server accepts
    the removal. *)
Theorem card_controls_match_the_server
    (s : State) (page : Frontend.Page) (index : nat) (task : Task) (now : Z) :
  reachable s →
  mirrors page s →
  card_at page index task →
  (up_disabled index = false ↔ (reorderTask (id task) up s).1 = true)
  ∧ (down_disabled index page = false ↔ (reorderTask (id task) down s).1 = true)
  ∧ (offers_stop task = true →
     agent task = "claude" ∨ agent task = "codex" →
     (stopTask (id task) now s).1 = true)
  ∧ (offers_stop task = false →
     (removeTask (id task) s).1 = true ∧ (stopTask (id task) now s).1 = false).
Proof.
  intros Hreach [Ht Ho] (taskId & Hindex & Htask).
  rewrite Ho in Hindex. rewrite Ht in Htask.
  pose proof (reachable_registry_inv s Hreach) as Hreg.
  destruct (reachable_order_inv s Hreach) as [Hnd _].
  destruct (inv_keys s Hreg _ _ Htask) as [Hid _]. rewrite Hid.
  pose proof (indexOf_NoDup taskId (taskOrder s) index Hnd Hindex) as Hi.
  pose proof (lookup_lt_Some _ _ _ Hindex) as Hlen.
  unfold up_disabled, down_disabled, offers_stop. rewrite Ho. split_and!.
  - unfold reorderTask. rewrite Hi. case_bool_decide as H0; Zcompare; simpl; split;
      try done; try lia.
  - unfold reorderTask. rewrite Hi. case_bool_decide as H0; Zcompare; simpl; split;
      try done; try lia.
  - intros Hrun%bool_decide_eq_true_1 Hagent.
    assert (∃ proc, buildCommand task = inr proc) as [proc Hcmd].
    { unfold buildCommand. destruct Hagent as [-> | ->]; simpl; eauto. }
    destruct (reachable_running_has_process s Hreach taskId task proc Htask Hrun Hcmd)
      as [running_proc Hproc].
    unfold stopTask, getTask. rewrite Hproc. simpl. by rewrite Htask.
  - intros Hnot%bool_decide_eq_false_1. split.
    + unfold removeTask. by rewrite Htask.
    + destruct (runningProcesses s !! taskId) as [proc|] eqn:Hproc;
        [|by rewrite stopTask_idle].
      destruct Hnot.
      by apply (ex_process_running s (reachable_execution_inv s Hreach) taskId proc).
Qed.

Lemma card_controls_match_the_server_witness :
  (reorderTask "b" up first_running).1 = true.
Proof.
  destruct (card_controls_match_the_server first_running
              (Frontend.mkPage (tasks first_running) (taskOrder first_running)) 1
              (mkTask "b" "/p" "codex" "y" None queued [] None 2 None None) 4)
    as (Hup & _).
  - exact reachable_first_running.
  - split; reflexivity.
  - exists "b". split; reflexivity.
  - apply Hup. reflexivity.
Defined.

(** ** Both streams, chunks of whole characters *)

Lemma pushed_by_app (from : Stream) (a b : list (Stream * string)) :
  pushed_by from (a ++ b) = pushed_by from a ++ pushed_by from b.
Proof. unfold pushed_by. by rewrite filter_app, fmap_app. Qed.

Lemma pushed_by_same (from : Stream) (lines : list string) :
  pushed_by from (pair from <$> lines) = lines.
Proof.
  induction lines as [|line lines IH]; [done|].
  unfold pushed_by in *. rewrite fmap_cons, filter_cons_True by done.
  rewrite fmap_cons. by f_equal.
Qed.

Lemma pushed_by_other (from origin : Stream) (lines : list string) :
  origin ≠ from → pushed_by from (pair origin <$> lines) = [].
Proof.
  intros Hne. induction lines as [|line lines IH]; [done|].
  rewrite fmap_cons. unfold pushed_by in *.
  by rewrite filter_cons_False by done.
Qed.

Lemma buffer_of_set_reader (from origin : Stream) buffer d r :
  buffer_of from (set_reader origin buffer d r)
  = if decide (origin = from) then buffer else buffer_of from r.
Proof. by destruct from, origin. Qed.

Lemma decoder_set_reader (origin : Stream) buffer d r :
  decoder (set_reader origin buffer d r) = d.
Proof. by destruct origin. Qed.

(** A turn of the other stream: nothing pushed for this one, its buffer
    kept, and the decoder left with no bytes needed when the chunk is of
    whole characters. *)
Lemma read_turn_other (from origin : Stream) (e : Read) (r : Readers) :
  origin ≠ from →
  (∃ value, e = Chunk origin value ∧ whole_characters value)
  ∨ (∃ ending, e = Finish origin ending) →
  utf8 (decoder r) = utf8_idle →
  pushed_by from (read_turn e r).1 = []
  ∧ buffer_of from (read_turn e r).2 = buffer_of from r
  ∧ utf8 (decoder (read_turn e r).2) = utf8_idle.
Proof.
  intros Hne [(value & -> & Hwhole)|(ending & ->)] Hidle; simpl.
  - destruct (buffer_of origin r) as [buffer|]; [|done].
    destruct (decode_whole_characters value (decoder r) Hwhole Hidle) as [Htext Hd].
    destruct (split_newline_snoc (buffer +:+ (decode value (decoder r)).1))
      as (complete & partial & Hsplit).
    rewrite (readStream_read_spec _ _ _ _ _ _ Hsplit). simpl.
    rewrite pushed_by_other, buffer_of_set_reader, decoder_set_reader by done.
    by rewrite decide_False.
  - destruct (buffer_of origin r) as [buffer|]; [|done]. simpl.
    rewrite pushed_by_other, buffer_of_set_reader, decoder_set_reader by done.
    by rewrite decide_False.
Qed.

Lemma readStreams_cons (e : Read) (rest : list Read) (r : Readers) :
  readStreams (e :: rest) r
  = ((read_turn e r).1 ++ (readStreams rest (read_turn e r).2).1,
     (readStreams rest (read_turn e r).2).2).
Proof.
  simpl. destruct (read_turn e r) as [pushed r']. simpl.
  by destruct (readStreams rest r').
Qed.

Lemma readStreams_app (reads reads' : list Read) (r : Readers) :
  (readStreams (reads ++ reads') r).1
  = (readStreams reads r).1 ++ (readStreams reads' (readStreams reads r).2).1.
Proof.
  revert r. induction reads as [|e reads IH]; intros r; [done|].
  change ((e :: reads) ++ reads') with (e :: (reads ++ reads')).
  rewrite !readStreams_cons. simpl. by rewrite IH, app_assoc.
Qed.

(** While a stream is being read and every chunk of either stream is of
    whole characters, what the stream has pushed and what is in its
    buffer are the segments of its text so far. *)
Lemma readStreams_reading (from : Stream) (reads : list Read) (r : Readers)
    (buffer : string) :
  (∀ origin value, Chunk origin value ∈ reads → whole_characters value) →
  still_reading from reads →
  utf8 (decoder r) = utf8_idle →
  buffer_of from r = Some buffer → ¬ has_newline buffer →
  ∃ complete partial,
    split_newline (buffer +:+ stream_text (chunks_from from reads))
    = complete ++ [partial]
    ∧ pushed_by from (readStreams reads r).1
      = tagged (stream_prefix from) <$> complete
    ∧ buffer_of from (readStreams reads r).2 = Some partial
    ∧ utf8 (decoder (readStreams reads r).2) = utf8_idle.
Proof.
  revert r buffer. induction reads as [|e reads IH];
    intros r buffer Hwhole Hreading Hidle Hbuffer Hno.
  - exists [], buffer. simpl. rewrite string_app_nil_r.
    by rewrite split_newline_single.
  - assert (∀ origin value, Chunk origin value ∈ reads → whole_characters value)
      as Hwhole' by (intros origin value Hin; apply (Hwhole origin); by right).
    assert (still_reading from reads) as Hreading'
      by (intros ending Hin; apply (Hreading ending); by right).
    rewrite readStreams_cons. cbn [fst snd]. rewrite pushed_by_app.
    assert (∀ origin, origin ≠ from →
              (∃ value, e = Chunk origin value ∧ whole_characters value)
              ∨ (∃ ending, e = Finish origin ending) →
              chunks_from from (e :: reads) = chunks_from from reads →
              ∃ complete partial,
                split_newline (buffer +:+ stream_text (chunks_from from (e :: reads)))
                = complete ++ [partial]
                ∧ pushed_by from (read_turn e r).1
                  ++ pushed_by from (readStreams reads (read_turn e r).2).1
                  = tagged (stream_prefix from) <$> complete
                ∧ buffer_of from (readStreams reads (read_turn e r).2).2 = Some partial
                ∧ utf8 (decoder (readStreams reads (read_turn e r).2).2) = utf8_idle)
      as Hother.
    { intros origin Hne He Hchunks.
      destruct (read_turn_other from origin e r Hne He Hidle) as (Hp & Hb & Hd).
      rewrite Hp, Hchunks. apply IH; [done|done|done|by rewrite Hb|done]. }
    destruct e as [origin value|origin ending].
    + destruct (decide (origin = from)) as [->|Hne].
      * assert (whole_characters value) as Hvalue by (apply (Hwhole from); left).
        destruct (decode_whole_characters value (decoder r) Hvalue Hidle)
          as [Htext Hd].
        destruct (split_newline_snoc (buffer +:+ value)) as (c1 & p1 & H1).
        pose proof (split_newline_last _ _ _ H1) as Hp1.
        assert (read_turn (Chunk from value) r
                = (pair from <$> (tagged (stream_prefix from) <$> c1),
                   set_reader from (Some p1) (decode value (decoder r)).2 r))
          as Hturn.
        { simpl. rewrite Hbuffer.
          rewrite (readStream_read_spec _ _ _ _ c1 p1) by (by rewrite Htext).
          done. }
        rewrite Hturn. cbn [fst snd]. rewrite pushed_by_same.
        destruct (IH (set_reader from (Some p1) (decode value (decoder r)).2 r) p1)
          as (c2 & p2 & H2 & Hpushed & Hb & Hdec); [done|done| | |done|].
        { by rewrite decoder_set_reader. }
        { by rewrite buffer_of_set_reader, decide_True. }
        exists (c1 ++ c2), p2. split_and!; [| |done|done].
        -- assert (chunks_from from (Chunk from value :: reads)
                   = value :: chunks_from from reads) as ->.
           { unfold chunks_from. simpl. by rewrite decide_True. }
           change (stream_text (value :: ?l)) with (value +:+ stream_text l).
           rewrite <- string_app_assoc, (split_newline_app _ _ _ _ H1), H2.
           by rewrite app_assoc.
        -- by rewrite Hpushed, fmap_app.
      * apply (Hother origin Hne).
        -- left. exists value. split; [done|]. apply (Hwhole origin). left.
        -- unfold chunks_from. simpl. by rewrite decide_False.
    + destruct (decide (origin = from)) as [->|Hne].
      * destruct (Hreading ending). left.
      * apply (Hother origin Hne); [right; by exists ending|done].
Qed.

(** A stream whose call has returned pushes nothing more. *)
Lemma readStreams_returned (from : Stream) (reads : list Read) (r : Readers) :
  buffer_of from r = None → pushed_by from (readStreams reads r).1 = [].
Proof.
  revert r. induction reads as [|e reads IH]; intros r Hnone; [done|].
  rewrite readStreams_cons. cbn [fst snd]. rewrite pushed_by_app.
  assert (pushed_by from (read_turn e r).1 = []
          ∧ buffer_of from (read_turn e r).2 = None) as [-> Hnone'].
  { destruct e as [origin value|origin ending]; simpl;
      (destruct (decide (origin = from)) as [->|Hne];
       [by rewrite Hnone|]);
      (destruct (buffer_of origin r) as [buffer|]; [|done]).
    - destruct (readStream_read _ _ _ _) as [[lines buffer'] decoder']. simpl.
      rewrite pushed_by_other, buffer_of_set_reader by done.
      by rewrite decide_False.
    - simpl. rewrite pushed_by_other, buffer_of_set_reader by done.
      by rewrite decide_False. }
  by rewrite IH.
Qed.

(** X24.  Both streams together, when no chunk ends inside a character.
    Let every chunk that either stream delivers be of whole characters
    (the UTF-8 form of scalar values, no byte order mark), in any order
    of arrival.  Then what a stream has pushed when its reader reports
    the end is the lines of its own text: the newline-separated segments
    of its bytes, tagged with the prefix of the stream, the last one
    flushed if it is not empty; nothing of the other stream gets into
    them, and nothing is pushed for it afterwards.  When the reader
    throws instead, the same lines are pushed but for the unfinished last
    one. *)
Theorem interleaved_streams_of_whole_characters
    (from : Stream) (before after : list Read) (ending : Ending) :
  (∀ origin value, Chunk origin value ∈ before → whole_characters value) →
  still_reading from before →
  let text := stream_text (chunks_from from before) in
  pushed_by from (readStreams (before ++ Finish from ending :: after) start_reading).1
  = tagged (stream_prefix from) <$>
      match ending with
      | Closed => log_lines text
      | ReadError => removelast (split_newline text)
      end.
Proof.
  intros Hwhole Hreading text.
  destruct (readStreams_reading from before start_reading "" Hwhole Hreading)
    as (complete & partial & Hsplit & Hpushed & Hbuffer & _).
  { done. }
  { by destruct from. }
  { unfold has_newline. simpl. apply not_elem_of_nil. }
  change ("" +:+ ?t) with t in Hsplit. fold text in Hsplit.
  rewrite readStreams_app, pushed_by_app, Hpushed.
  rewrite readStreams_cons. cbn [fst snd]. rewrite pushed_by_app.
  rewrite readStreams_returned.
  2: { simpl. rewrite Hbuffer. simpl. by rewrite buffer_of_set_reader, decide_True. }
  rewrite app_nil_r. simpl. rewrite Hbuffer. simpl. rewrite pushed_by_same.
  unfold readStream_flush, log_lines. rewrite Hsplit, last_snoc, removelast_last.
  destruct ending; [|by rewrite app_nil_r].
  case_bool_decide as Hp.
  - rewrite bool_decide_eq_true_2 by congruence. by rewrite app_nil_r.
  - rewrite bool_decide_eq_false_2 by congruence. by rewrite fmap_app.
Qed.

Lemma interleaved_streams_of_whole_characters_witness :
  pushed_by stdout
    (readStreams ([Chunk stderr (bytes [0x78; 0x0A]);
                   Chunk stdout (bytes [0xC3; 0xA9; 0x0A; 0x62])]
                  ++ Finish stdout Closed :: [Finish stderr Closed])
       start_reading).1
  = [utf8_text [0xE9]; "b"].
Proof.
  apply (interleaved_streams_of_whole_characters stdout
           [Chunk stderr (bytes [0x78; 0x0A]);
            Chunk stdout (bytes [0xC3; 0xA9; 0x0A; 0x62])]
           [Finish stderr Closed] Closed).
  - intros origin value Hin.
    apply elem_of_cons in Hin as [Hin|Hin];
      [|apply elem_of_cons in Hin as [Hin|Hin]; [|by apply not_elem_of_nil in Hin]];
      injection Hin as _ ->.
    + exists [0x78; 0x0A]. split_and!.
      * reflexivity.
      * repeat constructor; unfold is_scalar; lia.
      * intros Hbom. repeat (apply elem_of_cons in Hbom as [Hbom|Hbom]; [lia|]).
        by apply not_elem_of_nil in Hbom.
    + exists [0xE9; 0x0A; 0x62]. split_and!.
      * reflexivity.
      * repeat constructor; unfold is_scalar; lia.
      * intros Hbom. repeat (apply elem_of_cons in Hbom as [Hbom|Hbom]; [lia|]).
        by apply not_elem_of_nil in Hbom.
  - intros ending Hin.
    repeat (apply elem_of_cons in Hin as [Hin|Hin]; [discriminate Hin|]).
    by apply not_elem_of_nil in Hin.
Defined.
